(** * Distributed_Bank: the wire codec, the ledger, the server dispatcher
      and the client invoker, embedded from the C++ sources.

    - [proto]  : client_cpp/src/protocol.{hpp,cpp}
    - [Bank]   : z_server_cpp/src/bank.{hpp,cpp}
    - [Server] : z_server_cpp/src/main.cpp (one iteration of the loop)
    - [Client] : client_cpp/src/client.cpp ([Client::call], the request
                 handlers, the callback loop of [handleMonitor])

    Conventions.  A [uintN_t] is a [Z] in [0, 2^N) with its wrap-around
    written as [mod 2^N]; [size_t] is 64 bits wide; a byte buffer
    ([std::vector<uint8_t>], [std::string]) is a [list Z]; a [double] is
    carried as its IEEE-754 binary64 bit pattern (the value [memcpy]
    moves between [double] and [uint64_t]); its arithmetic is the
    Standard Library's executable binary64 specification, with the NaN
    results of x86-64 (SSE2), which IEEE 754 leaves to the platform. *)

From Stdlib Require Import ZArith Ascii SpecFloat.
From stdpp Require Import gmap strings pretty list.

Local Open Scope Z_scope.

Abbreviation bytes := (list Z) (only parsing).

(** ** Machine integers *)

Definition u16 (z : Z) : Z := z mod 2^16.
Definition u32 (z : Z) : Z := z mod 2^32.
Definition u64 (z : Z) : Z := z mod 2^64.

(** [int32_t(u)]: the two's-complement reading of the low 32 bits. *)
Definition i32 (z : Z) : Z := (z + 2^31) mod 2^32 - 2^31.

(** [size_t] arithmetic and [std::vector::size]. *)
Definition size (b : bytes) : Z := Z.of_nat (length b).
Definition size_add (a b : Z) : Z := u64 (a + b).

(** [b[i]] for an index the caller has bounds-checked (past the end the
    source is undefined; the model reads one fixed value, the default
    element of [Z]). *)
Definition at8 (b : bytes) (i : Z) : Z := b !!! Z.to_nat i.

(** The bytes of a string literal. *)
Fixpoint str (s : string) : bytes :=
  match s with
  | EmptyString => []
  | String c s' => Z.of_N (N_of_ascii c) :: str s'
  end.

(** ** Doubles *)

Module Double.

(** A [double] is its 64-bit pattern. *)
Definition double := Z.

Definition prec : Z := 53.
Definition emax : Z := 1024.

(** The value denoted by a bit pattern: sign (bit 63), biased exponent
    (bits 62..52), fraction (bits 51..0). *)
Definition to_SF (bits : double) : spec_float :=
  let s := Z.testbit bits 63 in
  let e := Z.land (Z.shiftr bits 52) 2047 in
  let m := Z.land bits (2^52 - 1) in
  if e =? 0 then
    match m with
    | Zpos p => S754_finite s p (-1074)
    | _ => S754_zero s
    end
  else if e =? 2047 then
    (if m =? 0 then S754_infinity s else S754_nan)
  else
    match m + 2^52 with
    | Zpos p => S754_finite s p (e - 1075)
    | _ => S754_nan
    end.

Definition sign_bit (s : bool) : Z := if s then 2^63 else 0.

(** The NaN an invalid operation ([inf - inf], [inf + -inf]) produces.
    The arithmetic is that of x86-64, where [+=] and [-=] on a [double]
    are the SSE2 instructions [addsd] and [subsd]: their default NaN is
    the quiet NaN with the sign bit set and an empty payload. *)
Definition default_nan : double := 0xFFF8000000000000.

Definition is_nan (x : double) : bool :=
  match to_SF x with
  | S754_nan => true
  | _ => false
  end.

(** A NaN operand as an operation returns it: made quiet (bit 51 set),
    with its sign and payload. *)
Definition quiet (x : double) : double := Z.lor x (2^51).

(** The pattern of a value. *)
Definition of_SF (f : spec_float) : double :=
  match f with
  | S754_zero s => sign_bit s
  | S754_infinity s => Z.lor (sign_bit s) (Z.shiftl 2047 52)
  | S754_nan => default_nan
  | S754_finite s m e =>
      if Zpos m <? 2^52 then Z.lor (sign_bit s) (Zpos m)
      else Z.lor (sign_bit s) (Z.lor (Z.shiftl (e + 1075) 52) (Zpos m - 2^52))
  end.

(** [x + y] and [x - y].  A NaN operand is returned, quieted (the first
    operand when both are NaN); otherwise the result is the IEEE-754 one,
    rounded to nearest even, and [default_nan] for an invalid
    operation. *)
Definition add (x y : double) : double :=
  if is_nan x then quiet x
  else if is_nan y then quiet y
  else of_SF (SFadd prec emax (to_SF x) (to_SF y)).

Definition sub (x y : double) : double :=
  if is_nan x then quiet x
  else if is_nan y then quiet y
  else of_SF (SFsub prec emax (to_SF x) (to_SF y)).

(** [x < y], [x == y], [x <= y] on doubles. *)
Definition ltb (x y : double) : bool := SFltb (to_SF x) (to_SF y).
Definition eqb (x y : double) : bool := SFeqb (to_SF x) (to_SF y).
Definition leb (x y : double) : bool := SFleb (to_SF x) (to_SF y).

(** The literal [0.0]. *)
Definition zero : double := 0.

(** An integer as a double ([double(z)], round to nearest even). *)
Definition of_Z (z : Z) : double := of_SF (binary_normalize prec emax z 0 false).

End Double.

Abbreviation double := Double.double.

(** ** protocol.hpp / protocol.cpp *)

Module proto.

Definition MAGIC : Z := 0x42414E4B.
Definition VERSION : Z := 1.
Definition FLAG_AT_MOST_ONCE : Z := 0x0001.
Definition HEADER_SIZE : Z := 24.

Inductive MsgType := Request | Reply | Callback.

Definition MsgType_code (t : MsgType) : Z :=
  match t with Request => 1 | Reply => 2 | Callback => 3 end.

Inductive OpCode :=
  OPEN | CLOSE | DEPOSIT | WITHDRAW | MONITOR_REGISTER | QUERY_BALANCE
| TRANSFER | CALLBACK_UPDATE.

Definition OpCode_code (o : OpCode) : Z :=
  match o with
  | OPEN => 1 | CLOSE => 2 | DEPOSIT => 3 | WITHDRAW => 4
  | MONITOR_REGISTER => 5 | QUERY_BALANCE => 6 | TRANSFER => 7
  | CALLBACK_UPDATE => 100
  end.

Inductive Currency := CNY | SGD.

Definition Currency_code (c : Currency) : Z :=
  match c with CNY => 0 | SGD => 1 end.

Inductive Status :=
  OK | ERR_BAD_REQUEST | ERR_AUTH | ERR_NOT_FOUND | ERR_CURRENCY
| ERR_INSUFFICIENT_FUNDS | ERR_PASSWORD_FORMAT.

Definition Status_code (s : Status) : Z :=
  match s with
  | OK => 0 | ERR_BAD_REQUEST => 1 | ERR_AUTH => 2 | ERR_NOT_FOUND => 3
  | ERR_CURRENCY => 4 | ERR_INSUFFICIENT_FUNDS => 5 | ERR_PASSWORD_FORMAT => 6
  end.

Record Header := {
  magic : Z;       (* uint32_t *)
  version : Z;     (* uint8_t  *)
  msgType : Z;     (* uint8_t  *)
  opCode : Z;      (* uint16_t *)
  flags : Z;       (* uint16_t *)
  status : Z;      (* uint16_t *)
  requestId : Z;   (* uint64_t *)
  bodyLen : Z;     (* uint32_t *)
}.

Record Message := { h : Header; body : bytes }.

(** *** Big-endian encoding helpers *)

Definition putBE16 (v : Z) : bytes :=
  [Z.land (Z.shiftr v 8) 0xFF; Z.land v 0xFF].

Definition putBE32 (v : Z) : bytes :=
  [Z.land (Z.shiftr v 24) 0xFF; Z.land (Z.shiftr v 16) 0xFF;
   Z.land (Z.shiftr v 8) 0xFF; Z.land v 0xFF].

(** [for (i = 0; i < 8; i++) p[i] = (v >> (56 - 8*i)) & 0xFF]. *)
Definition putBE64 (v : Z) : bytes :=
  (λ i, Z.land (Z.shiftr v (56 - 8 * i)) 0xFF) <$> seqZ 0 8.

(** *** Big-endian decoding helpers: [Some (out, off')] or [None] *)

Definition getBE16 (b : bytes) (off : Z) : option (Z * Z) :=
  if size_add off 2 >? size b then None
  else Some (u16 (Z.lor (Z.shiftl (at8 b off) 8) (at8 b (off + 1))),
             size_add off 2).

Definition getBE32 (b : bytes) (off : Z) : option (Z * Z) :=
  if size_add off 4 >? size b then None
  else Some (u32 (Z.lor (Z.lor (Z.lor (Z.shiftl (at8 b off) 24)
                                      (Z.shiftl (at8 b (off + 1)) 16))
                               (Z.shiftl (at8 b (off + 2)) 8))
                        (at8 b (off + 3))),
             size_add off 4).

(** [out = 0; for (i = 0; i < 8; i++) out = (out << 8) | b[off + i]]. *)
Definition getBE64 (b : bytes) (off : Z) : option (Z * Z) :=
  if size_add off 8 >? size b then None
  else Some (foldl (λ out i, u64 (Z.lor (Z.shiftl out 8) (at8 b (off + i))))
                   0 (seqZ 0 8),
             size_add off 8).

(** *** Public encoding functions: the buffer after the call *)

Definition putU16 (b : bytes) (v : Z) : bytes := b ++ putBE16 v.
Definition putU32 (b : bytes) (v : Z) : bytes := b ++ putBE32 v.
Definition putU64 (b : bytes) (v : Z) : bytes := b ++ putBE64 v.
Definition putI32 (b : bytes) (v : Z) : bytes := putU32 b (u32 v).

(** [memcpy(&bits, &v, 8); putU64(b, bits)]. *)
Definition putDouble (b : bytes) (v : double) : bytes :=
  let bits := v in
  putU64 b bits.

Definition putString (b : bytes) (s : bytes) : bytes :=
  if size s >? 65535 then b
  else putU16 b (u16 (size s)) ++ s.

Definition putPassword16 (b : bytes) (s : bytes) : bytes :=
  let t := if size s >? 16 then take 16 s else s in
  b ++ t ++ replicate (16 - length t) 0.

(** *** Public decoding functions *)

Definition getU16 := getBE16.
Definition getU32 := getBE32.
Definition getU64 := getBE64.

Definition getI32 (b : bytes) (off : Z) : option (Z * Z) :=
  '(u, off) ← getU32 b off;
  Some (i32 u, off).

Definition getDouble (b : bytes) (off : Z) : option (double * Z) :=
  '(bits, off) ← getU64 b off;
  Some (bits, off).

Definition getString (b : bytes) (off : Z) : option (bytes * Z) :=
  '(len, off) ← getU16 b off;
  if size_add off len >? size b then None
  else Some (take (Z.to_nat len) (drop (Z.to_nat off) b), size_add off len).

(** [n = 16; while (n > 0 && p[n - 1] == 0) n--;] *)
Fixpoint trimmed (p : bytes) (n : nat) : nat :=
  match n with
  | O => O
  | S k => if p !!! k =? 0 then trimmed p k else n
  end.

Definition getPassword16 (b : bytes) (off : Z) : option (bytes * Z) :=
  if size_add off 16 >? size b then None
  else
    let p := drop (Z.to_nat off) b in
    Some (take (trimmed p 16) p, size_add off 16).

(** *** Message encoding/decoding *)

Definition encode (m : Message) : bytes :=
  let out := [] in
  let out := putU32 out (magic (h m)) in
  let out := out ++ [version (h m)] in
  let out := out ++ [msgType (h m)] in
  let out := putU16 out (opCode (h m)) in
  let out := putU16 out (flags (h m)) in
  let out := putU16 out (status (h m)) in
  let out := putU64 out (requestId (h m)) in
  let out := putU32 out (bodyLen (h m)) in
  out ++ body m.

(** [decode] returns the message on [true] and [None] on [false]. *)
Definition decode (raw : bytes) : option Message :=
  let off := 0 in
  '(magic, off) ← getU32 raw off;
  if negb (magic =? MAGIC) then None else
  if size_add off 2 >? size raw then None else
  let version := at8 raw off in
  let off := size_add off 1 in
  let msgType := at8 raw off in
  let off := size_add off 1 in
  '(opCode, off) ← getU16 raw off;
  '(flags, off) ← getU16 raw off;
  '(status, off) ← getU16 raw off;
  '(requestId, off) ← getU64 raw off;
  '(bodyLen, off) ← getU32 raw off;
  if size_add off bodyLen >? size raw then None else
  Some {| h := {| magic := magic; version := version; msgType := msgType;
                  opCode := opCode; flags := flags; status := status;
                  requestId := requestId; bodyLen := bodyLen |};
          body := take (Z.to_nat bodyLen) (drop (Z.to_nat off) raw) |}.

End proto.

(** ** bank.hpp / bank.cpp *)

Module Bank.
Import proto.

Record Account := {
  accountNo : Z;          (* int32_t *)
  name : bytes;
  password : bytes;
  currency : Z;           (* proto::Currency, any uint16_t after the cast *)
  balance : double;
  closed : bool;
}.

(** The private members [nextAccNo_] and [accounts_]. *)
Record t := { nextAccNo_ : Z; accounts_ : gmap Z Account }.

(** [Bank::Bank() : nextAccNo_(10001) {}] *)
Definition init : t := {| nextAccNo_ := 10001; accounts_ := ∅ |}.

(** A method returns [true] with its out-parameters, or [false] with
    [err]; either way the bank after the call comes with it. *)
Inductive outcome (T : Type) :=
| Success (v : T)
| Failure (err : Status).
Arguments Success {T} v.
Arguments Failure {T} err.

Definition authMatch (a : Account) (name pw16 : bytes) : bool :=
  bool_decide (a.(Bank.name) = name) && bool_decide (a.(password) = pw16).

(** [it == accounts_.end() || it->second.closed] *)
Definition unavailable (it : option Account) : bool :=
  match it with
  | None => true
  | Some a => a.(closed)
  end.

Definition with_balance (a : Account) (b : double) : Account :=
  {| accountNo := a.(accountNo); name := a.(Bank.name); password := a.(password);
     currency := a.(currency); balance := b; closed := a.(closed) |}.

Definition with_closed (a : Account) (c : bool) : Account :=
  {| accountNo := a.(accountNo); name := a.(Bank.name); password := a.(password);
     currency := a.(currency); balance := a.(balance); closed := c |}.

(** Writing through the reference [Account& a = it->second]. *)
Definition store (bk : t) (accNo : Z) (a : Account) : t :=
  {| nextAccNo_ := bk.(nextAccNo_); accounts_ := <[accNo := a]> bk.(accounts_) |}.

(** Outputs: [(outAccNo, outBal)].  [nextAccNo_++] wraps as a 32-bit
    two's-complement counter. *)
Definition openAccount (bk : t) (name pw16 : bytes) (c : Z) (initial : double)
  : t * outcome (Z * double) :=
  if (size pw16 =? 0) || (size pw16 >? 16) then (bk, Failure ERR_PASSWORD_FORMAT)
  else
    let a := {| accountNo := bk.(nextAccNo_); name := name; password := pw16;
                currency := c; balance := initial; closed := false |} in
    let bk' := {| nextAccNo_ := i32 (bk.(nextAccNo_) + 1);
                  accounts_ := <[a.(accountNo) := a]> bk.(accounts_) |} in
    (bk', Success (a.(accountNo), a.(balance))).

Definition closeAccount (bk : t) (name : bytes) (accNo : Z) (pw16 : bytes)
  : t * outcome unit :=
  let it := bk.(accounts_) !! accNo in
  match it with
  | Some a =>
      if a.(closed) then (bk, Failure ERR_NOT_FOUND)
      else if negb (authMatch a name pw16) then (bk, Failure ERR_AUTH)
      else (store bk accNo (with_closed a true), Success ())
  | None => (bk, Failure ERR_NOT_FOUND)
  end.

(** Output: [outBal]. *)
Definition deposit (bk : t) (name : bytes) (accNo : Z) (pw16 : bytes) (c : Z)
    (amount : double) : t * outcome double :=
  let it := bk.(accounts_) !! accNo in
  match it with
  | Some a =>
      if a.(closed) then (bk, Failure ERR_NOT_FOUND)
      else if negb (authMatch a name pw16) then (bk, Failure ERR_AUTH)
      else if negb (a.(currency) =? c) then (bk, Failure ERR_CURRENCY)
      else if negb (Double.ltb Double.zero amount) then (bk, Failure ERR_BAD_REQUEST)
      else
        let a' := with_balance a (Double.add a.(balance) amount) in
        (store bk accNo a', Success a'.(balance))
  | None => (bk, Failure ERR_NOT_FOUND)
  end.

(** Output: [outBal]. *)
Definition withdraw (bk : t) (name : bytes) (accNo : Z) (pw16 : bytes) (c : Z)
    (amount : double) : t * outcome double :=
  let it := bk.(accounts_) !! accNo in
  match it with
  | Some a =>
      if a.(closed) then (bk, Failure ERR_NOT_FOUND)
      else if negb (authMatch a name pw16) then (bk, Failure ERR_AUTH)
      else if negb (a.(currency) =? c) then (bk, Failure ERR_CURRENCY)
      else if negb (Double.ltb Double.zero amount) then (bk, Failure ERR_BAD_REQUEST)
      else if Double.ltb a.(balance) amount then (bk, Failure ERR_INSUFFICIENT_FUNDS)
      else
        let a' := with_balance a (Double.sub a.(balance) amount) in
        (store bk accNo a', Success a'.(balance))
  | None => (bk, Failure ERR_NOT_FOUND)
  end.

(** Outputs: [(outFromBal, outToBal)]. *)
Definition transfer (bk : t) (name : bytes) (fromAccNo : Z) (pw16 : bytes)
    (toAccNo : Z) (c : Z) (amount : double) : t * outcome (double * double) :=
  if fromAccNo =? toAccNo then (bk, Failure ERR_BAD_REQUEST) else
  let itFrom := bk.(accounts_) !! fromAccNo in
  let itTo := bk.(accounts_) !! toAccNo in
  match itFrom with
  | Some from =>
      if from.(closed) then (bk, Failure ERR_NOT_FOUND) else
      match itTo with
      | Some to =>
          if to.(closed) then (bk, Failure ERR_NOT_FOUND)
          else if negb (authMatch from name pw16) then (bk, Failure ERR_AUTH)
          else if negb (from.(currency) =? c) || negb (to.(currency) =? c)
               then (bk, Failure ERR_CURRENCY)
          else if negb (Double.ltb Double.zero amount) then (bk, Failure ERR_BAD_REQUEST)
          else if Double.ltb from.(balance) amount
               then (bk, Failure ERR_INSUFFICIENT_FUNDS)
          else
            let from' := with_balance from (Double.sub from.(balance) amount) in
            let to' := with_balance to (Double.add to.(balance) amount) in
            (store (store bk fromAccNo from') toAccNo to',
             Success (from'.(balance), to'.(balance)))
      | None => (bk, Failure ERR_NOT_FOUND)
      end
  | None => (bk, Failure ERR_NOT_FOUND)
  end.

(** Outputs: [(outCur, outBal)]. *)
Definition queryBalance (bk : t) (name : bytes) (accNo : Z) (pw16 : bytes)
  : t * outcome (Z * double) :=
  let it := bk.(accounts_) !! accNo in
  match it with
  | Some a =>
      if a.(closed) then (bk, Failure ERR_NOT_FOUND)
      else if negb (authMatch a name pw16) then (bk, Failure ERR_AUTH)
      else (bk, Success (a.(currency), a.(balance)))
  | None => (bk, Failure ERR_NOT_FOUND)
  end.

Definition getAccount (bk : t) (accNo : Z) : option Account :=
  bk.(accounts_) !! accNo.

End Bank.

(** ** z_server_cpp/src/main.cpp *)

Module Server.
Import proto.

(** [sockaddr_in]: the four octets of [sin_addr] in network order and
    the port as [ntohs(sin_port)] reads it. *)
Record sockaddr_in := { s_b1 : Z; s_b2 : Z; s_b3 : Z; s_b4 : Z; port : Z }.

(** Ticks of [std::chrono::steady_clock] (nanoseconds). *)
Definition time_point := Z.
Definition seconds (n : Z) : Z := n * 1000000000.

Record MonitorEntry := { addr : sockaddr_in; m_expireAt : time_point }.

Record DedupEntry := { replyBytes : bytes; expireAt : time_point }.

(** [inet_ntoa] prints the dotted quad. *)
Definition addrToKey (a : sockaddr_in) : string :=
  let ipStr := pretty a.(s_b1) +:+ "." +:+ pretty a.(s_b2) +:+ "." +:+
               pretty a.(s_b3) +:+ "." +:+ pretty a.(s_b4) in
  ipStr +:+ ":" +:+ pretty a.(port).

(** What one loop iteration does to the outside, in program order. *)
Inductive Event :=
| BankCall (op : OpCode)                        (* a [Bank] method ran *)
| CallbackSent (to : sockaddr_in) (data : bytes) (* [sendto] in [sendUpdateCallback] *)
| ReplySent (to : sockaddr_in) (data : bytes).   (* [sendto] of a reply *)

Definition sendUpdateCallback (monitors : list MonitorEntry) (updateTypeOp : Z)
    (accNo : Z) (curU16 : Z) (bal : double) (info : bytes) : list Event :=
  (λ m,
    let cb_h := {| magic := MAGIC; version := VERSION;
                   msgType := MsgType_code Callback;
                   opCode := OpCode_code CALLBACK_UPDATE;
                   flags := 0; status := 0; requestId := 0; bodyLen := 0 |} in
    let cb_body := [] in
    let cb_body := putU16 cb_body updateTypeOp in
    let cb_body := putI32 cb_body accNo in
    let cb_body := putU16 cb_body curU16 in
    let cb_body := putDouble cb_body bal in
    let cb_body := putString cb_body info in
    let cb_h := {| magic := cb_h.(magic); version := cb_h.(version);
                   msgType := cb_h.(msgType); opCode := cb_h.(opCode);
                   flags := cb_h.(flags); status := cb_h.(status);
                   requestId := cb_h.(requestId);
                   bodyLen := u32 (size cb_body) |} in
    let bytes := encode {| h := cb_h; body := cb_body |} in
    CallbackSent m.(addr) bytes) <$> monitors.

(** The server's state across iterations. *)
Record State := {
  bank : Bank.t;
  monitors : list MonitorEntry;
  dedup : gmap string DedupEntry;
}.

Definition initial : State := {| bank := Bank.init; monitors := []; dedup := ∅ |}.

(** The result of the "handle ops" chain: the bank and the monitors
    after it, the reply's status and body, and what was done. *)
Record Handled := {
  h_bank : Bank.t;
  h_monitors : list MonitorEntry;
  h_status : Z;
  h_body : bytes;
  h_events : list Event;
}.

Section Dispatch.

(** [std::to_string(double)] of the C++ library. *)
Variable to_string : double → bytes.

Definition bad_request (bk : Bank.t) (mons : list MonitorEntry) : Handled :=
  {| h_bank := bk; h_monitors := mons;
     h_status := Status_code ERR_BAD_REQUEST; h_body := []; h_events := [] |}.

(** [now_op] is the value of [now()] inside MONITOR_REGISTER. *)
Definition handle (bk : Bank.t) (mons : list MonitorEntry)
    (clientAddr : sockaddr_in) (req : Message) (now_op : time_point) : Handled :=
  let op := req.(h).(opCode) in
  let rb := req.(body) in
  if op =? OpCode_code OPEN then
    match ('(name, off) ← getString rb 0;
           '(pw, off) ← getPassword16 rb off;
           '(curU16, off) ← getU16 rb off;
           '(initial, off) ← getDouble rb off;
           Some (name, pw, curU16, initial)) with
    | None => bad_request bk mons
    | Some (name, pw, curU16, initial) =>
        match Bank.openAccount bk name pw curU16 initial with
        | (bk', Bank.Failure err) =>
            {| h_bank := bk'; h_monitors := mons; h_status := Status_code err;
               h_body := []; h_events := [BankCall OPEN] |}
        | (bk', Bank.Success (accNo, bal)) =>
            {| h_bank := bk'; h_monitors := mons; h_status := Status_code OK;
               h_body := putDouble (putI32 [] accNo) bal;
               h_events := BankCall OPEN ::
                 sendUpdateCallback mons (OpCode_code OPEN) accNo curU16 bal
                   (str "OPEN by " ++ name) |}
        end
    end
  else if op =? OpCode_code CLOSE then
    match ('(name, off) ← getString rb 0;
           '(accNo, off) ← getI32 rb off;
           '(pw, off) ← getPassword16 rb off;
           Some (name, accNo, pw)) with
    | None => bad_request bk mons
    | Some (name, accNo, pw) =>
        match Bank.closeAccount bk name accNo pw with
        | (bk', Bank.Failure err) =>
            {| h_bank := bk'; h_monitors := mons; h_status := Status_code err;
               h_body := []; h_events := [BankCall CLOSE] |}
        | (bk', Bank.Success _) =>
            let a := Bank.getAccount bk' accNo in
            let curU16 := match a with Some a => a.(Bank.currency) | None => 0 end in
            let bal := match a with Some a => a.(Bank.balance) | None => Double.zero end in
            {| h_bank := bk'; h_monitors := mons; h_status := Status_code OK;
               h_body := putString [] (str "account closed");
               h_events := BankCall CLOSE ::
                 sendUpdateCallback mons (OpCode_code CLOSE) accNo curU16 bal
                   (str "CLOSE by " ++ name) |}
        end
    end
  else if op =? OpCode_code DEPOSIT then
    match ('(name, off) ← getString rb 0;
           '(accNo, off) ← getI32 rb off;
           '(pw, off) ← getPassword16 rb off;
           '(curU16, off) ← getU16 rb off;
           '(amount, off) ← getDouble rb off;
           Some (name, accNo, pw, curU16, amount)) with
    | None => bad_request bk mons
    | Some (name, accNo, pw, curU16, amount) =>
        match Bank.deposit bk name accNo pw curU16 amount with
        | (bk', Bank.Failure err) =>
            {| h_bank := bk'; h_monitors := mons; h_status := Status_code err;
               h_body := []; h_events := [BankCall DEPOSIT] |}
        | (bk', Bank.Success newBal) =>
            {| h_bank := bk'; h_monitors := mons; h_status := Status_code OK;
               h_body := putDouble [] newBal;
               h_events := BankCall DEPOSIT ::
                 sendUpdateCallback mons (OpCode_code DEPOSIT) accNo curU16 newBal
                   (str "DEPOSIT " ++ to_string amount ++ str " by " ++ name) |}
        end
    end
  else if op =? OpCode_code WITHDRAW then
    match ('(name, off) ← getString rb 0;
           '(accNo, off) ← getI32 rb off;
           '(pw, off) ← getPassword16 rb off;
           '(curU16, off) ← getU16 rb off;
           '(amount, off) ← getDouble rb off;
           Some (name, accNo, pw, curU16, amount)) with
    | None => bad_request bk mons
    | Some (name, accNo, pw, curU16, amount) =>
        match Bank.withdraw bk name accNo pw curU16 amount with
        | (bk', Bank.Failure err) =>
            {| h_bank := bk'; h_monitors := mons; h_status := Status_code err;
               h_body := []; h_events := [BankCall WITHDRAW] |}
        | (bk', Bank.Success newBal) =>
            {| h_bank := bk'; h_monitors := mons; h_status := Status_code OK;
               h_body := putDouble [] newBal;
               h_events := BankCall WITHDRAW ::
                 sendUpdateCallback mons (OpCode_code WITHDRAW) accNo curU16 newBal
                   (str "WITHDRAW " ++ to_string amount ++ str " by " ++ name) |}
        end
    end
  else if op =? OpCode_code TRANSFER then
    match ('(name, off) ← getString rb 0;
           '(fromAcc, off) ← getI32 rb off;
           '(pw, off) ← getPassword16 rb off;
           '(toAcc, off) ← getI32 rb off;
           '(curU16, off) ← getU16 rb off;
           '(amount, off) ← getDouble rb off;
           Some (name, fromAcc, pw, toAcc, curU16, amount)) with
    | None => bad_request bk mons
    | Some (name, fromAcc, pw, toAcc, curU16, amount) =>
        match Bank.transfer bk name fromAcc pw toAcc curU16 amount with
        | (bk', Bank.Failure err) =>
            {| h_bank := bk'; h_monitors := mons; h_status := Status_code err;
               h_body := []; h_events := [BankCall TRANSFER] |}
        | (bk', Bank.Success (fromBal, toBal)) =>
            {| h_bank := bk'; h_monitors := mons; h_status := Status_code OK;
               h_body := putDouble (putDouble [] fromBal) toBal;
               h_events := BankCall TRANSFER ::
                 sendUpdateCallback mons (OpCode_code TRANSFER) fromAcc curU16 fromBal
                   (str "TRANSFER out " ++ to_string amount ++ str " to " ++
                    str (pretty toAcc) ++ str " by " ++ name) ++
                 sendUpdateCallback mons (OpCode_code TRANSFER) toAcc curU16 toBal
                   (str "TRANSFER in " ++ to_string amount ++ str " from " ++
                    str (pretty fromAcc)) |}
        end
    end
  else if op =? OpCode_code QUERY_BALANCE then
    match ('(name, off) ← getString rb 0;
           '(accNo, off) ← getI32 rb off;
           '(pw, off) ← getPassword16 rb off;
           Some (name, accNo, pw)) with
    | None => bad_request bk mons
    | Some (name, accNo, pw) =>
        match Bank.queryBalance bk name accNo pw with
        | (bk', Bank.Failure err) =>
            {| h_bank := bk'; h_monitors := mons; h_status := Status_code err;
               h_body := []; h_events := [BankCall QUERY_BALANCE] |}
        | (bk', Bank.Success (cur, bal)) =>
            {| h_bank := bk'; h_monitors := mons; h_status := Status_code OK;
               h_body := putDouble (putU16 [] cur) bal;
               h_events := [BankCall QUERY_BALANCE] |}
        end
    end
  else if op =? OpCode_code MONITOR_REGISTER then
    match getU16 rb 0 with
    | None => bad_request bk mons
    | Some (secs, _) =>
        let e := {| addr := clientAddr; m_expireAt := now_op + seconds secs |} in
        {| h_bank := bk; h_monitors := mons ++ [e]; h_status := Status_code OK;
           h_body := putString [] (str "monitor registered for " ++
                                   str (pretty secs) ++ str "s");
           h_events := [] |}
    end
  else bad_request bk mons.

End Dispatch.

(** What the environment supplies to one iteration of [while (true)]. *)
Record Input := {
  now_top : time_point;                   (* [now()] at "periodic cleanup" *)
  recvfrom : option (sockaddr_in * bytes); (* [None]: [SOCKET_ERROR] *)
  lossReq_hit : bool;                     (* [uni(rng) < lossReq] *)
  lossRep_hit : bool;                     (* [uni(rng) < lossRep] *)
  now_op : time_point;                    (* [now()] in MONITOR_REGISTER *)
  now_ins : time_point;                   (* [now()] at the dedup insert *)
}.

(** "periodic cleanup": the [remove_if]/[erase] over [monitors] and the
    erasing walk over [dedup], both dropping entries with [expireAt <= t]. *)
Definition cleanup (s : State) (t : time_point) : State :=
  {| bank := s.(bank);
     monitors := filter (λ e, ¬ (e.(m_expireAt) ≤ t)) s.(monitors);
     dedup := filter (λ it, ¬ (it.2.(expireAt) ≤ t)) s.(dedup) |}.

Section Loop.

Variable to_string : double → bytes.

(** One pass through the body of [while (true)]. *)
Definition iteration (s : State) (i : Input) : State * list Event :=
  let s := cleanup s i.(now_top) in
  let monitors := s.(monitors) in
  let dedup := s.(dedup) in
  match i.(recvfrom) with
  | None => (s, [])
  | Some (clientAddr, data) =>
      (* [buf(2048)], [buf.resize(n)] *)
      let buf := take 2048 data in
      let clientKey := addrToKey clientAddr in
      if i.(lossReq_hit) then (s, []) else
      match decode buf with
      | None => (s, [])
      | Some req =>
          if negb (req.(h).(version) =? VERSION)
             || negb (req.(h).(msgType) =? MsgType_code Request)
          then (s, []) else
          let atMostOnce := negb (Z.land req.(h).(flags) FLAG_AT_MOST_ONCE =? 0) in
          let dedupKey := clientKey +:+ "#" +:+ pretty req.(h).(requestId) in
          match (if atMostOnce then dedup !! dedupKey else None) with
          | Some it =>
              (s, if i.(lossRep_hit) then []
                  else [ReplySent clientAddr it.(replyBytes)])
          | None =>
              let r := handle to_string s.(bank) monitors clientAddr req i.(now_op) in
              let rep := {| h := {| magic := MAGIC; version := VERSION;
                                    msgType := MsgType_code Reply;
                                    opCode := req.(h).(opCode);
                                    flags := req.(h).(flags);
                                    status := r.(h_status);
                                    requestId := req.(h).(requestId);
                                    bodyLen := u32 (size r.(h_body)) |};
                            body := r.(h_body) |} in
              let repBytes := encode rep in
              let dedup :=
                if atMostOnce
                then <[dedupKey := {| replyBytes := repBytes;
                                      expireAt := i.(now_ins) + seconds 60 |}]> dedup
                else dedup in
              ({| bank := r.(h_bank); monitors := r.(h_monitors); dedup := dedup |},
               r.(h_events) ++
               (if i.(lossRep_hit) then [] else [ReplySent clientAddr repBytes]))
          end
      end
  end.

(** The loop over a finite prefix of arrivals: final state and the
    events of every iteration, in order. *)
Fixpoint run (s : State) (inputs : list Input) : State * list Event :=
  match inputs with
  | [] => (s, [])
  | i :: inputs' =>
      let '(s1, ev1) := iteration s i in
      let '(s2, ev2) := run s1 inputs' in
      (s2, ev1 ++ ev2)
  end.

End Loop.

(** The [Bank] methods invoked in a trace. *)
Definition invocations (evs : list Event) : list OpCode :=
  omap (λ e, match e with BankCall op => Some op | _ => None end) evs.

(** The replies sent in a trace. *)
Definition replies (evs : list Event) : list (sockaddr_in * bytes) :=
  omap (λ e, match e with ReplySent a d => Some (a, d) | _ => None end) evs.

End Server.

(** ** client_cpp/src/client.cpp *)

Module Client.
Import proto.

(** The constructor's [atMostOnce], [timeoutMs], [retryCount]. *)
Record Config := { atMostOnce_ : bool; timeoutMs_ : Z; retryCount_ : Z }.

(** The outcome of the [recvfrom] of one attempt, the socket's receive
    timeout being [timeoutMs_]. *)
Inductive Recv :=
| TimedOut                  (* [n < 0], [WSAETIMEDOUT] / [EAGAIN] *)
| RecvFailed                (* [n < 0], any other error *)
| Datagram (data : bytes).

(** What the environment does to one attempt. *)
Record Attempt := { sendto_ok : bool; recvfrom : Recv }.

(** A successful [sendto] of the request, with its attempt number. *)
Inductive Action := Sent (attempt : Z) (data : bytes).

Section Call.

Variable cfg : Config.
(** [rng()] *)
Variable reqId : Z.
(** The environment, by attempt number. *)
Variable env : Z → Attempt.

(** [for (attempt = ...; attempt <= retryCount_; attempt++)] with
    [remaining] passes left; every [continue] is the recursive call. *)
Fixpoint attempts (reqBytes : bytes) (remaining : nat) (attempt : Z)
  : option Message * list Action :=
  match remaining with
  | O => (None, [])
  | S remaining' =>
      let continue := attempts reqBytes remaining' (attempt + 1) in
      if negb (env attempt).(sendto_ok) then continue else
      let sent := Sent attempt reqBytes in
      match (env attempt).(recvfrom) with
      | TimedOut => (continue.1, sent :: continue.2)
      | RecvFailed => (continue.1, sent :: continue.2)
      | Datagram data =>
          let buf := take 2048 data in
          match decode buf with
          | None => (continue.1, sent :: continue.2)
          | Some reply =>
              if negb (reply.(h).(msgType) =? MsgType_code Reply)
              then (continue.1, sent :: continue.2)
              else if negb (reply.(h).(requestId) =? reqId)
              then (continue.1, sent :: continue.2)
              else (Some reply, [sent])
          end
      end
  end.

(** [Client::call]: the reply on [true], [None] on [false], and the
    datagrams sent. *)
Definition call (opCode : Z) (body : bytes) : option Message * list Action :=
  let req := {| h := {| magic := MAGIC; version := VERSION;
                        msgType := MsgType_code Request; opCode := opCode;
                        flags := if cfg.(atMostOnce_) then FLAG_AT_MOST_ONCE else 0;
                        status := 0; requestId := reqId;
                        bodyLen := u32 (size body) |};
                body := body |} in
  let reqBytes := encode req in
  attempts reqBytes (Z.to_nat cfg.(retryCount_)) 1.

End Call.

(** The password loop of [handleOpen], [while (true)] at the prompts
    "password" and "confirm password", fed the lines [typed] at these
    prompts in order: the password the loop leaves with by [break], or
    [None] when the handler returns ('q' or 'Q' at either prompt).  At
    the end of the input [std::getline] yields the empty line for ever,
    the loop never leaves, and no request is sent: [None] as well. *)
Fixpoint promptPassword (typed : list bytes) : option bytes :=
  match typed with
  | [] => None
  | password :: typed' =>
      if bool_decide (password = str "q") || bool_decide (password = str "Q") then None
      else if bool_decide (password = []) || (size password >? 16)
      then promptPassword typed'            (* [continue] *)
      else
        match typed' with
        | [] => None
        | confirm :: typed'' =>
            if bool_decide (confirm = str "q") || bool_decide (confirm = str "Q") then None
            else if negb (bool_decide (password = confirm))
            then promptPassword typed''     (* [continue] *)
            else Some password              (* [break] *)
        end
  end.

(** [handleOpen]: the request body handed to [call], or [None] when the
    handler does not reach [call].  [name] is the line read at the name
    prompt, [typed] the lines read at the password prompts, [currency]
    what [readCurrency] returned and [initialBalance] what [readDouble]
    stored. *)
Definition handleOpen (name : bytes) (typed : list bytes) (currency : Z)
    (initialBalance : double) : option bytes :=
  if bool_decide (name = []) || bool_decide (name = str "q")
     || bool_decide (name = str "Q") then None
  else
    match promptPassword typed with
    | None => None
    | Some password =>
        if currency =? 0xFFFF then None
        else if Double.ltb initialBalance Double.zero then None
        else
          let body := [] in
          let body := putString body name in
          let body := putPassword16 body password in
          let body := putU16 body currency in
          let body := putDouble body initialBalance in
          Some body
    end.






(** [handleMonitor] up to its [call]: the body for [seconds] (an [int]). *)
Definition handleMonitor (seconds : Z) : option bytes :=
  if seconds <=? 0 then None
  else
    let body := [] in
    let body := putU16 body (u16 seconds) in
    Some body.


(** One datagram in the callback loop of [handleMonitor]: the fields it
    prints, or [None] when the datagram is passed over. *)
Definition receiveCallback (data : bytes) : option (Z * Z * Z * double * bytes) :=
  let buf := take 2048 data in
  match decode buf with
  | None => None
  | Some cb =>
      if negb (cb.(h).(msgType) =? MsgType_code Callback) then None
      else if negb (cb.(h).(opCode) =? OpCode_code CALLBACK_UPDATE) then None
      else
        '(updateType, cbOff) ← getU16 cb.(body) 0;
        '(accNo, cbOff) ← getI32 cb.(body) cbOff;
        '(cur, cbOff) ← getU16 cb.(body) cbOff;
        '(newBal, cbOff) ← getDouble cb.(body) cbOff;
        '(info, cbOff) ← getString cb.(body) cbOff;
        Some (updateType, accNo, cur, newBal, info)
  end.

End Client.

(** ** Notions the statements below speak about *)

(** Byte order of the host. *)
Inductive Endian := LittleEndian | BigEndian.

(** The eight bytes a 64-bit object with value [bits] occupies in memory,
    lowest address first.  A [double] and the [uint64_t] that [memcpy]
    fills from it occupy the same bytes. *)
Definition memory_bytes (e : Endian) (bits : Z) : bytes :=
  let byte (k : Z) := (bits / 2 ^ (8 * k)) mod 256 in
  match e with
  | LittleEndian => byte <$> [0; 1; 2; 3; 4; 5; 6; 7]
  | BigEndian => byte <$> [7; 6; 5; 4; 3; 2; 1; 0]
  end.

(** The header fields hold values of their C++ types. *)
Definition header_in_range (hd : proto.Header) : Prop :=
  0 ≤ hd.(proto.magic) < 2^32 ∧ 0 ≤ hd.(proto.version) < 2^8 ∧
  0 ≤ hd.(proto.msgType) < 2^8 ∧ 0 ≤ hd.(proto.opCode) < 2^16 ∧
  0 ≤ hd.(proto.flags) < 2^16 ∧ 0 ≤ hd.(proto.status) < 2^16 ∧
  0 ≤ hd.(proto.requestId) < 2^64 ∧ 0 ≤ hd.(proto.bodyLen) < 2^32.

(** A well-formed message: [bodyLen] is the length of the body. *)
Definition well_formed (m : proto.Message) : Prop :=
  header_in_range m.(proto.h) ∧ m.(proto.h).(proto.bodyLen) = size m.(proto.body).

(** An account number with a record whose [closed] flag is set. *)
Definition is_closed (bk : Bank.t) (accNo : Z) : Prop :=
  ∃ a, bk.(Bank.accounts_) !! accNo = Some a ∧ a.(Bank.closed) = true.

(** An account number with no record at all. *)
Definition is_missing (bk : Bank.t) (accNo : Z) : Prop :=
  bk.(Bank.accounts_) !! accNo = None.

(** The bank of scenario 6 with other balances: account 10001 holds
    [3.0], account 10002 holds [2^53], both CNY. *)
Definition two_accounts : Bank.t :=
  let bk := (Bank.openAccount Bank.init (str "alice") (str "pw") 0 (Double.of_Z 3)).1 in
  (Bank.openAccount bk (str "bob") (str "pw") 0 (Double.of_Z (2^53))).1.

(** A bank whose only account, 10001, has been closed by its owner. *)
Definition one_closed : Bank.t :=
  let bk := (Bank.openAccount Bank.init (str "alice") (str "pw") 0 (Double.of_Z 100)).1 in
  (Bank.closeAccount bk (str "alice") 10001 (str "pw")).1.

(** [+inf], and a bank in which account 10001 holds [+inf] and account
    10002 holds [0.0], both CNY. *)
Definition infinity : double := 0x7FF0000000000000.

Definition infinite_accounts : Bank.t :=
  let bk := (Bank.openAccount Bank.init (str "alice") (str "pw") 0 infinity).1 in
  (Bank.openAccount bk (str "bob") (str "pw") 0 Double.zero).1.

(** The values [getBE16], [getBE32] and [getBE64] read at [off]. *)
Definition rd16 (b : bytes) (off : Z) : Z :=
  u16 (Z.lor (Z.shiftl (at8 b off) 8) (at8 b (off + 1))).

Definition rd32 (b : bytes) (off : Z) : Z :=
  u32 (Z.lor (Z.lor (Z.lor (Z.shiftl (at8 b off) 24) (Z.shiftl (at8 b (off + 1)) 16))
                    (Z.shiftl (at8 b (off + 2)) 8))
             (at8 b (off + 3))).

Definition rd64 (b : bytes) (off : Z) : Z :=
  foldl (λ out i, u64 (Z.lor (Z.shiftl out 8) (at8 b (off + i)))) 0 (seqZ 0 8).

(** The message found in a buffer that [decode] accepts. *)
Definition decoded (raw : bytes) : proto.Message :=
  {| proto.h := {| proto.magic := rd32 raw 0; proto.version := at8 raw 4;
                   proto.msgType := at8 raw 5; proto.opCode := rd16 raw 6;
                   proto.flags := rd16 raw 8; proto.status := rd16 raw 10;
                   proto.requestId := rd64 raw 12; proto.bodyLen := rd32 raw 20 |};
     proto.body := take (Z.to_nat (rd32 raw 20)) (drop 24 raw) |}.

(** [m] with another version byte. *)
Definition with_version (m : proto.Message) (v : Z) : proto.Message :=
  {| proto.h := {| proto.magic := m.(proto.h).(proto.magic); proto.version := v;
                   proto.msgType := m.(proto.h).(proto.msgType);
                   proto.opCode := m.(proto.h).(proto.opCode);
                   proto.flags := m.(proto.h).(proto.flags);
                   proto.status := m.(proto.h).(proto.status);
                   proto.requestId := m.(proto.h).(proto.requestId);
                   proto.bodyLen := m.(proto.h).(proto.bodyLen) |};
     proto.body := m.(proto.body) |}.

(** Two buffers with the same header bytes, the version byte apart. *)
Definition same_header (raw raw' : bytes) : Prop :=
  ∀ i, 0 ≤ i < 24 → i ≠ 4 → at8 raw' i = at8 raw i.

(** The header [Header h{}] gives a default-constructed message. *)
Definition zero_message : proto.Message :=
  {| proto.h := {| proto.magic := 0; proto.version := 0; proto.msgType := 0;
                   proto.opCode := 0; proto.flags := 0; proto.status := 0;
                   proto.requestId := 0; proto.bodyLen := 0 |};
     proto.body := [] |}.

(** A QUERY_BALANCE-shaped datagram with request id 7, an empty body and
    the version byte 2. *)
Definition version2_datagram : bytes :=
  [0x42; 0x41; 0x4E; 0x4B; 2; 1; 0; 6; 0; 0; 0; 0;
   0; 0; 0; 0; 0; 0; 0; 7; 0; 0; 0; 0].

(** Scenario 3: alice's CNY account 10001 holding 100, and a DEPOSIT
    request on it of 50 in SGD. *)
Definition alice_bank : Bank.t :=
  (Bank.openAccount Bank.init (str "alice") (str "pw") 0 (Double.of_Z 100)).1.

Definition deposit_body (accNo currency : Z) (amount : double) : bytes :=
  let body := [] in
  let body := proto.putString body (str "alice") in
  let body := proto.putI32 body accNo in
  let body := proto.putPassword16 body (str "pw") in
  let body := proto.putU16 body currency in
  proto.putDouble body amount.

Definition request (op : proto.OpCode) (flags requestId : Z) (body : bytes)
  : proto.Message :=
  {| proto.h := {| proto.magic := proto.MAGIC; proto.version := proto.VERSION;
                   proto.msgType := proto.MsgType_code proto.Request;
                   proto.opCode := proto.OpCode_code op; proto.flags := flags;
                   proto.status := 0; proto.requestId := requestId;
                   proto.bodyLen := u32 (size body) |};
     proto.body := body |}.

Definition localhost (p : Z) : Server.sockaddr_in :=
  {| Server.s_b1 := 127; Server.s_b2 := 0; Server.s_b3 := 0; Server.s_b4 := 1;
     Server.port := p |}.

(** The key under which the reply to request [requestId] of [peer] is
    cached. *)
Definition dedupKey (peer : Server.sockaddr_in) (requestId : Z) : string :=
  Server.addrToKey peer +:+ "#" +:+ pretty requestId.


(** An OPEN request for alice, 100 CNY, at-most-once, request id 42. *)
Definition open_datagram : bytes :=
  let body := [] in
  let body := proto.putString body (str "alice") in
  let body := proto.putPassword16 body (str "pw") in
  let body := proto.putU16 body 0 in
  let body := proto.putDouble body (Double.of_Z 100) in
  proto.encode (request proto.OPEN 1 42 body).

(** Its arrival from 127.0.0.1:5000 at time [t_recv], in an iteration
    that started at [t_top]; no loss draw hits. *)
Definition open_arrival (t_top t_recv : Z) : Server.Input :=
  {| Server.now_top := t_top;
     Server.recvfrom := Some (localhost 5000, open_datagram);
     Server.lossReq_hit := false; Server.lossRep_hit := false;
     Server.now_op := t_recv; Server.now_ins := t_recv |}.

(** Three arrivals of [open_datagram]: at 0 s, at 70 s and at 71 s; each
    iteration starts when the one before it ends. *)
Definition late_resends : list Server.Input :=
  [open_arrival 0 0;
   open_arrival 0 (Server.seconds 70);
   open_arrival (Server.seconds 70) (Server.seconds 71)].


(** An attempt whose [recvfrom] yields a datagram that decodes but is
    not a Reply, or is a Reply to another request id. *)
Definition stray (reqId : Z) (a : Client.Attempt) : Prop :=
  a.(Client.sendto_ok) = true ∧
  ∃ data reply,
    a.(Client.recvfrom) = Client.Datagram data ∧
    proto.decode (take 2048 data) = Some reply ∧
    (reply.(proto.h).(proto.msgType) ≠ proto.MsgType_code proto.Reply ∨
     reply.(proto.h).(proto.requestId) ≠ reqId).

(** An attempt whose [recvfrom] runs into the receive timeout. *)
Definition timed_out (a : Client.Attempt) : Prop :=
  a.(Client.sendto_ok) = true ∧ a.(Client.recvfrom) = Client.TimedOut.

(** A callback datagram (msgType 3, request id 0, empty body) and the
    OK reply to request 99 of a QUERY_BALANCE (empty body here). *)
Definition callback_datagram : bytes :=
  proto.encode
    {| proto.h := {| proto.magic := proto.MAGIC; proto.version := proto.VERSION;
                     proto.msgType := proto.MsgType_code proto.Callback;
                     proto.opCode := proto.OpCode_code proto.CALLBACK_UPDATE;
                     proto.flags := 0; proto.status := 0; proto.requestId := 0;
                     proto.bodyLen := 0 |};
       proto.body := [] |}.

Definition reply_99 : proto.Message :=
  {| proto.h := {| proto.magic := proto.MAGIC; proto.version := proto.VERSION;
                   proto.msgType := proto.MsgType_code proto.Reply;
                   proto.opCode := proto.OpCode_code proto.QUERY_BALANCE;
                   proto.flags := 1; proto.status := 0; proto.requestId := 99;
                   proto.bodyLen := 0 |};
     proto.body := [] |}.

(** The network hands the first attempt the callback and every later
    attempt the reply; no [recvfrom] ever times out. *)
Definition callback_then_reply (attempt : Z) : Client.Attempt :=
  {| Client.sendto_ok := true;
     Client.recvfrom :=
       Client.Datagram (if attempt =? 1 then callback_datagram
                        else proto.encode reply_99) |}.

Definition five_retries : Client.Config :=
  {| Client.atMostOnce_ := true; Client.timeoutMs_ := 500; Client.retryCount_ := 5 |}.

Definition one_retry : Client.Config :=
  {| Client.atMostOnce_ := true; Client.timeoutMs_ := 500; Client.retryCount_ := 1 |}.


(** A value of type [uint8_t]. *)
Definition is_byte (b : Z) : Prop := 0 ≤ b < 256.

(** [t] without its trailing zero bytes. *)
Definition strip_zeros (t : bytes) : bytes := take (proto.trimmed t (length t)) t.

(** [m] with another body. *)
Definition with_body (m : proto.Message) (bd : bytes) : proto.Message :=
  {| proto.h := m.(proto.h); proto.body := bd |}.

(** The allocator's invariant: the next number lies in 10001..2^31-1,
    and every account is filed under its own number, one the allocator
    has already issued. *)
Definition bank_inv (bk : Bank.t) : Prop :=
  10001 ≤ bk.(Bank.nextAccNo_) < 2^31 ∧
  ∀ k a, bk.(Bank.accounts_) !! k = Some a →
         a.(Bank.accountNo) = k ∧ 10001 ≤ k < bk.(Bank.nextAccNo_).

(** [a'] is [a] up to balance and [closed] flag. *)
Definition same_identity (a a' : Bank.Account) : Prop :=
  a'.(Bank.accountNo) = a.(Bank.accountNo) ∧ a'.(Bank.name) = a.(Bank.name) ∧
  a'.(Bank.password) = a.(Bank.password) ∧ a'.(Bank.currency) = a.(Bank.currency).

(** [bk'] has every account of [bk], each with the identity it had, and
    each closed one exactly as it was. *)
Definition keeps_accounts (bk bk' : Bank.t) : Prop :=
  ∀ k a, bk.(Bank.accounts_) !! k = Some a →
    ∃ a', bk'.(Bank.accounts_) !! k = Some a' ∧ same_identity a a' ∧
          (a.(Bank.closed) = true → a' = a).

(** An amount that is NaN, or at most zero. *)
Definition not_positive (amount : double) : Prop :=
  Double.to_SF amount = S754_nan ∨ Double.leb amount Double.zero = true.

(** The callbacks sent in a trace. *)
Definition callbacks (evs : list Server.Event) : list (Server.sockaddr_in * bytes) :=
  omap (λ e, match e with Server.CallbackSent a d => Some (a, d) | _ => None end) evs.

(** The request an arrival brings past [recvfrom], the request-loss draw,
    [decode] and the version and message-type checks, with its sender;
    [None] when the loop goes on to the next datagram. *)
Definition accepted (i : Server.Input) : option (Server.sockaddr_in * proto.Message) :=
  match i.(Server.recvfrom) with
  | None => None
  | Some (clientAddr, data) =>
      if i.(Server.lossReq_hit) then None else
      match proto.decode (take 2048 data) with
      | None => None
      | Some req =>
          if negb (req.(proto.h).(proto.version) =? proto.VERSION)
             || negb (req.(proto.h).(proto.msgType) =? proto.MsgType_code proto.Request)
          then None else Some (clientAddr, req)
      end
  end.

(** Flags bit 0 of a request. *)
Definition wants_at_most_once (req : proto.Message) : bool :=
  negb (Z.land req.(proto.h).(proto.flags) proto.FLAG_AT_MOST_ONCE =? 0).

(** The reply to [req] with a given status and body. *)
Definition reply_to (req : proto.Message) (status : Z) (body : bytes) : proto.Message :=
  {| proto.h := {| proto.magic := proto.MAGIC; proto.version := proto.VERSION;
                   proto.msgType := proto.MsgType_code proto.Reply;
                   proto.opCode := req.(proto.h).(proto.opCode);
                   proto.flags := req.(proto.h).(proto.flags);
                   proto.status := status;
                   proto.requestId := req.(proto.h).(proto.requestId);
                   proto.bodyLen := u32 (size body) |};
     proto.body := body |}.

(** [bk'] comes after [bk]: it satisfies the allocator's invariant, keeps
    the accounts of [bk], and has issued at most one more number. *)
Definition bank_step (bk bk' : Bank.t) : Prop :=
  bank_inv bk' ∧ keeps_accounts bk bk' ∧
  bk.(Bank.nextAccNo_) ≤ bk'.(Bank.nextAccNo_) ≤ bk.(Bank.nextAccNo_) + 1.

(** The number of callbacks each monitor gets for a successful request
    with opcode [op]. *)
Definition update_rounds (op : Z) : nat :=
  if op =? proto.OpCode_code proto.OPEN then 1
  else if op =? proto.OpCode_code proto.CLOSE then 1
  else if op =? proto.OpCode_code proto.DEPOSIT then 1
  else if op =? proto.OpCode_code proto.WITHDRAW then 1
  else if op =? proto.OpCode_code proto.TRANSFER then 2
  else 0.


(** The request [Client::call] builds. *)
Definition call_request (cfg : Client.Config) (reqId opCode : Z) (body : bytes)
  : proto.Message :=
  {| proto.h := {| proto.magic := proto.MAGIC; proto.version := proto.VERSION;
                   proto.msgType := proto.MsgType_code proto.Request;
                   proto.opCode := opCode;
                   proto.flags := if cfg.(Client.atMostOnce_)
                                  then proto.FLAG_AT_MOST_ONCE else 0;
                   proto.status := 0; proto.requestId := reqId;
                   proto.bodyLen := u32 (size body) |};
     proto.body := body |}.

(** The reply an attempt ends the call with: its [sendto] succeeds and
    its [recvfrom] yields a datagram that decodes to a Reply carrying
    [reqId]. *)
Definition answers (reqId : Z) (a : Client.Attempt) : option proto.Message :=
  if a.(Client.sendto_ok) then
    match a.(Client.recvfrom) with
    | Client.Datagram data =>
        match proto.decode (take 2048 data) with
        | Some reply =>
            if (reply.(proto.h).(proto.msgType) =? proto.MsgType_code proto.Reply)
               && (reply.(proto.h).(proto.requestId) =? reqId)
            then Some reply else None
        | None => None
        end
    | _ => None
    end
  else None.

(** The datagrams sent by the attempts [first], ..., [first + count - 1]:
    one for each attempt whose [sendto] succeeds. *)
Definition sends (env : Z → Client.Attempt) (reqBytes : bytes) (first count : Z)
  : list Client.Action :=
  (λ j, Client.Sent j reqBytes)
    <$> filter (λ j, (env j).(Client.sendto_ok) = true) (seqZ first count).



(** An iteration whose [recvfrom] fails. *)
Definition silence : Server.Input :=
  {| Server.now_top := 0; Server.recvfrom := None;
     Server.lossReq_hit := false; Server.lossRep_hit := false;
     Server.now_op := 0; Server.now_ins := 0 |}.

(** A monitor at 127.0.0.1:6000 registered until 30 s. *)
Definition watcher : Server.MonitorEntry :=
  {| Server.addr := localhost 6000; Server.m_expireAt := Server.seconds 30 |}.

(** A server holding alice's account, with [watcher] registered, and the
    same server with a cached reply for request 7 of 127.0.0.1:5000. *)
Definition alice_server : Server.State :=
  {| Server.bank := alice_bank; Server.monitors := [watcher]; Server.dedup := ∅ |}.

Definition alice_server_cached : Server.State :=
  {| Server.bank := alice_bank; Server.monitors := [watcher];
     Server.dedup := {[ dedupKey (localhost 5000) 7 :=
                          {| Server.replyBytes := [1; 2; 3];
                             Server.expireAt := Server.seconds 60 |} ]} |}.

(** The arrival at time 0 of a DEPOSIT of 50 CNY into account 10001,
    request id 7, flags 0; [lost] is the reply-loss draw. *)
Definition deposit_request : proto.Message :=
  request proto.DEPOSIT 0 7 (deposit_body 10001 0 (Double.of_Z 50)).

Definition deposit_arrival (lost : bool) : Server.Input :=
  {| Server.now_top := 0;
     Server.recvfrom := Some (localhost 5000, proto.encode deposit_request);
     Server.lossReq_hit := false; Server.lossRep_hit := lost;
     Server.now_op := 0; Server.now_ins := 0 |}.

(** The arrival of what [call] sends for request 99 with [five_retries]:
    opcode [op] and body [body]. *)
Definition call_arrival (op : Z) (body : bytes) : Server.Input :=
  {| Server.now_top := 0;
     Server.recvfrom :=
       Some (localhost 5000, proto.encode (call_request five_retries 99 op body));
     Server.lossReq_hit := false; Server.lossRep_hit := false;
     Server.now_op := 0; Server.now_ins := 0 |}.

(** The network hands every attempt the datagram [data]. *)
Definition always_delivers (data : bytes) (attempt : Z) : Client.Attempt :=
  {| Client.sendto_ok := true; Client.recvfrom := Client.Datagram data |}.



(** A string of decimal digits. *)
Fixpoint all_digits (s : string) : Prop :=
  match s with
  | EmptyString => True
  | String c s' => (∃ n, c = pretty_N_char n) ∧ all_digits s'
  end.

(** A socket address whose octets and port are not negative. *)
Definition valid_peer (a : Server.sockaddr_in) : Prop :=
  0 ≤ a.(Server.s_b1) ∧ 0 ≤ a.(Server.s_b2) ∧ 0 ≤ a.(Server.s_b3) ∧
  0 ≤ a.(Server.s_b4) ∧ 0 ≤ a.(Server.port).

(** * The ledger *)

Module BankFacts.
Import proto Bank.

(** Unfold a method and walk through its guards. *)
Ltac guards :=
  intros;
  repeat match goal with
         | H : (_, _) = (_, _) |- _ => inversion H; subst; clear H
         | H : context [match ?x with _ => _ end] |- _ => destruct x eqn:?
         | |- context [match ?x with _ => _ end] => destruct x eqn:?
         end;
  try discriminate; try done.

Lemma openAccount_Failure bk name pw c initial bk' err :
  openAccount bk name pw c initial = (bk', Failure err) →
  bk' = bk ∧ err = ERR_PASSWORD_FORMAT ∧ (size pw = 0 ∨ size pw > 16).
Proof.
  unfold openAccount. intros H.
  destruct (size pw =? 0) eqn:E0; simpl in H.
  - inversion H. split_and!; auto. left. lia.
  - destruct (size pw >? 16) eqn:E1; inversion H.
    split_and!; auto. right. lia.
Qed.

Lemma closeAccount_Failure bk name accNo pw bk' err :
  closeAccount bk name accNo pw = (bk', Failure err) → bk' = bk ∧ err ≠ OK.
Proof. unfold closeAccount. guards. Qed.

Lemma deposit_Failure bk name accNo pw c amount bk' err :
  deposit bk name accNo pw c amount = (bk', Failure err) → bk' = bk ∧ err ≠ OK.
Proof. unfold deposit. guards. Qed.

Lemma withdraw_Failure bk name accNo pw c amount bk' err :
  withdraw bk name accNo pw c amount = (bk', Failure err) → bk' = bk ∧ err ≠ OK.
Proof. unfold withdraw. guards. Qed.

Lemma transfer_Failure bk name fromAccNo pw toAccNo c amount bk' err :
  transfer bk name fromAccNo pw toAccNo c amount = (bk', Failure err) →
  bk' = bk ∧ err ≠ OK.
Proof. unfold transfer. guards. Qed.

Lemma queryBalance_Failure bk name accNo pw bk' err :
  queryBalance bk name accNo pw = (bk', Failure err) → bk' = bk ∧ err ≠ OK.
Proof. unfold queryBalance. guards. Qed.

Lemma queryBalance_bank bk name accNo pw : (queryBalance bk name accNo pw).1 = bk.
Proof. unfold queryBalance. guards. Qed.

(** C10.  [openAccount] puts no lower bound on the initial amount: with
    a password of 1 to 16 bytes it succeeds for every double [initial],
    negative ones included, and records an account whose balance is
    exactly [initial]; its only failure is [ERR_PASSWORD_FORMAT], for an
    empty password or one longer than 16 bytes.  The check against a
    negative initial balance is made by the interactive client alone,
    which then sends no request. *)
Theorem openAccount_no_lower_bound bk name pw c (initial : double) :
  (1 ≤ size pw ≤ 16 →
   ∃ bk', openAccount bk name pw c initial = (bk', Success (bk.(nextAccNo_), initial)) ∧
          bk'.(accounts_) !! bk.(nextAccNo_) =
            Some {| accountNo := bk.(nextAccNo_); name := name; password := pw;
                    currency := c; balance := initial; closed := false |}) ∧
  (∀ bk' err, openAccount bk name pw c initial = (bk', Failure err) →
     err = ERR_PASSWORD_FORMAT ∧ (size pw = 0 ∨ size pw > 16)) ∧
  (Double.ltb initial Double.zero = true →
   ∀ typed, Client.handleOpen name typed c initial = None).
Proof.
  split_and!.
  - intros Hlen. unfold openAccount.
    replace (size pw =? 0) with false by lia.
    replace (size pw >? 16) with false by lia. simpl.
    eexists; split; [reflexivity|]. simpl. apply lookup_insert_eq.
  - intros bk' err H. apply openAccount_Failure in H. tauto.
  - intros Hneg typed. unfold Client.handleOpen. rewrite Hneg.
    repeat case_match; reflexivity.
Qed.

(** C10 at a negative amount: OPEN with password "pw" and initial
    balance [-5.0] on a fresh bank. *)
Lemma openAccount_no_lower_bound_witness :
  1 ≤ size (str "pw") ≤ 16 ∧
  Double.ltb (Double.of_Z (-5)) Double.zero = true ∧
  (∃ bk', openAccount init (str "alice") (str "pw") 0 (Double.of_Z (-5)) =
            (bk', Success (10001, Double.of_Z (-5))) ∧
          bk'.(accounts_) !! 10001 =
            Some {| accountNo := 10001; name := str "alice"; password := str "pw";
                    currency := 0; balance := Double.of_Z (-5); closed := false |}) ∧
  Client.handleOpen (str "alice") [str "pw"; str "pw"] 0 (Double.of_Z (-5)) = None.
Proof.
  assert (Hlen : 1 ≤ size (str "pw") ≤ 16) by (vm_compute; split; discriminate).
  assert (Hneg : Double.ltb (Double.of_Z (-5)) Double.zero = true) by (vm_compute; reflexivity).
  split; [exact Hlen|]. split; [exact Hneg|].
  pose proof (openAccount_no_lower_bound init (str "alice") (str "pw") 0 (Double.of_Z (-5)))
    as (Hopen & _ & Hclient).
  split; [exact (Hopen Hlen) | exact (Hclient Hneg _)].
Defined.

(** *** Closed and missing accounts *)

Lemma closed_unavailable bk n : is_closed bk n → unavailable (bk.(accounts_) !! n) = true.
Proof. intros (a & -> & Hc). exact Hc. Qed.

Lemma missing_unavailable bk n : is_missing bk n → unavailable (bk.(accounts_) !! n) = true.
Proof. unfold is_missing. intros ->. reflexivity. Qed.

Section Unavailable.

Variables (bk : t) (n : Z).
Hypothesis Hn : unavailable (bk.(accounts_) !! n) = true.

Lemma closeAccount_unavailable name pw :
  closeAccount bk name n pw = (bk, Failure ERR_NOT_FOUND).
Proof. unfold closeAccount. destruct (accounts_ bk !! n); simpl in Hn; rewrite ?Hn; done. Qed.

Lemma deposit_unavailable name pw c amount :
  deposit bk name n pw c amount = (bk, Failure ERR_NOT_FOUND).
Proof. unfold deposit. destruct (accounts_ bk !! n); simpl in Hn; rewrite ?Hn; done. Qed.

Lemma withdraw_unavailable name pw c amount :
  withdraw bk name n pw c amount = (bk, Failure ERR_NOT_FOUND).
Proof. unfold withdraw. destruct (accounts_ bk !! n); simpl in Hn; rewrite ?Hn; done. Qed.

Lemma queryBalance_unavailable name pw :
  queryBalance bk name n pw = (bk, Failure ERR_NOT_FOUND).
Proof. unfold queryBalance. destruct (accounts_ bk !! n); simpl in Hn; rewrite ?Hn; done. Qed.

Lemma transfer_from_unavailable name pw to c amount :
  n ≠ to → transfer bk name n pw to c amount = (bk, Failure ERR_NOT_FOUND).
Proof.
  intros Hne. unfold transfer. replace (n =? to) with false by lia.
  destruct (accounts_ bk !! n); simpl in Hn; rewrite ?Hn; done.
Qed.

Lemma transfer_to_unavailable name from pw c amount :
  from ≠ n → transfer bk name from pw n c amount = (bk, Failure ERR_NOT_FOUND).
Proof.
  intros Hne. unfold transfer. replace (from =? n) with false by lia.
  destruct (accounts_ bk !! from) as [a|]; [|done].
  destruct (closed a); [done|].
  destruct (accounts_ bk !! n); simpl in Hn; rewrite ?Hn; done.
Qed.

End Unavailable.

Lemma transfer_same_account bk name n pw c amount :
  transfer bk name n pw n c amount = (bk, Failure ERR_BAD_REQUEST).
Proof. unfold transfer. rewrite Z.eqb_refl. reflexivity. Qed.

(** C8, as the code has it.  Let [n] be closed in [bk1] and missing in
    [bk2].  CLOSE, DEPOSIT, WITHDRAW and QUERY_BALANCE on [n], and a
    TRANSFER between [n] and a different account number in either
    direction, give [ERR_NOT_FOUND] with no output and no state change in
    both banks.  A TRANSFER from [n] to [n] is turned down by the
    same-account guard first: [ERR_BAD_REQUEST], again the same in both
    banks, with no state change. *)
Theorem closed_indistinguishable_from_missing bk1 bk2 n :
  is_closed bk1 n → is_missing bk2 n →
  ∀ name pw c amount other,
    (closeAccount bk1 name n pw = (bk1, Failure ERR_NOT_FOUND) ∧
     closeAccount bk2 name n pw = (bk2, Failure ERR_NOT_FOUND)) ∧
    (deposit bk1 name n pw c amount = (bk1, Failure ERR_NOT_FOUND) ∧
     deposit bk2 name n pw c amount = (bk2, Failure ERR_NOT_FOUND)) ∧
    (withdraw bk1 name n pw c amount = (bk1, Failure ERR_NOT_FOUND) ∧
     withdraw bk2 name n pw c amount = (bk2, Failure ERR_NOT_FOUND)) ∧
    (queryBalance bk1 name n pw = (bk1, Failure ERR_NOT_FOUND) ∧
     queryBalance bk2 name n pw = (bk2, Failure ERR_NOT_FOUND)) ∧
    (other ≠ n →
     (transfer bk1 name n pw other c amount = (bk1, Failure ERR_NOT_FOUND) ∧
      transfer bk2 name n pw other c amount = (bk2, Failure ERR_NOT_FOUND)) ∧
     (transfer bk1 name other pw n c amount = (bk1, Failure ERR_NOT_FOUND) ∧
      transfer bk2 name other pw n c amount = (bk2, Failure ERR_NOT_FOUND))) ∧
    (transfer bk1 name n pw n c amount = (bk1, Failure ERR_BAD_REQUEST) ∧
     transfer bk2 name n pw n c amount = (bk2, Failure ERR_BAD_REQUEST)).
Proof.
  intros H1%closed_unavailable H2%missing_unavailable name pw c amount other.
  split_and!;
    auto using closeAccount_unavailable, deposit_unavailable, withdraw_unavailable,
               queryBalance_unavailable, transfer_same_account.
  intros Hne. split_and!;
    auto using transfer_from_unavailable, transfer_to_unavailable.
Qed.

(** C8 on the closed account 10001 of [one_closed] and the empty bank. *)
Lemma closed_indistinguishable_from_missing_witness :
  is_closed one_closed 10001 ∧ is_missing init 10001 ∧
  deposit one_closed (str "alice") 10001 (str "pw") 0 (Double.of_Z 1)
    = (one_closed, Failure ERR_NOT_FOUND) ∧
  deposit init (str "alice") 10001 (str "pw") 0 (Double.of_Z 1)
    = (init, Failure ERR_NOT_FOUND).
Proof.
  assert (H1 : is_closed one_closed 10001).
  { eexists. split; [vm_compute; reflexivity | reflexivity]. }
  assert (H2 : is_missing init 10001) by reflexivity.
  split; [exact H1|]. split; [exact H2|].
  pose proof (closed_indistinguishable_from_missing one_closed init 10001 H1 H2
                (str "alice") (str "pw") 0 (Double.of_Z 1) 10002) as (_ & Hd & _).
  exact Hd.
Defined.

(** C8 as worded fails: a TRANSFER whose two account numbers are the
    closed account 10001 ends in [ERR_BAD_REQUEST], not [ERR_NOT_FOUND]. *)
Lemma transfer_closed_to_itself_is_bad_request :
  is_closed one_closed 10001 ∧
  transfer one_closed (str "alice") 10001 (str "pw") 10001 0 (Double.of_Z 1)
    = (one_closed, Failure ERR_BAD_REQUEST) ∧
  (transfer one_closed (str "alice") 10001 (str "pw") 10001 0 (Double.of_Z 1)).2
    ≠ Failure ERR_NOT_FOUND.
Proof.
  split_and!.
  - eexists. split; [vm_compute; reflexivity | reflexivity].
  - reflexivity.
  - discriminate.
Qed.

(** *** TRANSFER *)

(** C6, as the code has it.  A successful TRANSFER of [amount] writes
    [from.balance - amount] and [to.balance + amount], two separately
    rounded double operations, returns these two balances, and leaves
    every other account and the allocator alone. *)
Theorem transfer_success bk name fromAccNo pw toAccNo c amount bk' fromBal toBal :
  transfer bk name fromAccNo pw toAccNo c amount = (bk', Success (fromBal, toBal)) →
  ∃ from to,
    bk.(accounts_) !! fromAccNo = Some from ∧
    bk.(accounts_) !! toAccNo = Some to ∧
    fromBal = Double.sub from.(balance) amount ∧
    toBal = Double.add to.(balance) amount ∧
    bk'.(accounts_) !! fromAccNo = Some (with_balance from fromBal) ∧
    bk'.(accounts_) !! toAccNo = Some (with_balance to toBal) ∧
    (∀ k, k ≠ fromAccNo → k ≠ toAccNo → bk'.(accounts_) !! k = bk.(accounts_) !! k) ∧
    bk'.(nextAccNo_) = bk.(nextAccNo_).
Proof.
  unfold transfer. intros H.
  destruct (fromAccNo =? toAccNo) eqn:Hne; [discriminate|].
  apply Z.eqb_neq in Hne.
  destruct (accounts_ bk !! fromAccNo) as [from|] eqn:Hfrom; [|discriminate].
  destruct (closed from); [discriminate|].
  destruct (accounts_ bk !! toAccNo) as [to|] eqn:Hto; [|discriminate].
  repeat (case_match; try discriminate).
  inversion H; subst; clear H. exists from, to. simpl.
  split_and!; try reflexivity.
  - rewrite lookup_insert_ne by congruence. apply lookup_insert_eq.
  - apply lookup_insert_eq.
  - intros k Hk1 Hk2. rewrite !lookup_insert_ne by congruence. reflexivity.
Qed.

(** C6 on [two_accounts]: one unit from account 10001 to account 10002. *)
Lemma transfer_success_witness :
  transfer two_accounts (str "alice") 10001 (str "pw") 10002 0 (Double.of_Z 1)
    = ((transfer two_accounts (str "alice") 10001 (str "pw") 10002 0 (Double.of_Z 1)).1,
       Success (Double.of_Z 2, Double.of_Z (2^53))) ∧
  ∃ from to,
    two_accounts.(accounts_) !! 10001 = Some from ∧
    two_accounts.(accounts_) !! 10002 = Some to ∧
    Double.of_Z 2 = Double.sub from.(balance) (Double.of_Z 1) ∧
    Double.of_Z (2^53) = Double.add to.(balance) (Double.of_Z 1).
Proof.
  assert (E : transfer two_accounts (str "alice") 10001 (str "pw") 10002 0 (Double.of_Z 1)
    = ((transfer two_accounts (str "alice") 10001 (str "pw") 10002 0 (Double.of_Z 1)).1,
       Success (Double.of_Z 2, Double.of_Z (2^53)))) by (vm_compute; reflexivity).
  split; [exact E|].
  destruct (transfer_success _ _ _ _ _ _ _ _ _ _ E) as (from & to & Hf & Ht & Hfb & Htb & _).
  exists from, to. split_and!; assumption.
Defined.

(** C6 as worded fails.  From 3.0 and 2^53, moving 1.0 leaves 2.0 and
    2^53 (the sum [2^53 + 1] rounds to even): the balances add up to
    [2^53 + 2] after the transfer and to [2^53 + 4] before it. *)
Lemma transfer_not_conservative :
  ∃ bk',
    transfer two_accounts (str "alice") 10001 (str "pw") 10002 0 (Double.of_Z 1)
      = (bk', Success (Double.of_Z 2, Double.of_Z (2^53))) ∧
    balance <$> two_accounts.(accounts_) !! 10001 = Some (Double.of_Z 3) ∧
    balance <$> two_accounts.(accounts_) !! 10002 = Some (Double.of_Z (2^53)) ∧
    balance <$> bk'.(accounts_) !! 10001 = Some (Double.of_Z 2) ∧
    balance <$> bk'.(accounts_) !! 10002 = Some (Double.of_Z (2^53)) ∧
    Double.add (Double.of_Z 2) (Double.of_Z (2^53)) = Double.of_Z (2^53 + 2) ∧
    Double.add (Double.of_Z 3) (Double.of_Z (2^53)) = Double.of_Z (2^53 + 4) ∧
    Double.eqb (Double.add (Double.of_Z 2) (Double.of_Z (2^53)))
               (Double.add (Double.of_Z 3) (Double.of_Z (2^53))) = false.
Proof.
  eexists. split_and!; [vm_compute; reflexivity | vm_compute; reflexivity..].
Qed.

(** Where the subtraction is invalid the balance is a NaN: moving
    [+inf] out of an account that holds [+inf] passes both guards
    ([inf > 0], and [inf < inf] is false), leaves the source with
    [inf - inf], the default NaN, and the destination with [+inf].  A
    NaN balance stays the NaN it is, payload and sign, under later
    deposits. *)
Lemma transfer_of_infinity :
  (transfer infinite_accounts (str "alice") 10001 (str "pw") 10002 0 infinity).2
    = Success (Double.default_nan, infinity) ∧
  Double.default_nan = 0xFFF8000000000000 ∧
  Double.add 0xFFF8000000000123 (Double.of_Z 1) = 0xFFF8000000000123 ∧
  Double.add 0x7FF0000000000001 (Double.of_Z 1) = 0x7FF8000000000001.
Proof. split_and!; vm_compute; reflexivity. Qed.

End BankFacts.

(** * The wire codec *)

Module CodecFacts.
Import proto.

(** *** Bytes and big-endian numbers *)

Lemma land_255 v : Z.land v 0xFF = v mod 256.
Proof. change 0xFF with (Z.ones 8). rewrite Z.land_ones by lia. reflexivity. Qed.

Lemma byte_of_shiftr v k : 0 ≤ k → Z.land (Z.shiftr v k) 0xFF = (v / 2 ^ k) mod 256.
Proof. intros. rewrite land_255, Z.shiftr_div_pow2 by lia. reflexivity. Qed.

Lemma byte_bound x : 0 ≤ x mod 256 < 256.
Proof. apply Z.mod_pos_bound. lia. Qed.

Lemma lor_shiftl_add hi lo n :
  0 ≤ n → 0 ≤ lo < 2 ^ n → Z.lor (Z.shiftl hi n) lo = hi * 2 ^ n + lo.
Proof.
  intros Hn Hlo.
  rewrite <- Z.lxor_lor, <- Z.add_nocarry_lxor, Z.shiftl_mul_pow2; try lia.
  all: apply Z.bits_inj'; intros k Hk; rewrite Z.land_spec, Z.bits_0.
  all: destruct (Z.lt_ge_cases k n) as [Hlt|Hge].
  all: try (rewrite Z.shiftl_spec_low by lia; reflexivity).
  all: rewrite <- (Z.mod_small lo (2 ^ n)) by lia.
  all: rewrite Z.mod_pow2_bits_high by lia; apply andb_false_r.
Qed.

(** Appending one byte to a big-endian number. *)
Lemma lor_byte out b : 0 ≤ b < 256 → Z.lor (Z.shiftl out 8) b = out * 256 + b.
Proof. intros. rewrite lor_shiftl_add by lia. reflexivity. Qed.

Lemma rd16_bytes b0 b1 :
  0 ≤ b0 < 256 → 0 ≤ b1 < 256 →
  u16 (Z.lor (Z.shiftl b0 8) b1) = b0 * 256 + b1.
Proof. intros. rewrite lor_byte by lia. apply Z.mod_small. lia. Qed.

Lemma rd32_bytes b0 b1 b2 b3 :
  0 ≤ b0 < 256 → 0 ≤ b1 < 256 → 0 ≤ b2 < 256 → 0 ≤ b3 < 256 →
  u32 (Z.lor (Z.lor (Z.lor (Z.shiftl b0 24) (Z.shiftl b1 16)) (Z.shiftl b2 8)) b3)
  = ((b0 * 256 + b1) * 256 + b2) * 256 + b3.
Proof.
  intros.
  replace (Z.shiftl b0 24) with (Z.shiftl (Z.shiftl (Z.shiftl b0 8) 8) 8)
    by (rewrite !Z.shiftl_shiftl by lia; reflexivity).
  replace (Z.shiftl b1 16) with (Z.shiftl (Z.shiftl b1 8) 8)
    by (rewrite !Z.shiftl_shiftl by lia; reflexivity).
  rewrite <- !Z.shiftl_lor, !lor_byte by lia.
  apply Z.mod_small. lia.
Qed.

Lemma rd64_step out b :
  0 ≤ out < 2^56 → 0 ≤ b < 256 → u64 (Z.lor (Z.shiftl out 8) b) = out * 256 + b.
Proof. intros. rewrite lor_byte by lia. apply Z.mod_small. lia. Qed.

Lemma rd64_bytes b0 b1 b2 b3 b4 b5 b6 b7 :
  0 ≤ b0 < 256 → 0 ≤ b1 < 256 → 0 ≤ b2 < 256 → 0 ≤ b3 < 256 →
  0 ≤ b4 < 256 → 0 ≤ b5 < 256 → 0 ≤ b6 < 256 → 0 ≤ b7 < 256 →
  foldl (λ out b, u64 (Z.lor (Z.shiftl out 8) b)) 0 [b0; b1; b2; b3; b4; b5; b6; b7]
  = (((((((b0 * 256 + b1) * 256 + b2) * 256 + b3) * 256 + b4) * 256 + b5) * 256 + b6)
       * 256 + b7).
Proof.
  intros. cbn [foldl].
  repeat match goal with
         | |- context [u64 (Z.lor (Z.shiftl ?o 8) ?b)] =>
             lazymatch o with
             | context [u64] => fail
             | _ => rewrite (rd64_step o b) by lia
             end
         end.
  lia.
Qed.

(** Quotients by powers of two as chains of quotients by 256. *)
Ltac as_quotients v :=
  replace (v / 2^8) with (v / 256) by reflexivity;
  replace (v / 2^16) with (v / 256 / 256) by (rewrite !Z.div_div by lia; reflexivity);
  replace (v / 2^24) with (v / 256 / 256 / 256) by (rewrite !Z.div_div by lia; reflexivity);
  replace (v / 2^32) with (v / 256 / 256 / 256 / 256)
    by (rewrite !Z.div_div by lia; reflexivity);
  replace (v / 2^40) with (v / 256 / 256 / 256 / 256 / 256)
    by (rewrite !Z.div_div by lia; reflexivity);
  replace (v / 2^48) with (v / 256 / 256 / 256 / 256 / 256 / 256)
    by (rewrite !Z.div_div by lia; reflexivity);
  replace (v / 2^56) with (v / 256 / 256 / 256 / 256 / 256 / 256 / 256)
    by (rewrite !Z.div_div by lia; reflexivity).

Lemma be16_inv v : 0 ≤ v < 2^16 →
  u16 (Z.lor (Z.shiftl (Z.land (Z.shiftr v 8) 0xFF) 8) (Z.land v 0xFF)) = v.
Proof.
  intros Hv. rewrite byte_of_shiftr, land_255 by lia.
  rewrite rd16_bytes by apply byte_bound.
  Z.div_mod_to_equations. lia.
Qed.

Lemma be32_inv v : 0 ≤ v < 2^32 →
  u32 (Z.lor (Z.lor (Z.lor (Z.shiftl (Z.land (Z.shiftr v 24) 0xFF) 24)
                           (Z.shiftl (Z.land (Z.shiftr v 16) 0xFF) 16))
                    (Z.shiftl (Z.land (Z.shiftr v 8) 0xFF) 8))
             (Z.land v 0xFF)) = v.
Proof.
  intros Hv. rewrite !byte_of_shiftr, land_255 by lia.
  rewrite rd32_bytes by apply byte_bound.
  as_quotients v.
  Z.div_mod_to_equations. lia.
Qed.

Lemma be64_inv v : 0 ≤ v < 2^64 →
  foldl (λ out b, u64 (Z.lor (Z.shiftl out 8) b)) 0 (putBE64 v) = v.
Proof.
  intros Hv. unfold putBE64.
  change (seqZ 0 8) with [0; 1; 2; 3; 4; 5; 6; 7]. cbn [fmap list_fmap].
  rewrite !byte_of_shiftr by lia.
  rewrite rd64_bytes by apply byte_bound.
  cbn [Z.mul Z.sub Z.add Z.opp Z.pos_sub Pos.mul Pos.add Pos.succ Pos.pred_double].
  as_quotients v. rewrite Z.pow_0_r, Z.div_1_r.
  Z.div_mod_to_equations. lia.
Qed.

(** *** [decode] in closed form *)

Lemma size_add_small a b : 0 ≤ a + b < 2^64 → size_add a b = a + b.
Proof. intros. unfold size_add, u64. apply Z.mod_small. lia. Qed.

Lemma getBE16_eq b off : 0 ≤ off → off + 2 < 2^64 →
  getBE16 b off = if off + 2 >? size b then None else Some (rd16 b off, off + 2).
Proof. intros. unfold getBE16, rd16. rewrite size_add_small by lia. reflexivity. Qed.

Lemma getBE32_eq b off : 0 ≤ off → off + 4 < 2^64 →
  getBE32 b off = if off + 4 >? size b then None else Some (rd32 b off, off + 4).
Proof. intros. unfold getBE32, rd32. rewrite size_add_small by lia. reflexivity. Qed.

Lemma getBE64_eq b off : 0 ≤ off → off + 8 < 2^64 →
  getBE64 b off = if off + 8 >? size b then None else Some (rd64 b off, off + 8).
Proof. intros. unfold getBE64, rd64. rewrite size_add_small by lia. reflexivity. Qed.

Lemma rd32_range b off : 0 ≤ rd32 b off < 2^32.
Proof. unfold rd32, u32. apply Z.mod_pos_bound. lia. Qed.

Ltac too_short raw := replace (size raw <? 24) with true by lia; reflexivity.

Lemma decode_spec raw :
  decode raw =
    if size raw <? 24 then None
    else if negb (rd32 raw 0 =? MAGIC) then None
    else if size raw - 24 <? rd32 raw 20 then None
    else Some (decoded raw).
Proof.
  unfold decode, getU32, getU16, getU64.
  rewrite getBE32_eq by lia. change (0 + 4) with 4.
  destruct (4 >? size raw) eqn:E4; simpl; [too_short raw|].
  destruct (rd32 raw 0 =? MAGIC) eqn:Em; simpl; [|destruct (size raw <? 24); reflexivity].
  change (size_add 4 2) with 6. change (size_add 4 1) with 5.
  change (size_add 5 1) with 6.
  destruct (6 >? size raw) eqn:E6; [too_short raw|].
  rewrite getBE16_eq by lia. change (6 + 2) with 8.
  destruct (8 >? size raw) eqn:E8; simpl; [too_short raw|].
  rewrite getBE16_eq by lia. change (8 + 2) with 10.
  destruct (10 >? size raw) eqn:E10; simpl; [too_short raw|].
  rewrite getBE16_eq by lia. change (10 + 2) with 12.
  destruct (12 >? size raw) eqn:E12; simpl; [too_short raw|].
  rewrite getBE64_eq by lia. change (12 + 8) with 20.
  destruct (20 >? size raw) eqn:E20; simpl; [too_short raw|].
  rewrite getBE32_eq by lia. change (20 + 4) with 24.
  destruct (24 >? size raw) eqn:E24; simpl; [too_short raw|].
  replace (size raw <? 24) with false by lia.
  pose proof (rd32_range raw 20).
  rewrite size_add_small by lia.
  destruct (24 + rd32 raw 20 >? size raw) eqn:Eb.
  - replace (size raw - 24 <? rd32 raw 20) with true by lia. reflexivity.
  - replace (size raw - 24 <? rd32 raw 20) with false by lia. reflexivity.
Qed.


(** *** Reading back what was written *)

Lemma at8_lookup (l : bytes) i x : l !! Z.to_nat i = Some x → at8 l i = x.
Proof. unfold at8. apply list_lookup_total_correct. Qed.

Lemma at8_app_mid (pre l rest : bytes) (off i : Z) x :
  off = size pre → 0 ≤ i → l !! Z.to_nat i = Some x →
  at8 (pre ++ l ++ rest) (off + i) = x.
Proof.
  intros -> Hi Hl. apply at8_lookup. unfold size.
  rewrite Z2Nat.inj_add, Nat2Z.id by lia.
  rewrite lookup_app_r by lia.
  replace (length pre + Z.to_nat i - length pre)%nat with (Z.to_nat i) by lia.
  apply lookup_app_l_Some. exact Hl.
Qed.

Lemma rd16_put pre v rest off :
  off = size pre → 0 ≤ v < 2^16 → rd16 (pre ++ putBE16 v ++ rest) off = v.
Proof.
  intros Hoff Hv. unfold rd16. rewrite <- (Z.add_0_r off) at 1.
  rewrite (at8_app_mid pre (putBE16 v) rest off 0 _ Hoff (Z.le_refl 0) eq_refl).
  rewrite (at8_app_mid pre (putBE16 v) rest off 1 _ Hoff ltac:(lia) eq_refl).
  apply be16_inv, Hv.
Qed.

Lemma rd32_put pre v rest off :
  off = size pre → 0 ≤ v < 2^32 → rd32 (pre ++ putBE32 v ++ rest) off = v.
Proof.
  intros Hoff Hv. unfold rd32. rewrite <- (Z.add_0_r off) at 1.
  rewrite (at8_app_mid pre (putBE32 v) rest off 0 _ Hoff (Z.le_refl 0) eq_refl).
  rewrite (at8_app_mid pre (putBE32 v) rest off 1 _ Hoff ltac:(lia) eq_refl).
  rewrite (at8_app_mid pre (putBE32 v) rest off 2 _ Hoff ltac:(lia) eq_refl).
  rewrite (at8_app_mid pre (putBE32 v) rest off 3 _ Hoff ltac:(lia) eq_refl).
  apply be32_inv, Hv.
Qed.

Lemma rd64_put pre v rest off :
  off = size pre → 0 ≤ v < 2^64 → rd64 (pre ++ putBE64 v ++ rest) off = v.
Proof.
  intros Hoff Hv. rewrite <- (be64_inv v Hv) at 2.
  unfold rd64.
  change (seqZ 0 8) with [0; 1; 2; 3; 4; 5; 6; 7].
  assert (Hb : ∀ i, 0 ≤ i < 8 →
            at8 (pre ++ putBE64 v ++ rest) (off + i) = putBE64 v !!! Z.to_nat i).
  { intros i Hi. apply at8_app_mid; [exact Hoff|lia|].
    apply list_lookup_lookup_total_lt.
    change (length (putBE64 v)) with 8%nat. lia. }
  cbn [foldl]. rewrite !Hb by lia.
  unfold putBE64. change (seqZ 0 8) with [0; 1; 2; 3; 4; 5; 6; 7].
  cbn [fmap list_fmap foldl]. 
  reflexivity.
Qed.

Lemma encode_app mg ver ty op fl st rid bl bd extra :
  encode {| h := {| magic := mg; version := ver; msgType := ty; opCode := op;
                    flags := fl; status := st; requestId := rid; bodyLen := bl |};
            body := bd |} ++ extra
  = putBE32 mg ++ [ver; ty] ++ putBE16 op ++ putBE16 fl ++ putBE16 st
      ++ putBE64 rid ++ putBE32 bl ++ (bd ++ extra).
Proof.
  unfold encode, putU32, putU16, putU64.
  cbn [h body magic version msgType opCode flags status requestId bodyLen].
  rewrite <- !app_assoc. reflexivity.
Qed.

Section Header.
Variables (mg ver ty op fl st rid bl : Z) (rest : bytes).
Let raw := putBE32 mg ++ [ver; ty] ++ putBE16 op ++ putBE16 fl ++ putBE16 st
             ++ putBE64 rid ++ putBE32 bl ++ rest.

Lemma header_size : size raw = 24 + size rest.
Proof. unfold size, raw. rewrite !length_app. cbn [length putBE32 putBE16].
  change (length (putBE64 rid)) with 8%nat. lia. Qed.

Lemma header_magic : 0 ≤ mg < 2^32 → rd32 raw 0 = mg.
Proof. intros H. apply (rd32_put [] mg); [reflexivity|exact H]. Qed.

Lemma header_version : at8 raw 4 = ver.
Proof. apply at8_lookup. reflexivity. Qed.

Lemma header_msgType : at8 raw 5 = ty.
Proof. apply at8_lookup. reflexivity. Qed.

Lemma header_opCode : 0 ≤ op < 2^16 → rd16 raw 6 = op.
Proof.
  unfold raw. rewrite app_assoc. intros H; apply rd16_put; [reflexivity|exact H].
Qed.

Lemma header_flags : 0 ≤ fl < 2^16 → rd16 raw 8 = fl.
Proof.
  unfold raw. rewrite 2 app_assoc. intros H; apply rd16_put; [reflexivity|exact H].
Qed.

Lemma header_status : 0 ≤ st < 2^16 → rd16 raw 10 = st.
Proof.
  unfold raw. rewrite 3 app_assoc. intros H; apply rd16_put; [reflexivity|exact H].
Qed.

Lemma header_requestId : 0 ≤ rid < 2^64 → rd64 raw 12 = rid.
Proof.
  unfold raw. rewrite 4 app_assoc. intros H; apply rd64_put; [reflexivity|exact H].
Qed.

Lemma header_bodyLen : 0 ≤ bl < 2^32 → rd32 raw 20 = bl.
Proof.
  unfold raw. rewrite 5 app_assoc. intros H; apply rd32_put; [reflexivity|exact H].
Qed.

Lemma header_drop : drop 24 raw = rest.
Proof.
  unfold raw. rewrite 6 app_assoc. apply drop_app_length'. reflexivity.
Qed.

End Header.

Lemma decode_encode_app m extra :
  well_formed m → m.(h).(magic) = MAGIC → decode (encode m ++ extra) = Some m.
Proof.
  destruct m as [[mg ver ty op fl st rid bl] bd].
  unfold well_formed, header_in_range.
  cbn [h body magic version msgType opCode flags status requestId bodyLen].
  intros ((Hmg & Hver & Hty & Hop & Hfl & Hst & Hrid & Hbl) & Hlen) Hmagic.
  rewrite decode_spec, encode_app. unfold decoded.
  rewrite header_size, header_magic, header_version, header_msgType, header_opCode,
    header_flags, header_status, header_requestId, header_bodyLen, header_drop
    by assumption.
  replace (24 + size (bd ++ extra) <? 24)
    with false by (symmetry; apply Z.ltb_ge; unfold size; lia).
  replace (mg =? MAGIC) with true by lia.
  replace (24 + size (bd ++ extra) - 24 <? bl)
    with false by (symmetry; apply Z.ltb_ge; unfold size in *; rewrite length_app; lia).
  rewrite Hlen. unfold size. rewrite Nat2Z.id, take_app_length. reflexivity.
Qed.

(** *** Buffers that differ outside the inspected header bytes *)

Section SameHeader.

Variables raw raw' : bytes.
Hypothesis Hsame : same_header raw raw'.

Lemma same_rd16 off : 0 ≤ off → off + 2 ≤ 24 → off ≠ 4 → off ≠ 3 →
  rd16 raw' off = rd16 raw off.
Proof. intros. unfold rd16. rewrite !Hsame by lia. reflexivity. Qed.

Lemma same_rd32 off : 0 ≤ off → off + 4 ≤ 24 → 4 ≤ off ∨ off = 0 → off ≠ 4 →
  rd32 raw' off = rd32 raw off.
Proof. intros. unfold rd32. rewrite !Hsame by lia. reflexivity. Qed.

Lemma same_rd64 off : 5 ≤ off → off + 8 ≤ 24 → rd64 raw' off = rd64 raw off.
Proof.
  intros. unfold rd64. change (seqZ 0 8) with [0; 1; 2; 3; 4; 5; 6; 7].
  cbn [foldl]. rewrite !Hsame by lia. reflexivity.
Qed.

Lemma decode_same_header m :
  decode raw = Some m → size raw ≤ size raw' →
  take (Z.to_nat (rd32 raw 20)) (drop 24 raw') = take (Z.to_nat (rd32 raw 20)) (drop 24 raw) →
  decode raw' = Some (with_version m (at8 raw' 4)).
Proof.
  rewrite !decode_spec. intros Hdec Hsize Hbody.
  rewrite same_rd32, (same_rd32 20) by lia.
  destruct (size raw <? 24) eqn:E1; [discriminate|].
  destruct (negb (rd32 raw 0 =? MAGIC)); [discriminate|].
  destruct (size raw - 24 <? rd32 raw 20) eqn:E2; [discriminate|].
  replace (size raw' <? 24) with false by lia.
  replace (size raw' - 24 <? rd32 raw 20) with false by lia.
  inversion Hdec; subst m; clear Hdec.
  unfold decoded, with_version. cbn [h body magic msgType opCode flags status requestId bodyLen].
  rewrite same_rd32, (same_rd32 20), !same_rd16, same_rd64, Hbody, (Hsame 5) by lia.
  reflexivity.
Qed.

End SameHeader.

Lemma with_version_id m : with_version m m.(h).(version) = m.
Proof. destruct m as [[] ?]. reflexivity. Qed.

Lemma decode_size raw m : decode raw = Some m → 24 + m.(h).(bodyLen) ≤ size raw.
Proof.
  rewrite decode_spec. repeat case_match; try discriminate.
  intros [= <-]. cbn. lia.
Qed.

Lemma decode_bodyLen raw m : decode raw = Some m → m.(h).(bodyLen) = rd32 raw 20.
Proof.
  rewrite decode_spec. repeat case_match; try discriminate.
  intros [= <-]. reflexivity.
Qed.

Lemma decode_version raw m : decode raw = Some m → m.(h).(version) = at8 raw 4.
Proof.
  rewrite decode_spec. repeat case_match; try discriminate.
  intros [= <-]. reflexivity.
Qed.

Lemma decode_trailing raw extra m :
  decode raw = Some m → decode (raw ++ extra) = Some m.
Proof.
  intros Hdec. pose proof (decode_size _ _ Hdec) as Hsz.
  pose proof (decode_bodyLen _ _ Hdec) as Hbl. pose proof (rd32_range raw 20) as Hr.
  assert (Hat : ∀ i, 0 ≤ i < size raw → at8 (raw ++ extra) i = at8 raw i).
  { intros i Hi. unfold at8. apply lookup_total_app_l. unfold size in Hi. lia. }
  rewrite <- (with_version_id m), (decode_version _ _ Hdec), <- (Hat 4) by lia.
  apply (decode_same_header raw); [|exact Hdec|..].
  - intros i Hi _. apply Hat. lia.
  - unfold size. rewrite length_app. lia.
  - unfold size in Hsz. rewrite drop_app_le, take_app_le by (rewrite ?length_drop; lia).
    reflexivity.
Qed.

Lemma decode_any_version raw m v :
  decode raw = Some m → decode (<[4%nat := v]> raw) = Some (with_version m v).
Proof.
  intros Hdec. pose proof (decode_size _ _ Hdec) as Hsz.
  pose proof (decode_bodyLen _ _ Hdec) as Hbl. pose proof (rd32_range raw 20) as Hr.
  assert (Hv : at8 (<[4%nat := v]> raw) 4 = v).
  { unfold at8. apply list_lookup_total_insert_eq. unfold size in Hsz. lia. }
  rewrite <- Hv at 2.
  apply (decode_same_header raw); [|exact Hdec|..].
  - intros i Hi Hne. unfold at8. apply list_lookup_total_insert_ne. lia.
  - unfold size. rewrite length_insert. lia.
  - rewrite drop_insert_lt by lia. reflexivity.
Qed.



Lemma decode_opCode_range raw m : decode raw = Some m → 0 ≤ m.(h).(opCode) < 2^16.
Proof.
  rewrite decode_spec. repeat case_match; try discriminate.
  intros [= <-]. cbn. unfold rd16, u16. apply Z.mod_pos_bound. lia.
Qed.

(** *** The claims about the codec *)

(** C9.  A string longer than 65535 bytes leaves the buffer as it was:
    [putString] writes neither the length prefix nor any payload byte,
    and it has no way to tell its caller. *)
Theorem putString_too_long (b s : bytes) : size s > 65535 → putString b s = b.
Proof. intros H. unfold putString. replace (size s >? 65535) with true by lia. reflexivity. Qed.

(** C9 on a string of 65536 zero bytes. *)
Lemma putString_too_long_witness :
  size (replicate (Z.to_nat 65536) 0) > 65535 ∧
  putString [1; 2; 3] (replicate (Z.to_nat 65536) 0) = [1; 2; 3].
Proof.
  assert (H : size (replicate (Z.to_nat 65536) 0) > 65535) by (vm_compute; reflexivity).
  split; [exact H | exact (putString_too_long [1; 2; 3] _ H)].
Defined.

(** C3, as the code has it.  [putDouble] appends the eight bytes of the
    bit pattern of [v] most significant byte first: the memory order of a
    big-endian host, and the reverse of the memory order of a
    little-endian host (the bytes are swapped there). *)
Theorem putDouble_big_endian (b : bytes) (v : double) :
  putDouble b v = b ++ memory_bytes BigEndian v ∧
  putDouble b v = b ++ reverse (memory_bytes LittleEndian v).
Proof.
  unfold putDouble, putU64, putBE64, memory_bytes.
  change (seqZ 0 8) with [0; 1; 2; 3; 4; 5; 6; 7].
  cbn [fmap list_fmap]. rewrite !byte_of_shiftr by lia.
  split; reflexivity.
Qed.

(** C3 as worded fails on a little-endian host: [1.0] lies in memory as
    [00 00 00 00 00 00 F0 3F] and goes on the wire as
    [3F F0 00 00 00 00 00 00]. *)
Lemma putDouble_not_memory_order :
  Double.of_Z 1 = 0x3FF0000000000000 ∧
  memory_bytes LittleEndian (Double.of_Z 1) = [0; 0; 0; 0; 0; 0; 0xF0; 0x3F] ∧
  putDouble [] (Double.of_Z 1) = [0x3F; 0xF0; 0; 0; 0; 0; 0; 0] ∧
  putDouble [] (Double.of_Z 1) ≠ [] ++ memory_bytes LittleEndian (Double.of_Z 1).
Proof. split_and!; [vm_compute; reflexivity..|vm_compute; discriminate]. Qed.

(** C5, as the code has it.  For every message whose [bodyLen] is the
    length of its body and whose magic is [MAGIC], [decode (encode m)]
    succeeds and returns [m] itself. *)
Theorem decode_encode m :
  well_formed m → m.(h).(magic) = MAGIC → decode (encode m) = Some m.
Proof.
  intros Hwf Hmagic. rewrite <- (app_nil_r (encode m)).
  apply decode_encode_app; assumption.
Qed.

(** C5 on a DEPOSIT-shaped request with a two-byte body. *)
Lemma decode_encode_witness :
  let m := {| h := {| magic := MAGIC; version := 1; msgType := 1; opCode := 3;
                      flags := 1; status := 0; requestId := 77; bodyLen := 2 |};
              body := [5; 6] |} in
  well_formed m ∧ m.(h).(magic) = MAGIC ∧ decode (encode m) = Some m.
Proof.
  intros m.
  assert (Hwf : well_formed m).
  { unfold well_formed, header_in_range, m, MAGIC. cbn. split; [lia|reflexivity]. }
  split; [exact Hwf|]. split; [reflexivity|].
  exact (decode_encode m Hwf eq_refl).
Defined.

(** C5 as worded fails: the default-constructed message has
    [bodyLen = 0 = len(body)] and magic 0, and its encoding is rejected. *)
Lemma decode_encode_zero_message :
  well_formed zero_message ∧ decode (encode zero_message) = None.
Proof.
  split; [|vm_compute; reflexivity].
  unfold well_formed, header_in_range, zero_message. cbn. split; [lia|reflexivity].
Qed.

(** C4, as the code has it.  [decode] rejects a buffer exactly when it is
    shorter than the 24-byte header, or its magic is not [MAGIC], or
    fewer than [bodyLen] bytes follow the header.  Bytes after the
    declared body are ignored.  The version byte is not looked at: an
    accepted buffer stays accepted under any version byte, which comes
    back in the message; it is the server's loop that drops a decoded
    message whose version is not 1, without reply. *)
Theorem decode_rejects_iff (raw : bytes) :
  (decode raw = None ↔
     size raw < HEADER_SIZE ∨ rd32 raw 0 ≠ MAGIC ∨ size raw - HEADER_SIZE < rd32 raw 20) ∧
  (∀ m extra, decode raw = Some m → decode (raw ++ extra) = Some m) ∧
  (∀ m v, decode raw = Some m → decode (<[4%nat := v]> raw) = Some (with_version m v)) ∧
  (∀ m to_string s i clientAddr,
     i.(Server.recvfrom) = Some (clientAddr, raw) → size raw ≤ 2048 →
     decode raw = Some m → m.(h).(version) ≠ VERSION →
     Server.iteration to_string s i = (Server.cleanup s i.(Server.now_top), [])).
Proof.
  split_and!.
  - rewrite decode_spec. unfold HEADER_SIZE.
    destruct (size raw <? 24) eqn:E1; [split; [intros _; left; lia|reflexivity]|].
    destruct (rd32 raw 0 =? MAGIC) eqn:E2; cbn [negb];
      [|split; [intros _; right; left; lia|reflexivity]].
    destruct (size raw - 24 <? rd32 raw 20) eqn:E3;
      [split; [intros _; right; right; lia|reflexivity]|].
    split; [discriminate|]. intros [H|[H|H]]; lia.
  - intros m extra. apply decode_trailing.
  - intros m v. apply decode_any_version.
  - intros m to_string s i clientAddr Hrecv Hsize Hdec Hver.
    unfold Server.iteration. rewrite Hrecv.
    rewrite take_ge by (unfold size in Hsize; lia). rewrite Hdec.
    destruct (Server.lossReq_hit i); [reflexivity|].
    replace (version (h m) =? VERSION) with false by lia. reflexivity.
Qed.

(** C4 on [version2_datagram]: accepted, with or without a trailing byte,
    and dropped by the server's loop. *)
Lemma decode_rejects_iff_witness :
  let i := {| Server.now_top := 0;
              Server.recvfrom := Some ({| Server.s_b1 := 127; Server.s_b2 := 0;
                                          Server.s_b3 := 0; Server.s_b4 := 1;
                                          Server.port := 5000 |}, version2_datagram);
              Server.lossReq_hit := false; Server.lossRep_hit := false;
              Server.now_op := 0; Server.now_ins := 0 |} in
  decode version2_datagram = Some (decoded version2_datagram) ∧
  decode (version2_datagram ++ [9]) = Some (decoded version2_datagram) ∧
  Server.iteration (λ _, []) Server.initial i = (Server.cleanup Server.initial 0, []).
Proof.
  intros i.
  assert (Hdec : decode version2_datagram = Some (decoded version2_datagram))
    by (vm_compute; reflexivity).
  pose proof (decode_rejects_iff version2_datagram) as (_ & Htrail & _ & Hsrv).
  split; [exact Hdec|]. split; [exact (Htrail _ [9] Hdec)|].
  apply (Hsrv (decoded version2_datagram) (λ _, []) Server.initial i _ eq_refl).
  - vm_compute. discriminate.
  - exact Hdec.
  - vm_compute. discriminate.
Defined.

(** C4 as worded fails: [version2_datagram] is well formed but for its
    version byte 2, and [decode] accepts it. *)
Lemma decode_accepts_version_2 :
  at8 version2_datagram 4 = 2 ∧ 2 ≠ VERSION ∧
  decode version2_datagram =
    Some {| h := {| magic := MAGIC; version := 2; msgType := 1; opCode := 6;
                    flags := 0; status := 0; requestId := 7; bodyLen := 0 |};
            body := [] |}.
Proof. split_and!; [reflexivity | discriminate | vm_compute; reflexivity]. Qed.

End CodecFacts.

(** * The server's dispatcher *)

Module ServerFacts.
Import proto Server.

(** Walk through the "handle ops" chain, reading each [Bank] call off its
    equation. *)
Ltac handle_cases :=
  unfold handle, bad_request;
  repeat case_match; subst; cbn [h_bank h_monitors h_status h_body h_events];
  repeat match goal with
         | H : Bank.openAccount _ _ _ _ _ = (_, Bank.Failure _) |- _ =>
             apply BankFacts.openAccount_Failure in H; destruct H as (-> & -> & _)
         | H : Bank.closeAccount _ _ _ _ = (_, Bank.Failure _) |- _ =>
             apply BankFacts.closeAccount_Failure in H; destruct H as (-> & ?)
         | H : Bank.deposit _ _ _ _ _ _ = (_, Bank.Failure _) |- _ =>
             apply BankFacts.deposit_Failure in H; destruct H as (-> & ?)
         | H : Bank.withdraw _ _ _ _ _ _ = (_, Bank.Failure _) |- _ =>
             apply BankFacts.withdraw_Failure in H; destruct H as (-> & ?)
         | H : Bank.transfer _ _ _ _ _ _ _ = (_, Bank.Failure _) |- _ =>
             apply BankFacts.transfer_Failure in H; destruct H as (-> & ?)
         | H : Bank.queryBalance _ _ _ _ = (_, Bank.Failure _) |- _ =>
             apply BankFacts.queryBalance_Failure in H; destruct H as (-> & ?)
         end.

(** C7.  A [Bank] method that returns [false] reports a status other than
    OK and leaves the bank as it was: every account record and the
    allocator alike.  When the reply to a request carries a status other
    than OK (a body that does not parse, an unknown opcode, or such a
    method), the bank after the request is the bank before it, the reply
    body is empty, no monitor was added and no callback was sent. *)
Theorem failed_operation_changes_nothing to_string bk mons clientAddr req now_op :
  (∀ name pw c initial bk' err,
     Bank.openAccount bk name pw c initial = (bk', Bank.Failure err) →
     bk' = bk ∧ err ≠ OK) ∧
  (∀ name accNo pw bk' err,
     Bank.closeAccount bk name accNo pw = (bk', Bank.Failure err) →
     bk' = bk ∧ err ≠ OK) ∧
  (∀ name accNo pw c amount bk' err,
     Bank.deposit bk name accNo pw c amount = (bk', Bank.Failure err) →
     bk' = bk ∧ err ≠ OK) ∧
  (∀ name accNo pw c amount bk' err,
     Bank.withdraw bk name accNo pw c amount = (bk', Bank.Failure err) →
     bk' = bk ∧ err ≠ OK) ∧
  (∀ name fromAccNo pw toAccNo c amount bk' err,
     Bank.transfer bk name fromAccNo pw toAccNo c amount = (bk', Bank.Failure err) →
     bk' = bk ∧ err ≠ OK) ∧
  (∀ name accNo pw bk' err,
     Bank.queryBalance bk name accNo pw = (bk', Bank.Failure err) →
     bk' = bk ∧ err ≠ OK) ∧
  (let r := handle to_string bk mons clientAddr req now_op in
   r.(h_status) ≠ Status_code OK →
   r.(h_bank) = bk ∧ r.(h_body) = [] ∧ r.(h_monitors) = mons ∧
   (∀ e, e ∈ r.(h_events) → ∃ op, e = BankCall op)).
Proof.
  split_and!.
  - intros * H. apply BankFacts.openAccount_Failure in H as (-> & -> & _). done.
  - intros *. apply BankFacts.closeAccount_Failure.
  - intros *. apply BankFacts.deposit_Failure.
  - intros *. apply BankFacts.withdraw_Failure.
  - intros *. apply BankFacts.transfer_Failure.
  - intros *. apply BankFacts.queryBalance_Failure.
  - intros r. subst r. handle_cases; intros Hst;
      try (exfalso; apply Hst; reflexivity);
      (split_and!; [reflexivity..|]);
      intros e He;
      first [ apply elem_of_nil in He; contradiction
            | apply list_elem_of_singleton in He; eauto ].
Qed.

(** C7 on scenario 3: the SGD deposit into the CNY account is answered
    with [ERR_CURRENCY], an empty body and the same bank. *)
Lemma failed_operation_changes_nothing_witness :
  let req := request DEPOSIT 0 1 (deposit_body 10001 1 (Double.of_Z 50)) in
  let r := handle (λ _, []) alice_bank [] (localhost 5000) req 0 in
  r.(h_status) = Status_code ERR_CURRENCY ∧
  r.(h_bank) = alice_bank ∧ r.(h_body) = [].
Proof.
  intros req r.
  assert (Hst : r.(h_status) = Status_code ERR_CURRENCY) by (vm_compute; reflexivity).
  split; [exact Hst|].
  destruct (failed_operation_changes_nothing (λ _, []) alice_bank [] (localhost 5000) req 0)
    as (_ & _ & _ & _ & _ & _ & Hr).
  destruct Hr as (Hb & Hbody & _).
  - fold r. rewrite Hst. discriminate.
  - split; [exact Hb | exact Hbody].
Defined.

(** *** What the "handle ops" chain emits *)

Lemma replies_app evs1 evs2 : replies (evs1 ++ evs2) = replies evs1 ++ replies evs2.
Proof. apply omap_app. Qed.

Lemma invocations_app evs1 evs2 :
  invocations (evs1 ++ evs2) = invocations evs1 ++ invocations evs2.
Proof. apply omap_app. Qed.

Lemma callbacks_replies mons op accNo cur bal info :
  replies (sendUpdateCallback mons op accNo cur bal info) = [].
Proof. unfold sendUpdateCallback. induction mons; [reflexivity | exact IHmons]. Qed.


Lemma handle_replies to_string bk mons clientAddr req now_op :
  replies (handle to_string bk mons clientAddr req now_op).(h_events) = [].
Proof.
  unfold handle, bad_request.
  repeat case_match; cbn [h_events replies omap list_omap];
    rewrite ?replies_app, ?callbacks_replies; reflexivity.
Qed.


Lemma Status_code_range err : 0 ≤ Status_code err < 2^16.
Proof. destruct err; cbn; lia. Qed.

Lemma handle_status_range to_string bk mons clientAddr req now_op :
  0 ≤ (handle to_string bk mons clientAddr req now_op).(h_status) < 2^16.
Proof.
  unfold handle, bad_request.
  repeat case_match; cbn [h_status]; apply Status_code_range.
Qed.


(** *** One iteration on a resend *)


Section Resend.

Variable to_string : double → bytes.
Variables (peer : sockaddr_in) (rid : Z).







End Resend.


(** *** At most once *)





End ServerFacts.

(** * The client's call loop *)

Module ClientFacts.
Import proto Client.

(** The loop asks the environment about the current and later attempts
    only. *)
Lemma attempts_ext reqId env env' reqBytes remaining : ∀ attempt,
  (∀ a, attempt ≤ a → env' a = env a) →
  attempts reqId env' reqBytes remaining attempt
  = attempts reqId env reqBytes remaining attempt.
Proof.
  induction remaining as [|n IH]; intros attempt Hext; [reflexivity|].
  cbn [attempts]. rewrite (Hext attempt) by lia.
  rewrite (IH (attempt + 1)) by (intros a Ha; apply Hext; lia).
  reflexivity.
Qed.

Lemma attempts_timed_out reqId env reqBytes remaining attempt :
  timed_out (env attempt) →
  attempts reqId env reqBytes (S remaining) attempt =
    ((attempts reqId env reqBytes remaining (attempt + 1)).1,
     Sent attempt reqBytes :: (attempts reqId env reqBytes remaining (attempt + 1)).2).
Proof. intros [Hs Hr]. cbn [attempts]. rewrite Hs, Hr. reflexivity. Qed.

(** C2, as the code has it.  A datagram that decodes but is not a Reply,
    or answers another request id, is discarded and uses up the attempt
    that received it: the loop goes on to the next attempt, which sends
    the request again, and with no attempt left the call fails.  The
    call proceeds exactly as if that attempt had timed out. *)
Theorem stray_packet_consumes_attempt reqId env reqBytes remaining attempt :
  stray reqId (env attempt) →
  attempts reqId env reqBytes (S remaining) attempt =
    ((attempts reqId env reqBytes remaining (attempt + 1)).1,
     Sent attempt reqBytes :: (attempts reqId env reqBytes remaining (attempt + 1)).2) ∧
  (remaining = O →
   attempts reqId env reqBytes (S remaining) attempt = (None, [Sent attempt reqBytes])) ∧
  (∀ env', timed_out (env' attempt) → (∀ a, a ≠ attempt → env' a = env a) →
     attempts reqId env' reqBytes (S remaining) attempt
     = attempts reqId env reqBytes (S remaining) attempt).
Proof.
  intros (Hs & data & reply & Hr & Hdec & Hne).
  assert (Hstep : attempts reqId env reqBytes (S remaining) attempt =
    ((attempts reqId env reqBytes remaining (attempt + 1)).1,
     Sent attempt reqBytes :: (attempts reqId env reqBytes remaining (attempt + 1)).2)).
  { cbn [attempts]. rewrite Hs, Hr, Hdec. cbn [negb].
    destruct (msgType (h reply) =? MsgType_code Reply) eqn:Ety; [|reflexivity].
    destruct (requestId (h reply) =? reqId) eqn:Eid; [|reflexivity].
    exfalso. destruct Hne as [Hne|Hne]; apply Hne; lia. }
  split_and!.
  - exact Hstep.
  - intros ->. rewrite Hstep. reflexivity.
  - intros env' Hto Hext. rewrite Hstep, (attempts_timed_out _ _ _ _ _ Hto).
    rewrite (attempts_ext reqId env env') by (intros a Ha; apply Hext; lia).
    reflexivity.
Qed.

Lemma callback_is_stray : stray 99 (callback_then_reply 1).
Proof.
  split; [reflexivity|]. eexists callback_datagram, _.
  split_and!; [reflexivity | vm_compute; reflexivity | left; vm_compute; discriminate].
Qed.

(** C2 on [callback_then_reply]: the callback received by attempt 1. *)
Lemma stray_packet_consumes_attempt_witness :
  stray 99 (callback_then_reply 1) ∧
  attempts 99 callback_then_reply [1; 2; 3] 1 1 = (None, [Sent 1 [1; 2; 3]]).
Proof.
  split; [exact callback_is_stray|].
  destruct (stray_packet_consumes_attempt 99 callback_then_reply [1; 2; 3] O 1
              callback_is_stray) as (_ & Hlast & _).
  exact (Hlast eq_refl).
Defined.

(** C2 as worded fails.  With five attempts allowed, the callback that
    reaches attempt 1 makes the client send the request a second time
    although nothing timed out (the reply then reaches attempt 2); with
    one attempt allowed, the same callback makes the call fail. *)
Lemma stray_packet_causes_resend :
  let reqBytes :=
    encode (request QUERY_BALANCE FLAG_AT_MOST_ONCE 99 []) in
  (∀ a, (callback_then_reply a).(recvfrom) ≠ TimedOut) ∧
  stray 99 (callback_then_reply 1) ∧
  call five_retries 99 callback_then_reply (OpCode_code QUERY_BALANCE) []
    = (Some reply_99, [Sent 1 reqBytes; Sent 2 reqBytes]) ∧
  call one_retry 99 callback_then_reply (OpCode_code QUERY_BALANCE) []
    = (None, [Sent 1 reqBytes]).
Proof.
  intros reqBytes. split_and!.
  - intros a. discriminate.
  - exact callback_is_stray.
  - vm_compute. reflexivity.
  - vm_compute. reflexivity.
Qed.

End ClientFacts.

(** * The typed readers and writers *)

Module WireFacts.
Import proto CodecFacts.

Lemma size_app (a b : bytes) : size (a ++ b) = size a + size b.
Proof. unfold size. rewrite length_app. lia. Qed.

Lemma size_nonneg (a : bytes) : 0 ≤ size a.
Proof. unfold size. lia. Qed.

Lemma gtb_false a b : a ≤ b → (a >? b) = false.
Proof. intros. rewrite Z.gtb_ltb. apply Z.ltb_ge. lia. Qed.

Lemma gtb_true a b : b < a → (a >? b) = true.
Proof. intros. rewrite Z.gtb_ltb. apply Z.ltb_lt. lia. Qed.

Section AtPrefix.

Variables pre rest : bytes.

Lemma getBE16_put v :
  0 ≤ v < 2^16 → size pre + 2 < 2^64 →
  getBE16 (pre ++ putBE16 v ++ rest) (size pre) = Some (v, size pre + 2).
Proof.
  intros Hv Hs. pose proof (size_nonneg pre). pose proof (size_nonneg rest).
  rewrite getBE16_eq by lia.
  rewrite gtb_false by (rewrite !size_app; change (size (putBE16 v)) with 2; lia).
  rewrite rd16_put by (reflexivity || exact Hv). reflexivity.
Qed.

Lemma getBE32_put v :
  0 ≤ v < 2^32 → size pre + 4 < 2^64 →
  getBE32 (pre ++ putBE32 v ++ rest) (size pre) = Some (v, size pre + 4).
Proof.
  intros Hv Hs. pose proof (size_nonneg pre). pose proof (size_nonneg rest).
  rewrite getBE32_eq by lia.
  rewrite gtb_false by (rewrite !size_app; change (size (putBE32 v)) with 4; lia).
  rewrite rd32_put by (reflexivity || exact Hv). reflexivity.
Qed.

Lemma getBE64_put v :
  0 ≤ v < 2^64 → size pre + 8 < 2^64 →
  getBE64 (pre ++ putBE64 v ++ rest) (size pre) = Some (v, size pre + 8).
Proof.
  intros Hv Hs. pose proof (size_nonneg pre). pose proof (size_nonneg rest).
  rewrite getBE64_eq by lia.
  rewrite gtb_false by (rewrite !size_app; change (size (putBE64 v)) with 8; lia).
  rewrite rd64_put by (reflexivity || exact Hv). reflexivity.
Qed.

Lemma i32_u32 v : - 2^31 ≤ v < 2^31 → i32 (u32 v) = v.
Proof.
  intros Hv. unfold i32, u32.
  rewrite Zplus_mod_idemp_l.
  rewrite Z.mod_small by lia. lia.
Qed.

Lemma u32_range v : 0 ≤ u32 v < 2^32.
Proof. unfold u32. apply Z.mod_pos_bound. lia. Qed.

Lemma getI32_put v :
  - 2^31 ≤ v < 2^31 → size pre + 4 < 2^64 →
  getI32 (pre ++ putBE32 (u32 v) ++ rest) (size pre) = Some (v, size pre + 4).
Proof.
  intros Hv Hs. unfold getI32, getU32.
  rewrite getBE32_put by (apply u32_range || exact Hs). cbn.
  rewrite i32_u32 by exact Hv. reflexivity.
Qed.

Lemma getDouble_put v :
  0 ≤ v < 2^64 → size pre + 8 < 2^64 →
  getDouble (pre ++ putBE64 v ++ rest) (size pre) = Some (v, size pre + 8).
Proof.
  intros Hv Hs. unfold getDouble, getU64. rewrite getBE64_put by assumption.
  reflexivity.
Qed.

End AtPrefix.

Lemma getString_put pre rest s :
  size s ≤ 65535 → size pre + 2 + size s < 2^64 →
  getString (pre ++ (putBE16 (u16 (size s)) ++ s) ++ rest) (size pre)
  = Some (s, size pre + 2 + size s).
Proof.
  intros Hs Hb. pose proof (size_nonneg pre). pose proof (size_nonneg s).
  pose proof (size_nonneg rest).
  assert (Hu : u16 (size s) = size s) by (apply Z.mod_small; lia).
  unfold getString, getU16. rewrite <- app_assoc.
  rewrite getBE16_put by (rewrite ?Hu; lia). cbn [mbind option_bind].
  rewrite Hu, size_add_small by lia.
  rewrite gtb_false
    by (rewrite !size_app; change (size (putBE16 (size s))) with 2; lia).
  f_equal. f_equal.
  rewrite app_assoc.
  rewrite drop_app_length'
    by (unfold size; rewrite length_app; change (length (putBE16 _)) with 2%nat; lia).
  unfold size. rewrite Nat2Z.id. apply take_app_length.
Qed.

(** *** Passwords *)

Lemma trimmed_le p n : (trimmed p n ≤ n)%nat.
Proof. induction n; cbn; [lia|]. case_match; lia. Qed.

Lemma trimmed_ext p q n :
  (∀ k, (k < n)%nat → p !!! k = q !!! k) → trimmed p n = trimmed q n.
Proof.
  induction n as [|n IH]; intros H; [reflexivity|].
  cbn. rewrite (H n) by lia. rewrite IH by (intros; apply H; lia). reflexivity.
Qed.

Lemma lookup_padding (t rest : bytes) k i :
  (length t ≤ i < length t + k)%nat → (t ++ replicate k 0 ++ rest) !!! i = 0.
Proof.
  intros Hi. rewrite lookup_total_app_r by lia.
  rewrite lookup_total_app_l by (rewrite length_replicate; lia).
  apply lookup_total_replicate_2. lia.
Qed.

Lemma trimmed_zeros (t rest : bytes) k :
  trimmed (t ++ replicate k 0 ++ rest) (length t + k) = trimmed t (length t).
Proof.
  induction k as [|k IH].
  - rewrite Nat.add_0_r. apply trimmed_ext.
    intros i Hi. apply lookup_total_app_l. exact Hi.
  - replace (length t + S k)%nat with (S (length t + k)) by lia.
    cbn [trimmed]. rewrite lookup_padding by lia. rewrite Z.eqb_refl.
    rewrite <- IH. apply trimmed_ext. intros i Hi.
    destruct (decide (i < length t)%nat).
    + rewrite !lookup_total_app_l by lia. reflexivity.
    + rewrite !lookup_padding by lia. reflexivity.
Qed.

Lemma trimmed_padded (t rest : bytes) k n :
  n = (length t + k)%nat →
  trimmed (t ++ replicate k 0 ++ rest) n = trimmed t (length t).
Proof. intros ->. apply trimmed_zeros. Qed.

Lemma putPassword16_app b s : putPassword16 b s = b ++ putPassword16 [] s.
Proof. reflexivity. Qed.

Lemma password_slot_length s : length (putPassword16 [] s) = 16%nat.
Proof.
  unfold putPassword16. cbn [app]. rewrite length_app, length_replicate.
  unfold size. destruct (Z.of_nat (length s) >? 16) eqn:E.
  - rewrite length_take. lia.
  - lia.
Qed.

Lemma password_slot_size s : size (putPassword16 [] s) = 16.
Proof. unfold size. rewrite password_slot_length. reflexivity. Qed.

Lemma getPassword16_put pre rest s :
  size pre + 16 < 2^64 →
  getPassword16 (pre ++ putPassword16 [] s ++ rest) (size pre)
  = Some (strip_zeros (take 16 s), size pre + 16).
Proof.
  intros Hb. pose proof (size_nonneg pre). pose proof (size_nonneg rest).
  unfold getPassword16. rewrite size_add_small by lia.
  rewrite gtb_false
    by (rewrite !size_app, password_slot_size; lia).
  f_equal. f_equal.
  rewrite drop_app_length' by (unfold size; lia).
  unfold putPassword16. cbn [app].
  set (t := if size s >? 16 then take 16 s else s).
  assert (Ht : t = take 16 s).
  { unfold t, size. destruct (Z.of_nat (length s) >? 16) eqn:E; [reflexivity|].
    rewrite take_ge by lia. reflexivity. }
  assert (Hlen : (length t ≤ 16)%nat) by (rewrite Ht, length_take; lia).
  rewrite <- Ht. rewrite <- app_assoc.
  rewrite (trimmed_padded t rest (16 - length t) 16) by lia. unfold strip_zeros.
  apply take_app_le, trimmed_le.
Qed.

Lemma trimmed_last t :
  last t ≠ Some 0 → trimmed t (length t) = length t.
Proof.
  destruct t as [|x t _] using rev_ind; [reflexivity|].
  rewrite last_snoc, length_app. cbn [length]. intros Hx.
  replace (length t + 1)%nat with (S (length t)) by lia. cbn [trimmed].
  rewrite lookup_total_app_r by lia. rewrite Nat.sub_diag. cbn.
  destruct (x =? 0) eqn:E; [|reflexivity]. exfalso. apply Hx. f_equal. lia.
Qed.

Lemma strip_zeros_id t : last t ≠ Some 0 → strip_zeros t = t.
Proof. intros H. unfold strip_zeros. rewrite trimmed_last by exact H. apply take_ge. lia. Qed.


(** *** User-facing round trips *)

(** X1.  What [putU16], [putU32], [putU64] and [putI32] append to a
    buffer, the matching reader started at the old end of the buffer
    reads back, whatever follows, and it leaves the cursor just behind
    the field. *)
Theorem integers_round_trip (b rest : bytes) (v : Z) :
  size b + 8 < 2^64 →
  (0 ≤ v < 2^16 → getU16 (putU16 b v ++ rest) (size b) = Some (v, size b + 2)) ∧
  (0 ≤ v < 2^32 → getU32 (putU32 b v ++ rest) (size b) = Some (v, size b + 4)) ∧
  (0 ≤ v < 2^64 → getU64 (putU64 b v ++ rest) (size b) = Some (v, size b + 8)) ∧
  (- 2^31 ≤ v < 2^31 → getI32 (putI32 b v ++ rest) (size b) = Some (v, size b + 4)).
Proof.
  intros Hb. unfold getU16, getU32, getU64, putI32, putU16, putU32, putU64.
  rewrite <- !app_assoc. split_and!; intros Hv.
  - apply getBE16_put; [exact Hv|lia].
  - apply getBE32_put; [exact Hv|lia].
  - apply getBE64_put; [exact Hv|lia].
  - apply getI32_put; [exact Hv|lia].
Qed.

Lemma integers_round_trip_witness :
  getU16 (putU16 [7] 0x1234 ++ [9]) 1 = Some (0x1234, 3) ∧
  getU32 (putU32 [7] 0x12345678 ++ [9]) 1 = Some (0x12345678, 5) ∧
  getU64 (putU64 [7] 0x123456789ABCDEF0 ++ [9]) 1 = Some (0x123456789ABCDEF0, 9) ∧
  getI32 (putI32 [7] (-2) ++ [9]) 1 = Some (-2, 5).
Proof.
  assert (Hb : size [7] + 8 < 2^64) by (vm_compute; reflexivity).
  split_and!.
  - apply (integers_round_trip [7] [9] 0x1234 Hb). lia.
  - apply (integers_round_trip [7] [9] 0x12345678 Hb). lia.
  - apply (integers_round_trip [7] [9] 0x123456789ABCDEF0 Hb). lia.
  - apply (integers_round_trip [7] [9] (-2) Hb). lia.
Defined.

(** X2.  [getDouble] reads back the very 64 bits [putDouble] wrote: every
    double, NaN payloads included, crosses the wire unchanged. *)
Theorem double_round_trip (b rest : bytes) (v : double) :
  size b + 8 < 2^64 → 0 ≤ v < 2^64 →
  getDouble (putDouble b v ++ rest) (size b) = Some (v, size b + 8).
Proof.
  intros Hb Hv. unfold putDouble, putU64. rewrite <- app_assoc.
  apply getDouble_put; assumption.
Qed.

Lemma double_round_trip_witness :
  getDouble (putDouble [7] 0x7FF0000000000001 ++ [9]) 1 = Some (0x7FF0000000000001, 9).
Proof.
  apply (double_round_trip [7] [9] 0x7FF0000000000001).
  - vm_compute. reflexivity.
  - lia.
Defined.

(** X3.  A string of at most 65535 bytes written by [putString] is read
    back by [getString], which leaves the cursor behind its last byte. *)
Theorem string_round_trip (b rest s : bytes) :
  size s ≤ 65535 → size b + 2 + size s < 2^64 →
  getString (putString b s ++ rest) (size b) = Some (s, size b + 2 + size s).
Proof.
  intros Hs Hb. unfold putString. rewrite gtb_false by lia.
  unfold putU16. rewrite <- !app_assoc, (app_assoc _ s).
  apply getString_put; assumption.
Qed.

Lemma string_round_trip_witness :
  getString (putString [7] (str "alice") ++ [9]) 1 = Some (str "alice", 8).
Proof.
  apply (string_round_trip [7] [9] (str "alice")); vm_compute;
    first [reflexivity | discriminate].
Defined.

(** X4.  [putPassword16] always appends 16 bytes.  [getPassword16] reads
    back the first 16 bytes of the password without their trailing zero
    bytes: a password of at most 16 bytes that does not end in a zero
    byte comes back whole, a longer one is cut to 16 bytes, and trailing
    zero bytes are lost. *)
Theorem password_round_trip (b rest s : bytes) :
  size b + 16 < 2^64 →
  size (putPassword16 b s) = size b + 16 ∧
  getPassword16 (putPassword16 b s ++ rest) (size b)
    = Some (strip_zeros (take 16 s), size b + 16) ∧
  (size s ≤ 16 → last s ≠ Some 0 →
   getPassword16 (putPassword16 b s ++ rest) (size b) = Some (s, size b + 16)).
Proof.
  intros Hb. rewrite putPassword16_app, size_app, password_slot_size, <- app_assoc.
  rewrite getPassword16_put by exact Hb. split_and!; [reflexivity..|].
  intros Hs Hlast. rewrite take_ge by (unfold size in Hs; lia).
  rewrite strip_zeros_id by exact Hlast. reflexivity.
Qed.

Lemma password_round_trip_witness :
  getPassword16 (putPassword16 [7] (str "pw") ++ [9]) 1 = Some (str "pw", 17) ∧
  getPassword16 (putPassword16 [7] [112; 0; 0] ++ [9]) 1 = Some ([112], 17).
Proof.
  assert (Hb : size [7] + 16 < 2^64) by (vm_compute; reflexivity).
  split.
  - apply (password_round_trip [7] [9] (str "pw") Hb); vm_compute;
      first [reflexivity | discriminate].
  - exact (proj1 (proj2 (password_round_trip [7] [9] [112; 0; 0] Hb))).
Defined.

Lemma rd16_range b off : 0 ≤ rd16 b off < 2^16.
Proof. unfold rd16, u16. apply Z.mod_pos_bound. lia. Qed.

(** X5.  A reader fails exactly when fewer bytes remain behind the cursor
    than its field is wide: 2 for [getU16], 4 for [getU32] and [getI32],
    8 for [getU64] and [getDouble], 16 for [getPassword16]; [getString]
    fails exactly when the length prefix or the declared number of bytes
    is not there. *)
Theorem readers_fail_past_end (b : bytes) (off : Z) :
  0 ≤ off ≤ size b → size b + 65535 + 16 < 2^64 →
  (getU16 b off = None ↔ size b - off < 2) ∧
  (getU32 b off = None ↔ size b - off < 4) ∧
  (getI32 b off = None ↔ size b - off < 4) ∧
  (getU64 b off = None ↔ size b - off < 8) ∧
  (getDouble b off = None ↔ size b - off < 8) ∧
  (getPassword16 b off = None ↔ size b - off < 16) ∧
  (getString b off = None ↔ size b - off < 2 ∨ size b - off - 2 < rd16 b off).
Proof.
  intros Hoff Hb.
  unfold getString, getPassword16, getDouble, getI32, getU64, getU32, getU16.
  rewrite getBE16_eq, getBE32_eq, getBE64_eq, size_add_small by lia.
  pose proof (rd16_range b off) as Hr.
  split_and!.
  - destruct (off + 2 >? size b) eqn:E; split; (discriminate || lia || reflexivity).
  - destruct (off + 4 >? size b) eqn:E; split; (discriminate || lia || reflexivity).
  - destruct (off + 4 >? size b) eqn:E; split; (discriminate || lia || reflexivity).
  - destruct (off + 8 >? size b) eqn:E; split; (discriminate || lia || reflexivity).
  - destruct (off + 8 >? size b) eqn:E; split; (discriminate || lia || reflexivity).
  - destruct (off + 16 >? size b) eqn:E; split; (discriminate || lia || reflexivity).
  - destruct (off + 2 >? size b) eqn:E; cbn [mbind option_bind].
    + split; [left; lia|reflexivity].
    + rewrite size_add_small by lia.
      destruct (off + 2 + rd16 b off >? size b) eqn:E2;
        split; (discriminate || lia || reflexivity || (right; lia)).
Qed.


Lemma readers_fail_past_end_witness :
  getU16 [1] 0 = None ∧ getU32 [1; 2; 3] 0 = None ∧ getDouble [1; 2; 3] 1 = None ∧
  getPassword16 [] 0 = None ∧ getString [0; 3; 97; 98] 0 = None.
Proof.
  assert (H1 : 0 ≤ 0 ≤ size [1] ∧ size [1] + 65535 + 16 < 2^64)
    by (vm_compute; intuition discriminate).
  assert (H3 : 0 ≤ 0 ≤ size [1; 2; 3] ∧ size [1; 2; 3] + 65535 + 16 < 2^64)
    by (vm_compute; intuition discriminate).
  assert (H3' : 0 ≤ 1 ≤ size [1; 2; 3]) by (vm_compute; intuition discriminate).
  assert (H0 : 0 ≤ 0 ≤ size [] ∧ size [] + 65535 + 16 < 2^64)
    by (vm_compute; intuition discriminate).
  assert (H4 : 0 ≤ 0 ≤ size [0; 3; 97; 98] ∧ size [0; 3; 97; 98] + 65535 + 16 < 2^64)
    by (vm_compute; intuition discriminate).
  destruct (readers_fail_past_end [1] 0 (proj1 H1) (proj2 H1)) as (A & _).
  destruct (readers_fail_past_end [1; 2; 3] 0 (proj1 H3) (proj2 H3)) as (_ & B & _).
  destruct (readers_fail_past_end [1; 2; 3] 1 H3' (proj2 H3)) as (_ & _ & _ & _ & C & _).
  destruct (readers_fail_past_end [] 0 (proj1 H0) (proj2 H0)) as (_ & _ & _ & _ & _ & D & _).
  destruct (readers_fail_past_end [0; 3; 97; 98] 0 (proj1 H4) (proj2 H4))
    as (_ & _ & _ & _ & _ & _ & E).
  split_and!.
  - apply A. vm_compute. reflexivity.
  - apply B. vm_compute. reflexivity.
  - apply C. vm_compute. reflexivity.
  - apply D. vm_compute. reflexivity.
  - apply E. right. vm_compute. reflexivity.
Defined.

(** *** Messages *)

Lemma rd64_range b off : 0 ≤ rd64 b off < 2^64.
Proof.
  unfold rd64. change (seqZ 0 8) with [0; 1; 2; 3; 4; 5; 6; 7]. cbn [foldl].
  unfold u64 at 1. apply Z.mod_pos_bound. lia.
Qed.

Lemma at8_byte (raw : bytes) i :
  Forall is_byte raw → 0 ≤ i < size raw → is_byte (at8 raw i).
Proof.
  intros Hall Hi. unfold at8.
  apply (Forall_lookup_1 _ _ (Z.to_nat i) _ Hall).
  apply list_lookup_lookup_total_lt. unfold size in Hi. lia.
Qed.

(** X6.  Whatever [decode] returns from a buffer of bytes is a well-formed
    message: its magic is [MAGIC], every header field is within its
    type, its [bodyLen] is the length of its body, and the body lies
    within the buffer behind the 24 header bytes. *)
Theorem decode_well_formed raw m :
  decode raw = Some m → Forall is_byte raw →
  well_formed m ∧ m.(h).(magic) = MAGIC ∧ 24 + size m.(body) ≤ size raw.
Proof.
  rewrite decode_spec. intros Hdec Hall.
  destruct (size raw <? 24) eqn:E1; [discriminate|].
  destruct (rd32 raw 0 =? MAGIC) eqn:E2; [|discriminate]. cbn [negb] in Hdec.
  destruct (size raw - 24 <? rd32 raw 20) eqn:E3; [discriminate|].
  injection Hdec as <-.
  pose proof (rd32_range raw 20) as Hn.
  assert (Hbody : size (take (Z.to_nat (rd32 raw 20)) (drop 24 raw)) = rd32 raw 20).
  { unfold size in *. rewrite length_take, length_drop. lia. }
  unfold well_formed, header_in_range, decoded.
  cbn [h body magic version msgType opCode flags status requestId bodyLen].
  rewrite Hbody.
  pose proof (rd32_range raw 0) as Hmg. pose proof (rd16_range raw 6) as Hop.
  pose proof (rd16_range raw 8) as Hfl. pose proof (rd16_range raw 10) as Hst.
  pose proof (rd64_range raw 12) as Hrid.
  assert (Hver : is_byte (at8 raw 4)) by (apply (at8_byte raw 4 Hall); lia).
  assert (Hty : is_byte (at8 raw 5)) by (apply (at8_byte raw 5 Hall); lia).
  unfold is_byte in Hver, Hty.
  repeat split; first [ lia | tauto ].
Qed.

Lemma decode_well_formed_witness :
  well_formed (decoded version2_datagram) ∧
  (decoded version2_datagram).(h).(magic) = MAGIC ∧
  24 + size (decoded version2_datagram).(body) ≤ size version2_datagram.
Proof.
  apply decode_well_formed.
  - vm_compute. reflexivity.
  - unfold version2_datagram, is_byte. repeat constructor; discriminate.
Defined.

Section Truncation.

Variable m : Message.
Hypothesis Hrange : header_in_range m.(h).
Hypothesis Hmagic : m.(h).(magic) = MAGIC.

Lemma decode_encode_long :
  m.(h).(bodyLen) ≤ size m.(body) →
  decode (encode m) = Some (with_body m (take (Z.to_nat m.(h).(bodyLen)) m.(body))).
Proof.
  destruct m as [[mg ver ty op fl st rid bl] bd].
  unfold header_in_range in Hrange.
  cbn [h body magic version msgType opCode flags status requestId bodyLen] in *.
  destruct Hrange as (Hmg & Hver & Hty & Hop & Hfl & Hst & Hrid & Hbl).
  intros Hlen.
  rewrite <- (app_nil_r (encode _)), decode_spec, encode_app, app_nil_r. unfold decoded.
  rewrite header_size, header_magic, header_version, header_msgType, header_opCode,
    header_flags, header_status, header_requestId, header_bodyLen, header_drop
    by assumption.
  pose proof (size_nonneg bd).
  replace (24 + size bd <? 24) with false by (symmetry; apply Z.ltb_ge; lia).
  replace (mg =? MAGIC) with true by lia.
  replace (24 + size bd - 24 <? bl) with false by (symmetry; apply Z.ltb_ge; lia).
  reflexivity.
Qed.

Lemma decode_encode_short :
  size m.(body) < m.(h).(bodyLen) → decode (encode m) = None.
Proof.
  destruct m as [[mg ver ty op fl st rid bl] bd].
  unfold header_in_range in Hrange.
  cbn [h body magic version msgType opCode flags status requestId bodyLen] in *.
  destruct Hrange as (Hmg & Hver & Hty & Hop & Hfl & Hst & Hrid & Hbl).
  intros Hlen.
  rewrite <- (app_nil_r (encode _)), decode_spec, encode_app, app_nil_r.
  rewrite header_size, header_magic, header_bodyLen by assumption.
  pose proof (size_nonneg bd).
  replace (24 + size bd <? 24) with false by (symmetry; apply Z.ltb_ge; lia).
  replace (mg =? MAGIC) with true by lia.
  replace (24 + size bd - 24 <? bl) with true by (symmetry; apply Z.ltb_lt; lia).
  reflexivity.
Qed.

End Truncation.


(** X7.  For a header within its types and with magic [MAGIC]: when
    [bodyLen] is at most the length of the body, [decode (encode m)]
    returns [m] with its body cut to [bodyLen] bytes; when [bodyLen] is
    greater, [decode (encode m)] fails. *)
Theorem decode_encode_truncates m :
  header_in_range m.(h) → m.(h).(magic) = MAGIC →
  (m.(h).(bodyLen) ≤ size m.(body) →
   decode (encode m) = Some (with_body m (take (Z.to_nat m.(h).(bodyLen)) m.(body)))) ∧
  (size m.(body) < m.(h).(bodyLen) → decode (encode m) = None).
Proof.
  intros Hrange Hmagic. split.
  - apply decode_encode_long; assumption.
  - apply decode_encode_short; assumption.
Qed.

Lemma decode_encode_truncates_witness :
  let m := {| h := {| magic := MAGIC; version := 1; msgType := 1; opCode := 3;
                      flags := 1; status := 0; requestId := 77; bodyLen := 1 |};
              body := [5; 6] |} in
  decode (encode m) = Some (with_body m [5]) ∧
  decode (encode (with_body m [])) = None.
Proof.
  intros m.
  assert (Hr : header_in_range m.(h)) by (unfold header_in_range, m, MAGIC; cbn; lia).
  split.
  - apply (decode_encode_truncates m Hr eq_refl). vm_compute. discriminate.
  - apply (decode_encode_truncates (with_body m []) Hr eq_refl). vm_compute. reflexivity.
Defined.

(** *** Re-encoding what was decoded *)

Lemma putBE16_bytes b0 b1 :
  is_byte b0 → is_byte b1 → putBE16 (b0 * 256 + b1) = [b0; b1].
Proof.
  unfold is_byte, putBE16. intros H0 H1.
  rewrite byte_of_shiftr, land_255 by lia. change (2 ^ 8) with 256.
  f_equal; [|f_equal]; Z.div_mod_to_equations; lia.
Qed.

Lemma putBE32_bytes b0 b1 b2 b3 :
  is_byte b0 → is_byte b1 → is_byte b2 → is_byte b3 →
  putBE32 (((b0 * 256 + b1) * 256 + b2) * 256 + b3) = [b0; b1; b2; b3].
Proof.
  unfold is_byte, putBE32. intros H0 H1 H2 H3.
  rewrite !byte_of_shiftr, land_255 by lia.
  set (v := ((b0 * 256 + b1) * 256 + b2) * 256 + b3).
  as_quotients v. subst v.
  repeat f_equal; Z.div_mod_to_equations; lia.
Qed.

Lemma putBE64_bytes b0 b1 b2 b3 b4 b5 b6 b7 :
  is_byte b0 → is_byte b1 → is_byte b2 → is_byte b3 →
  is_byte b4 → is_byte b5 → is_byte b6 → is_byte b7 →
  putBE64 (((((((b0 * 256 + b1) * 256 + b2) * 256 + b3) * 256 + b4) * 256 + b5)
              * 256 + b6) * 256 + b7)
  = [b0; b1; b2; b3; b4; b5; b6; b7].
Proof.
  unfold is_byte, putBE64. intros H0 H1 H2 H3 H4 H5 H6 H7.
  change (seqZ 0 8) with [0; 1; 2; 3; 4; 5; 6; 7]. cbn [fmap list_fmap].
  rewrite !byte_of_shiftr by lia.
  cbn [Z.mul Z.sub Z.add Z.opp Z.pos_sub Pos.mul Pos.add Pos.succ Pos.pred_double].
  set (v := ((((((b0 * 256 + b1) * 256 + b2) * 256 + b3) * 256 + b4) * 256 + b5)
              * 256 + b6) * 256 + b7).
  as_quotients v. rewrite Z.pow_0_r, Z.div_1_r. subst v.
  repeat f_equal; Z.div_mod_to_equations; lia.
Qed.


(** X8.  Re-encoding a decoded datagram gives back its first
    [24 + bodyLen] bytes: decoding loses nothing but the bytes behind the
    declared body. *)
Theorem encode_decoded raw m :
  decode raw = Some m → Forall is_byte raw →
  encode m = take (Z.to_nat (24 + m.(h).(bodyLen))) raw.
Proof.
  intros Hdec Hall.
  assert (E1 : (size raw <? 24) = false).
  { rewrite decode_spec in Hdec. destruct (size raw <? 24); [discriminate|reflexivity]. }
  unfold size in E1.
  destruct raw as [|r0 raw]; [cbn in E1; discriminate E1|]. destruct raw as [|r1 raw]; [cbn in E1; discriminate E1|].
  destruct raw as [|r2 raw]; [cbn in E1; discriminate E1|]. destruct raw as [|r3 raw]; [cbn in E1; discriminate E1|].
  destruct raw as [|r4 raw]; [cbn in E1; discriminate E1|]. destruct raw as [|r5 raw]; [cbn in E1; discriminate E1|].
  destruct raw as [|r6 raw]; [cbn in E1; discriminate E1|]. destruct raw as [|r7 raw]; [cbn in E1; discriminate E1|].
  destruct raw as [|r8 raw]; [cbn in E1; discriminate E1|]. destruct raw as [|r9 raw]; [cbn in E1; discriminate E1|].
  destruct raw as [|r10 raw]; [cbn in E1; discriminate E1|]. destruct raw as [|r11 raw]; [cbn in E1; discriminate E1|].
  destruct raw as [|r12 raw]; [cbn in E1; discriminate E1|]. destruct raw as [|r13 raw]; [cbn in E1; discriminate E1|].
  destruct raw as [|r14 raw]; [cbn in E1; discriminate E1|]. destruct raw as [|r15 raw]; [cbn in E1; discriminate E1|].
  destruct raw as [|r16 raw]; [cbn in E1; discriminate E1|]. destruct raw as [|r17 raw]; [cbn in E1; discriminate E1|].
  destruct raw as [|r18 raw]; [cbn in E1; discriminate E1|]. destruct raw as [|r19 raw]; [cbn in E1; discriminate E1|].
  destruct raw as [|r20 raw]; [cbn in E1; discriminate E1|]. destruct raw as [|r21 raw]; [cbn in E1; discriminate E1|].
  destruct raw as [|r22 raw]; [cbn in E1; discriminate E1|]. destruct raw as [|r23 raw]; [cbn in E1; discriminate E1|].
  clear E1.
  repeat match type of Hall with
         | Forall _ (_ :: _) => apply Forall_cons in Hall as [? Hall]
         end.
  unfold is_byte in *.
  set (mg := ((r0 * 256 + r1) * 256 + r2) * 256 + r3).
  set (op := r6 * 256 + r7). set (fl := r8 * 256 + r9). set (st := r10 * 256 + r11).
  set (rid := ((((((r12 * 256 + r13) * 256 + r14) * 256 + r15) * 256 + r16) * 256 + r17)
                 * 256 + r18) * 256 + r19).
  set (bl := ((r20 * 256 + r21) * 256 + r22) * 256 + r23).
  assert (Hraw : r0 :: r1 :: r2 :: r3 :: r4 :: r5 :: r6 :: r7 :: r8 :: r9 :: r10 :: r11
                 :: r12 :: r13 :: r14 :: r15 :: r16 :: r17 :: r18 :: r19 :: r20 :: r21
                 :: r22 :: r23 :: raw
                 = putBE32 mg ++ [r4; r5] ++ putBE16 op ++ putBE16 fl ++ putBE16 st
                     ++ putBE64 rid ++ putBE32 bl ++ raw).
  { unfold mg, op, fl, st, rid, bl.
    rewrite !putBE16_bytes, !putBE32_bytes, putBE64_bytes by (unfold is_byte; assumption).
    reflexivity. }
  rewrite Hraw in Hdec |- *. clear Hraw.
  rewrite decode_spec in Hdec.
  rewrite header_size, header_magic, header_bodyLen in Hdec by (unfold mg, bl; lia).
  destruct (24 + size raw <? 24); [discriminate|].
  destruct (negb (mg =? MAGIC)); [discriminate|].
  destruct (24 + size raw - 24 <? bl) eqn:E3; [discriminate|].
  apply (inj Some) in Hdec. subst m. unfold decoded.
  rewrite header_magic, header_version, header_msgType, header_opCode,
    header_flags, header_status, header_requestId, header_bodyLen, header_drop
    by (unfold mg, op, fl, st, rid, bl; lia).
  cbn [h bodyLen].
  rewrite <- (app_nil_r (encode _)), encode_app, app_nil_r.
  assert (Hbl : 0 ≤ bl) by (unfold bl; lia).
  set (hdr := putBE32 mg ++ [r4; r5] ++ putBE16 op ++ putBE16 fl ++ putBE16 st
                ++ putBE64 rid ++ putBE32 bl).
  assert (Hhdr : ∀ tl, putBE32 mg ++ [r4; r5] ++ putBE16 op ++ putBE16 fl ++ putBE16 st
                         ++ putBE64 rid ++ putBE32 bl ++ tl = hdr ++ tl).
  { intros tl. unfold hdr. rewrite <- !app_assoc. reflexivity. }
  rewrite !Hhdr.
  replace (Z.to_nat (24 + bl)) with (length hdr + Z.to_nat bl)%nat
    by (unfold hdr; rewrite !length_app; cbn [length putBE32 putBE16];
        change (length (putBE64 rid)) with 8%nat; lia).
  rewrite take_app_add. reflexivity.
Qed.

Lemma encode_decoded_witness :
  encode (decoded (version2_datagram ++ [9; 9])) = version2_datagram.
Proof.
  rewrite (encode_decoded (version2_datagram ++ [9; 9]) _).
  - vm_compute. reflexivity.
  - vm_compute. reflexivity.
  - unfold version2_datagram, is_byte. repeat constructor; discriminate.
Defined.

End WireFacts.

(** * The ledger, continued *)

Module LedgerFacts.
Import proto Bank BankFacts.

Lemma i32_small z : - 2^31 ≤ z < 2^31 → i32 z = z.
Proof. intros Hz. unfold i32. rewrite Z.mod_small by lia. lia. Qed.

Lemma authMatch_true a name pw :
  authMatch a name pw = true ↔ a.(Bank.name) = name ∧ a.(password) = pw.
Proof.
  unfold authMatch. rewrite andb_true_iff, !bool_decide_eq_true. reflexivity.
Qed.

Lemma authMatch_false a name pw :
  a.(Bank.name) ≠ name ∨ a.(password) ≠ pw → authMatch a name pw = false.
Proof.
  intros H. destruct (authMatch a name pw) eqn:E; [|reflexivity].
  apply authMatch_true in E. tauto.
Qed.

(** *** The allocator *)

Lemma bank_inv_init : bank_inv init.
Proof. split; [cbn; lia|]. intros k a Ha. cbn in Ha. rewrite lookup_empty in Ha. discriminate. Qed.

Lemma store_inv bk k a a' :
  bank_inv bk → bk.(accounts_) !! k = Some a → a'.(accountNo) = a.(accountNo) →
  bank_inv (store bk k a').
Proof.
  intros (Hn & Hacc) Hk Ha. split; [exact Hn|]. simpl. intros k' b Hb.
  destruct (decide (k' = k)) as [->|Hne].
  - rewrite lookup_insert_eq in Hb. inversion Hb; subst b. rewrite Ha. eauto.
  - rewrite lookup_insert_ne in Hb by congruence. eauto.
Qed.

Lemma openAccount_inv bk name pw c initial :
  bank_inv bk → bk.(nextAccNo_) < 2^31 - 1 →
  bank_inv (openAccount bk name pw c initial).1.
Proof.
  intros Hinv Hnext. unfold openAccount.
  destruct ((size pw =? 0) || (size pw >? 16)); [exact Hinv|].
  destruct Hinv as (Hn & Hacc). cbn [fst accountNo].
  split; cbn [nextAccNo_ accounts_]; rewrite i32_small by lia; [lia|].
  intros k a Ha. destruct (decide (k = nextAccNo_ bk)) as [->|Hne].
  - rewrite lookup_insert_eq in Ha. inversion Ha; subst a. cbn. lia.
  - rewrite lookup_insert_ne in Ha by congruence. apply Hacc in Ha. lia.
Qed.

Lemma closeAccount_inv bk name accNo pw :
  bank_inv bk → bank_inv (closeAccount bk name accNo pw).1.
Proof.
  intros Hinv. unfold closeAccount.
  destruct (accounts_ bk !! accNo) as [a|] eqn:Ha; [|exact Hinv].
  repeat case_match; try exact Hinv. cbn [fst].
  apply (store_inv bk accNo a); auto.
Qed.

Lemma deposit_inv bk name accNo pw c amount :
  bank_inv bk → bank_inv (deposit bk name accNo pw c amount).1.
Proof.
  intros Hinv. unfold deposit.
  destruct (accounts_ bk !! accNo) as [a|] eqn:Ha; [|exact Hinv].
  repeat case_match; try exact Hinv. cbn [fst].
  apply (store_inv bk accNo a); auto.
Qed.

Lemma withdraw_inv bk name accNo pw c amount :
  bank_inv bk → bank_inv (withdraw bk name accNo pw c amount).1.
Proof.
  intros Hinv. unfold withdraw.
  destruct (accounts_ bk !! accNo) as [a|] eqn:Ha; [|exact Hinv].
  repeat case_match; try exact Hinv. cbn [fst].
  apply (store_inv bk accNo a); auto.
Qed.

Lemma transfer_inv bk name fromAccNo pw toAccNo c amount :
  bank_inv bk → bank_inv (transfer bk name fromAccNo pw toAccNo c amount).1.
Proof.
  intros Hinv. unfold transfer.
  destruct (fromAccNo =? toAccNo) eqn:Hne; [exact Hinv|]. apply Z.eqb_neq in Hne.
  destruct (accounts_ bk !! fromAccNo) as [a|] eqn:Ha; [|exact Hinv].
  destruct (closed a); [exact Hinv|].
  destruct (accounts_ bk !! toAccNo) as [b|] eqn:Hb; [|exact Hinv].
  repeat case_match; try exact Hinv. cbn [fst].
  apply (store_inv _ toAccNo b); auto.
  - apply (store_inv bk fromAccNo a); auto.
  - cbn. rewrite lookup_insert_ne by congruence. exact Hb.
Qed.

(** X9.  Every [Bank] method keeps the allocator's invariant: the next
    account number stays within 10001..2^31-1, and every account is
    filed under its own [accountNo], a number below the next one.
    [openAccount] does so as long as the counter has not reached
    [INT32_MAX]. *)
Theorem methods_keep_bank_inv bk :
  bank_inv bk →
  (∀ name pw c initial, bk.(nextAccNo_) < 2^31 - 1 →
     bank_inv (openAccount bk name pw c initial).1) ∧
  (∀ name accNo pw, bank_inv (closeAccount bk name accNo pw).1) ∧
  (∀ name accNo pw c amount, bank_inv (deposit bk name accNo pw c amount).1) ∧
  (∀ name accNo pw c amount, bank_inv (withdraw bk name accNo pw c amount).1) ∧
  (∀ name fromAccNo pw toAccNo c amount,
     bank_inv (transfer bk name fromAccNo pw toAccNo c amount).1) ∧
  (∀ name accNo pw, bank_inv (queryBalance bk name accNo pw).1).
Proof.
  intros Hinv. split_and!.
  - intros. apply openAccount_inv; assumption.
  - intros. apply closeAccount_inv; assumption.
  - intros. apply deposit_inv; assumption.
  - intros. apply withdraw_inv; assumption.
  - intros. apply transfer_inv; assumption.
  - intros. rewrite queryBalance_bank. exact Hinv.
Qed.

Lemma methods_keep_bank_inv_witness :
  bank_inv init ∧
  bank_inv (openAccount init (str "alice") (str "pw") 0 (Double.of_Z 100)).1 ∧
  bank_inv (deposit init (str "alice") 10001 (str "pw") 0 (Double.of_Z 1)).1.
Proof.
  split; [exact bank_inv_init|].
  destruct (methods_keep_bank_inv init bank_inv_init) as (Hopen & _ & Hdep & _).
  split; [apply Hopen; vm_compute; reflexivity | apply Hdep].
Defined.

(** X10.  On a bank that satisfies the invariant, [openAccount] with a
    password of 1 to 16 bytes returns the next number, which no account
    had; it leaves every existing account as it was and moves the
    counter by one, so the next successful [openAccount] returns the
    number after it. *)
Theorem openAccount_fresh bk name pw c initial :
  bank_inv bk → bk.(nextAccNo_) < 2^31 - 1 → 1 ≤ size pw ≤ 16 →
  ∃ bk',
    openAccount bk name pw c initial = (bk', Success (bk.(nextAccNo_), initial)) ∧
    bk.(accounts_) !! bk.(nextAccNo_) = None ∧
    (∀ k, k ≠ bk.(nextAccNo_) → bk'.(accounts_) !! k = bk.(accounts_) !! k) ∧
    bk'.(nextAccNo_) = bk.(nextAccNo_) + 1 ∧
    (∀ name2 pw2 c2 initial2, 1 ≤ size pw2 ≤ 16 →
       (openAccount bk' name2 pw2 c2 initial2).2
         = Success (bk.(nextAccNo_) + 1, initial2)).
Proof.
  intros (Hn & Hacc) Hnext Hpw. unfold openAccount.
  replace (size pw =? 0) with false by lia.
  replace (size pw >? 16) with false by lia. cbn [orb].
  eexists. split; [reflexivity|]. cbn [nextAccNo_ accounts_ accountNo].
  rewrite i32_small by lia. split_and!.
  - destruct (accounts_ bk !! nextAccNo_ bk) as [a|] eqn:Ha; [|reflexivity].
    apply Hacc in Ha. lia.
  - intros k Hk. apply lookup_insert_ne. congruence.
  - reflexivity.
  - intros name2 pw2 c2 initial2 Hpw2.
    replace (size pw2 =? 0) with false by lia.
    replace (size pw2 >? 16) with false by lia. reflexivity.
Qed.

Lemma openAccount_fresh_witness :
  ∃ bk',
    openAccount init (str "alice") (str "pw") 0 (Double.of_Z 100)
      = (bk', Success (10001, Double.of_Z 100)) ∧
    bk'.(nextAccNo_) = 10002 ∧
    (openAccount bk' (str "bob") (str "pw") 1 (Double.of_Z 5)).2
      = Success (10002, Double.of_Z 5).
Proof.
  assert (Hpw : 1 ≤ size (str "pw") ≤ 16) by (vm_compute; split; discriminate).
  destruct (openAccount_fresh init (str "alice") (str "pw") 0 (Double.of_Z 100)
              bank_inv_init ltac:(vm_compute; reflexivity) Hpw)
    as (bk' & E & _ & _ & Hn & Hnext).
  exists bk'. split_and!; [exact E | exact Hn | exact (Hnext _ _ _ _ Hpw)].
Defined.

(** *** What no method does *)

Lemma same_identity_refl a : same_identity a a.
Proof. repeat split. Qed.

Lemma same_identity_balance a b : same_identity a (with_balance a b).
Proof. repeat split. Qed.

Lemma same_identity_closed a c : same_identity a (with_closed a c).
Proof. repeat split. Qed.

#[local] Hint Resolve same_identity_refl same_identity_balance same_identity_closed : core.

Lemma keeps_accounts_refl bk : keeps_accounts bk bk.
Proof. intros k a Ha. exists a. auto. Qed.

Lemma keeps_accounts_trans bk1 bk2 bk3 :
  keeps_accounts bk1 bk2 → keeps_accounts bk2 bk3 → keeps_accounts bk1 bk3.
Proof.
  intros H12 H23 k a Ha.
  destruct (H12 k a Ha) as (a2 & Ha2 & (I1 & I2 & I3 & I4) & C2).
  destruct (H23 k a2 Ha2) as (a3 & Ha3 & (J1 & J2 & J3 & J4) & C3).
  exists a3. split; [exact Ha3|]. split.
  - repeat split; congruence.
  - intros Hc. specialize (C2 Hc). subst a2. auto.
Qed.

Lemma keeps_accounts_store bk k a a' :
  bk.(accounts_) !! k = Some a → a.(closed) = false → same_identity a a' →
  keeps_accounts bk (store bk k a').
Proof.
  intros Hk Hopen Hid k' b Hb. cbn.
  destruct (decide (k' = k)) as [->|Hne].
  - rewrite lookup_insert_eq. exists a'. rewrite Hk in Hb. inversion Hb; subst b.
    split_and!; [reflexivity | exact Hid | congruence].
  - rewrite lookup_insert_ne by congruence. exists b. auto.
Qed.

Lemma openAccount_keeps bk name pw c initial :
  bank_inv bk → keeps_accounts bk (openAccount bk name pw c initial).1.
Proof.
  intros (Hn & Hacc). unfold openAccount.
  destruct ((size pw =? 0) || (size pw >? 16)); [apply keeps_accounts_refl|].
  intros k a Ha. cbn. exists a.
  rewrite lookup_insert_ne; [auto|].
  intros <-. apply Hacc in Ha. lia.
Qed.

Lemma closeAccount_keeps bk name accNo pw :
  keeps_accounts bk (closeAccount bk name accNo pw).1.
Proof.
  unfold closeAccount.
  destruct (accounts_ bk !! accNo) as [a|] eqn:Ha; [|apply keeps_accounts_refl].
  destruct (closed a) eqn:Hc; [apply keeps_accounts_refl|].
  repeat case_match; try apply keeps_accounts_refl. cbn [fst].
  apply (keeps_accounts_store bk accNo a); auto.
Qed.

Lemma deposit_keeps bk name accNo pw c amount :
  keeps_accounts bk (deposit bk name accNo pw c amount).1.
Proof.
  unfold deposit.
  destruct (accounts_ bk !! accNo) as [a|] eqn:Ha; [|apply keeps_accounts_refl].
  destruct (closed a) eqn:Hc; [apply keeps_accounts_refl|].
  repeat case_match; try apply keeps_accounts_refl. cbn [fst].
  apply (keeps_accounts_store bk accNo a); auto.
Qed.

Lemma withdraw_keeps bk name accNo pw c amount :
  keeps_accounts bk (withdraw bk name accNo pw c amount).1.
Proof.
  unfold withdraw.
  destruct (accounts_ bk !! accNo) as [a|] eqn:Ha; [|apply keeps_accounts_refl].
  destruct (closed a) eqn:Hc; [apply keeps_accounts_refl|].
  repeat case_match; try apply keeps_accounts_refl. cbn [fst].
  apply (keeps_accounts_store bk accNo a); auto.
Qed.

Lemma transfer_keeps bk name fromAccNo pw toAccNo c amount :
  keeps_accounts bk (transfer bk name fromAccNo pw toAccNo c amount).1.
Proof.
  unfold transfer.
  destruct (fromAccNo =? toAccNo) eqn:Hne; [apply keeps_accounts_refl|].
  apply Z.eqb_neq in Hne.
  destruct (accounts_ bk !! fromAccNo) as [a|] eqn:Ha; [|apply keeps_accounts_refl].
  destruct (closed a) eqn:Hca; [apply keeps_accounts_refl|].
  destruct (accounts_ bk !! toAccNo) as [b|] eqn:Hb; [|apply keeps_accounts_refl].
  destruct (closed b) eqn:Hcb; [apply keeps_accounts_refl|].
  repeat case_match; try apply keeps_accounts_refl. cbn [fst].
  apply (keeps_accounts_trans _
           (store bk fromAccNo (with_balance a (Double.sub (balance a) amount)))).
  - apply (keeps_accounts_store bk fromAccNo a); auto.
  - apply (keeps_accounts_store _ toAccNo b); auto.
    cbn. rewrite lookup_insert_ne by congruence. exact Hb.
Qed.

(** X11.  No [Bank] method ever removes an account, changes an account's
    number, name, password or currency, reopens a closed account, or
    changes the balance of a closed account.  ([openAccount] relies on
    the allocator's invariant for it.) *)
Theorem methods_keep_accounts bk :
  bank_inv bk →
  (∀ name pw c initial, keeps_accounts bk (openAccount bk name pw c initial).1) ∧
  (∀ name accNo pw, keeps_accounts bk (closeAccount bk name accNo pw).1) ∧
  (∀ name accNo pw c amount, keeps_accounts bk (deposit bk name accNo pw c amount).1) ∧
  (∀ name accNo pw c amount, keeps_accounts bk (withdraw bk name accNo pw c amount).1) ∧
  (∀ name fromAccNo pw toAccNo c amount,
     keeps_accounts bk (transfer bk name fromAccNo pw toAccNo c amount).1) ∧
  (∀ name accNo pw, keeps_accounts bk (queryBalance bk name accNo pw).1).
Proof.
  intros Hinv. split_and!.
  - intros. apply openAccount_keeps. exact Hinv.
  - intros. apply closeAccount_keeps.
  - intros. apply deposit_keeps.
  - intros. apply withdraw_keeps.
  - intros. apply transfer_keeps.
  - intros. rewrite queryBalance_bank. apply keeps_accounts_refl.
Qed.

Lemma methods_keep_accounts_witness :
  bank_inv two_accounts ∧
  keeps_accounts two_accounts
    (transfer two_accounts (str "alice") 10001 (str "pw") 10002 0 (Double.of_Z 1)).1 ∧
  keeps_accounts two_accounts
    (openAccount two_accounts (str "carol") (str "pw") 1 (Double.of_Z 7)).1.
Proof.
  assert (Hinv : bank_inv two_accounts).
  { apply openAccount_inv; [|vm_compute; reflexivity].
    apply openAccount_inv; [|vm_compute; reflexivity]. exact bank_inv_init. }
  split; [exact Hinv|].
  destruct (methods_keep_accounts two_accounts Hinv) as (Hopen & _ & _ & _ & Htr & _).
  split; [apply Htr | apply Hopen].
Defined.

(** *** Amounts and credentials *)

Lemma not_positive_ltb amount :
  not_positive amount → Double.ltb Double.zero amount = false.
Proof.
  unfold not_positive, Double.ltb, Double.leb, SFltb, SFleb.
  change (Double.to_SF Double.zero) with (S754_zero false).
  destruct (Double.to_SF amount) as [s|s| |s m e]; try destruct s; cbn;
    intros [H|H]; try discriminate; reflexivity.
Qed.

(** X12.  DEPOSIT, WITHDRAW and TRANSFER accept only an amount greater
    than zero.  With an amount that is NaN, zero (of either sign) or
    negative each of them fails and leaves the bank unchanged; on an open
    account with the right name, password and currency the status of
    DEPOSIT and WITHDRAW is then [ERR_BAD_REQUEST]. *)
Theorem amount_must_be_positive bk name accNo pw c amount :
  not_positive amount →
  (∃ err, deposit bk name accNo pw c amount = (bk, Failure err)) ∧
  (∃ err, withdraw bk name accNo pw c amount = (bk, Failure err)) ∧
  (∀ toAccNo, ∃ err, transfer bk name accNo pw toAccNo c amount = (bk, Failure err)) ∧
  (∀ a, bk.(accounts_) !! accNo = Some a → a.(closed) = false →
        a.(Bank.name) = name → a.(password) = pw → a.(currency) = c →
        deposit bk name accNo pw c amount = (bk, Failure ERR_BAD_REQUEST) ∧
        withdraw bk name accNo pw c amount = (bk, Failure ERR_BAD_REQUEST)).
Proof.
  intros Hamt%not_positive_ltb. split_and!.
  - unfold deposit. rewrite Hamt. cbn [negb]. repeat case_match; eauto.
  - unfold withdraw. rewrite Hamt. cbn [negb]. repeat case_match; eauto.
  - intros toAccNo. unfold transfer. rewrite Hamt. cbn [negb]. repeat case_match; eauto.
  - intros a Ha Hc Hname Hpw Hcur. unfold deposit, withdraw.
    rewrite Ha, Hc, Hamt.
    rewrite (proj2 (authMatch_true a name pw)) by auto.
    replace (currency a =? c) with true by lia. split; reflexivity.
Qed.

(** X12 on alice's account: a deposit of NaN and a withdrawal of -5. *)
Lemma amount_must_be_positive_witness :
  not_positive 0x7FF8000000000000 ∧ not_positive (Double.of_Z (-5)) ∧
  deposit alice_bank (str "alice") 10001 (str "pw") 0 0x7FF8000000000000
    = (alice_bank, Failure ERR_BAD_REQUEST) ∧
  withdraw alice_bank (str "alice") 10001 (str "pw") 0 (Double.of_Z (-5))
    = (alice_bank, Failure ERR_BAD_REQUEST).
Proof.
  assert (Hnan : not_positive 0x7FF8000000000000) by (left; vm_compute; reflexivity).
  assert (Hneg : not_positive (Double.of_Z (-5))) by (right; vm_compute; reflexivity).
  split; [exact Hnan|]. split; [exact Hneg|].
  destruct (amount_must_be_positive alice_bank (str "alice") 10001 (str "pw") 0 _ Hnan)
    as (_ & _ & _ & H1).
  destruct (amount_must_be_positive alice_bank (str "alice") 10001 (str "pw") 0 _ Hneg)
    as (_ & _ & _ & H2).
  split.
  - eapply H1; [vm_compute; reflexivity | reflexivity..].
  - eapply H2; [vm_compute; reflexivity | reflexivity..].
Defined.

(** X13.  On an open account, a call whose name or password differs from
    the account's changes nothing and returns [ERR_AUTH], whatever its
    currency and amount; for TRANSFER the credentials checked are those
    of the source account, the destination being any other open
    account. *)
Theorem wrong_credentials bk name accNo pw a :
  bk.(accounts_) !! accNo = Some a → a.(closed) = false →
  a.(Bank.name) ≠ name ∨ a.(password) ≠ pw →
  closeAccount bk name accNo pw = (bk, Failure ERR_AUTH) ∧
  queryBalance bk name accNo pw = (bk, Failure ERR_AUTH) ∧
  (∀ c amount, deposit bk name accNo pw c amount = (bk, Failure ERR_AUTH)) ∧
  (∀ c amount, withdraw bk name accNo pw c amount = (bk, Failure ERR_AUTH)) ∧
  (∀ toAccNo to c amount,
     toAccNo ≠ accNo → bk.(accounts_) !! toAccNo = Some to → to.(closed) = false →
     transfer bk name accNo pw toAccNo c amount = (bk, Failure ERR_AUTH)).
Proof.
  intros Ha Hc Hbad%authMatch_false. split_and!.
  - unfold closeAccount. rewrite Ha, Hc, Hbad. reflexivity.
  - unfold queryBalance. rewrite Ha, Hc, Hbad. reflexivity.
  - intros c amount. unfold deposit. rewrite Ha, Hc, Hbad. reflexivity.
  - intros c amount. unfold withdraw. rewrite Ha, Hc, Hbad. reflexivity.
  - intros toAccNo to c amount Hne Hto Hcto. unfold transfer.
    replace (accNo =? toAccNo) with false by lia.
    rewrite Ha, Hc, Hto, Hcto, Hbad. reflexivity.
Qed.

(** X13 on [two_accounts]: bob, with alice's account number. *)
Lemma wrong_credentials_witness :
  queryBalance two_accounts (str "bob") 10001 (str "pw")
    = (two_accounts, Failure ERR_AUTH) ∧
  transfer two_accounts (str "bob") 10001 (str "pw") 10002 0 (Double.of_Z 1)
    = (two_accounts, Failure ERR_AUTH).
Proof.
  assert (Hbad : str "alice" ≠ str "bob" ∨ str "pw" ≠ str "pw") by (left; discriminate).
  destruct (wrong_credentials two_accounts (str "bob") 10001 (str "pw")
              {| accountNo := 10001; name := str "alice"; password := str "pw";
                 currency := 0; balance := Double.of_Z 3; closed := false |}
              ltac:(vm_compute; reflexivity) eq_refl Hbad)
    as (_ & Hq & _ & _ & Ht).
  split; [exact Hq|].
  eapply Ht; [discriminate | vm_compute; reflexivity | reflexivity].
Defined.

(** *** Successful calls *)

Lemma deposit_Success bk name accNo pw c amount bk' newBal :
  deposit bk name accNo pw c amount = (bk', Success newBal) →
  ∃ a, bk.(accounts_) !! accNo = Some a ∧ a.(closed) = false ∧
       a.(Bank.name) = name ∧ a.(password) = pw ∧ a.(currency) = c ∧
       Double.ltb Double.zero amount = true ∧
       newBal = Double.add a.(balance) amount ∧
       bk' = store bk accNo (with_balance a newBal).
Proof.
  intros H. unfold deposit in H.
  destruct (accounts_ bk !! accNo) as [a|] eqn:Ha; [|discriminate].
  destruct (closed a) eqn:Hc; [discriminate|].
  destruct (authMatch a name pw) eqn:Hauth; [|discriminate].
  destruct (currency a =? c) eqn:Hcur; [|discriminate].
  destruct (Double.ltb Double.zero amount) eqn:Hamt; [|discriminate].
  cbn in H. inversion H; subst; clear H.
  apply authMatch_true in Hauth as (Hname & Hpw). apply Z.eqb_eq in Hcur.
  exists a. split_and!; auto.
Qed.

Lemma withdraw_Success bk name accNo pw c amount bk' newBal :
  withdraw bk name accNo pw c amount = (bk', Success newBal) →
  ∃ a, bk.(accounts_) !! accNo = Some a ∧ a.(closed) = false ∧
       a.(Bank.name) = name ∧ a.(password) = pw ∧ a.(currency) = c ∧
       Double.ltb Double.zero amount = true ∧
       Double.ltb a.(balance) amount = false ∧
       newBal = Double.sub a.(balance) amount ∧
       bk' = store bk accNo (with_balance a newBal).
Proof.
  intros H. unfold withdraw in H.
  destruct (accounts_ bk !! accNo) as [a|] eqn:Ha; [|discriminate].
  destruct (closed a) eqn:Hc; [discriminate|].
  destruct (authMatch a name pw) eqn:Hauth; [|discriminate].
  destruct (currency a =? c) eqn:Hcur; [|discriminate].
  destruct (Double.ltb Double.zero amount) eqn:Hamt; [|discriminate].
  destruct (Double.ltb (balance a) amount) eqn:Hfunds; [discriminate|].
  cbn in H. inversion H; subst; clear H.
  apply authMatch_true in Hauth as (Hname & Hpw). apply Z.eqb_eq in Hcur.
  exists a. split_and!; auto.
Qed.

(** X14.  A successful DEPOSIT or WITHDRAW found an open account with
    the call's name, password and currency and was given an amount
    greater than zero; WITHDRAW moreover found the balance not less than
    the amount.  The balance returned is the rounded sum or difference,
    and the only change to the bank is that balance. *)
Theorem deposit_withdraw_success bk name accNo pw c amount bk' newBal :
  (deposit bk name accNo pw c amount = (bk', Success newBal) →
   ∃ a, bk.(accounts_) !! accNo = Some a ∧ a.(closed) = false ∧
        a.(Bank.name) = name ∧ a.(password) = pw ∧ a.(currency) = c ∧
        Double.ltb Double.zero amount = true ∧
        newBal = Double.add a.(balance) amount ∧
        bk' = store bk accNo (with_balance a newBal)) ∧
  (withdraw bk name accNo pw c amount = (bk', Success newBal) →
   ∃ a, bk.(accounts_) !! accNo = Some a ∧ a.(closed) = false ∧
        a.(Bank.name) = name ∧ a.(password) = pw ∧ a.(currency) = c ∧
        Double.ltb Double.zero amount = true ∧
        Double.ltb a.(balance) amount = false ∧
        newBal = Double.sub a.(balance) amount ∧
        bk' = store bk accNo (with_balance a newBal)).
Proof. split; [apply deposit_Success | apply withdraw_Success]. Qed.

(** X14 on alice's 100: a withdrawal of 30 leaves 70. *)
Lemma deposit_withdraw_success_witness :
  ∃ a, alice_bank.(accounts_) !! 10001 = Some a ∧
       Double.ltb a.(balance) (Double.of_Z 30) = false ∧
       Double.of_Z 70 = Double.sub a.(balance) (Double.of_Z 30).
Proof.
  assert (E : withdraw alice_bank (str "alice") 10001 (str "pw") 0 (Double.of_Z 30)
              = ((withdraw alice_bank (str "alice") 10001 (str "pw") 0 (Double.of_Z 30)).1,
                 Success (Double.of_Z 70))) by (vm_compute; reflexivity).
  destruct (proj2 (deposit_withdraw_success _ _ _ _ _ _ _ _) E)
    as (a & Ha & _ & _ & _ & _ & _ & Hf & Hb & _).
  exists a. split_and!; assumption.
Defined.

Lemma queryBalance_open bk accNo a :
  bk.(accounts_) !! accNo = Some a → a.(closed) = false →
  queryBalance bk a.(Bank.name) accNo a.(password)
    = (bk, Success (a.(currency), a.(balance))).
Proof.
  intros Ha Hc. unfold queryBalance. rewrite Ha, Hc.
  rewrite (proj2 (authMatch_true a _ _)) by auto. reflexivity.
Qed.

(** X15.  QUERY_BALANCE reads what the call before it wrote: right after
    a successful OPEN, DEPOSIT or WITHDRAW, a query with the same name,
    account number and password returns the call's currency and the
    balance the call returned; after a successful TRANSFER it returns the
    source balance the transfer returned, and the destination account
    holds the destination balance returned. *)
Theorem read_your_writes bk name accNo pw c amount bk' :
  (∀ bal, openAccount bk name pw c amount = (bk', Success (accNo, bal)) →
     queryBalance bk' name accNo pw = (bk', Success (c, bal))) ∧
  (∀ newBal, deposit bk name accNo pw c amount = (bk', Success newBal) →
     queryBalance bk' name accNo pw = (bk', Success (c, newBal))) ∧
  (∀ newBal, withdraw bk name accNo pw c amount = (bk', Success newBal) →
     queryBalance bk' name accNo pw = (bk', Success (c, newBal))) ∧
  (∀ toAccNo fromBal toBal,
     transfer bk name accNo pw toAccNo c amount = (bk', Success (fromBal, toBal)) →
     queryBalance bk' name accNo pw = (bk', Success (c, fromBal)) ∧
     (λ a, (a.(currency), a.(balance))) <$> getAccount bk' toAccNo = Some (c, toBal)).
Proof.
  split_and!.
  - intros bal H. unfold openAccount in H.
    destruct ((size pw =? 0) || (size pw >? 16)); [discriminate|].
    inversion H; subst; clear H.
    apply (queryBalance_open _ _
             {| accountNo := nextAccNo_ bk; name := name; password := pw;
                currency := c; balance := _; closed := false |});
      [apply lookup_insert_eq | reflexivity].
  - intros newBal H.
    destruct (deposit_Success _ _ _ _ _ _ _ _ H)
      as (a & Ha & Hc & <- & <- & <- & _ & _ & ->).
    apply (queryBalance_open _ _ (with_balance a newBal));
      [apply lookup_insert_eq | exact Hc].
  - intros newBal H.
    destruct (withdraw_Success _ _ _ _ _ _ _ _ H)
      as (a & Ha & Hc & <- & <- & <- & _ & _ & _ & ->).
    apply (queryBalance_open _ _ (with_balance a newBal));
      [apply lookup_insert_eq | exact Hc].
  - intros toAccNo fromBal toBal H. unfold transfer in H.
    destruct (accNo =? toAccNo) eqn:Hne; [discriminate|]. apply Z.eqb_neq in Hne.
    destruct (accounts_ bk !! accNo) as [a|] eqn:Ha; [|discriminate].
    destruct (closed a) eqn:Hca; [discriminate|].
    destruct (accounts_ bk !! toAccNo) as [b|] eqn:Hb; [|discriminate].
    destruct (closed b) eqn:Hcb; [discriminate|].
    destruct (authMatch a name pw) eqn:Hauth; [|discriminate].
    destruct (currency a =? c) eqn:Hcur; [|discriminate].
    destruct (currency b =? c) eqn:Hcur'; [|discriminate].
    repeat (case_match; try discriminate).
    cbn in H. inversion H; subst; clear H.
    apply authMatch_true in Hauth as (<- & <-).
    apply Z.eqb_eq in Hcur, Hcur'. subst c. split.
    + apply (queryBalance_open _ _ (with_balance a (Double.sub (balance a) amount)));
        [|exact Hca].
      cbn. rewrite lookup_insert_ne by congruence. apply lookup_insert_eq.
    + unfold getAccount. cbn. rewrite lookup_insert_eq. cbn. congruence.
Qed.


(** X15 on alice's 100: after a deposit of 50 the query returns 150. *)
Lemma read_your_writes_witness :
  let bk' := (deposit alice_bank (str "alice") 10001 (str "pw") 0 (Double.of_Z 50)).1 in
  queryBalance bk' (str "alice") 10001 (str "pw")
    = (bk', Success (0, Double.of_Z 150)).
Proof.
  intros bk'.
  destruct (read_your_writes alice_bank (str "alice") 10001 (str "pw") 0
              (Double.of_Z 50) bk') as (_ & Hdep & _).
  apply Hdep. vm_compute. reflexivity.
Defined.

(** X16.  A successful CLOSE found an open account with the call's name
    and password, and only sets its [closed] flag: the record stays in
    the map with its currency and balance, which is what [getAccount]
    hands to the callback.  From then on CLOSE, QUERY_BALANCE, DEPOSIT
    and WITHDRAW on that number return [ERR_NOT_FOUND], with the owner's
    credentials as with any others. *)
Theorem close_is_final bk name accNo pw bk' :
  closeAccount bk name accNo pw = (bk', Success ()) →
  ∃ a, bk.(accounts_) !! accNo = Some a ∧ a.(closed) = false ∧
       a.(Bank.name) = name ∧ a.(password) = pw ∧
       bk' = store bk accNo (with_closed a true) ∧
       getAccount bk' accNo = Some (with_closed a true) ∧
       ∀ name' pw',
         closeAccount bk' name' accNo pw' = (bk', Failure ERR_NOT_FOUND) ∧
         queryBalance bk' name' accNo pw' = (bk', Failure ERR_NOT_FOUND) ∧
         (∀ c amount,
            deposit bk' name' accNo pw' c amount = (bk', Failure ERR_NOT_FOUND) ∧
            withdraw bk' name' accNo pw' c amount = (bk', Failure ERR_NOT_FOUND)).
Proof.
  intros H. unfold closeAccount in H.
  destruct (accounts_ bk !! accNo) as [a|] eqn:Ha; [|discriminate].
  destruct (closed a) eqn:Hc; [discriminate|].
  destruct (authMatch a name pw) eqn:Hauth; [|discriminate].
  cbn in H. inversion H; subst; clear H.
  apply authMatch_true in Hauth as (Hname & Hpw).
  exists a. split_and!; auto.
  - unfold getAccount. cbn. apply lookup_insert_eq.
  - assert (Hun : unavailable (accounts_ (store bk accNo (with_closed a true)) !! accNo)
                  = true) by (cbn; rewrite lookup_insert_eq; reflexivity).
    intros name' pw'. split_and!.
    + apply closeAccount_unavailable, Hun.
    + apply queryBalance_unavailable, Hun.
    + intros c amount. split.
      * apply deposit_unavailable, Hun.
      * apply withdraw_unavailable, Hun.
Qed.

(** X16 on alice's account: closed by her, then queried by her. *)
Lemma close_is_final_witness :
  let bk' := (closeAccount alice_bank (str "alice") 10001 (str "pw")).1 in
  (balance <$> getAccount bk' 10001) = Some (Double.of_Z 100) ∧
  queryBalance bk' (str "alice") 10001 (str "pw") = (bk', Failure ERR_NOT_FOUND).
Proof.
  intros bk'.
  assert (E : closeAccount alice_bank (str "alice") 10001 (str "pw") = (bk', Success ()))
    by (vm_compute; reflexivity).
  destruct (close_is_final _ _ _ _ _ E) as (a & Ha & _ & _ & _ & _ & Hget & Hnf).
  split.
  - rewrite Hget. cbn. f_equal.
    assert (Ha' : alice_bank.(accounts_) !! 10001
                  = Some {| accountNo := 10001; name := str "alice"; password := str "pw";
                            currency := 0; balance := Double.of_Z 100; closed := false |})
      by (vm_compute; reflexivity).
    rewrite Ha' in Ha. inversion Ha. reflexivity.
  - apply Hnf.
Defined.

End LedgerFacts.

(** * The server's loop, continued *)

Module DispatchFacts.
Import proto Server ServerFacts.

Lemma callbacks_app evs1 evs2 :
  callbacks (evs1 ++ evs2) = callbacks evs1 ++ callbacks evs2.
Proof. apply omap_app. Qed.

(** The loop body, read through [accepted]. *)
Lemma iteration_spec to_string s i :
  iteration to_string s i =
    let s0 := cleanup s i.(now_top) in
    match accepted i with
    | None => (s0, [])
    | Some (clientAddr, req) =>
        let key := dedupKey clientAddr req.(h).(requestId) in
        match (if wants_at_most_once req then s0.(dedup) !! key else None) with
        | Some it =>
            (s0, if i.(lossRep_hit) then [] else [ReplySent clientAddr it.(replyBytes)])
        | None =>
            let r := handle to_string s0.(bank) s0.(monitors) clientAddr req i.(now_op) in
            let repBytes := encode (reply_to req r.(h_status) r.(h_body)) in
            ({| bank := r.(h_bank); monitors := r.(h_monitors);
                dedup := if wants_at_most_once req
                         then <[key := {| replyBytes := repBytes;
                                          expireAt := i.(now_ins) + seconds 60 |}]>
                                s0.(dedup)
                         else s0.(dedup) |},
             r.(h_events) ++
             (if i.(lossRep_hit) then [] else [ReplySent clientAddr repBytes]))
        end
    end.
Proof.
  unfold iteration, accepted, wants_at_most_once, reply_to, dedupKey.
  destruct (recvfrom i) as [[clientAddr data]|]; [|reflexivity].
  destruct (lossReq_hit i); [reflexivity|].
  destruct (decode (take 2048 data)) as [req|]; [|reflexivity].
  destruct (negb (version (h req) =? VERSION)
            || negb (msgType (h req) =? MsgType_code Request)); reflexivity.
Qed.

Lemma replies_reply (lost : bool) addr data :
  replies (if lost then [] else [ReplySent addr data])
  = if lost then [] else [(addr, data)].
Proof. destruct lost; reflexivity. Qed.

Lemma invocations_reply (lost : bool) addr data :
  invocations (if lost then [] else [ReplySent addr data]) = [].
Proof. destruct lost; reflexivity. Qed.

Lemma callbacks_reply (lost : bool) addr data :
  callbacks (if lost then [] else [ReplySent addr data]) = [].
Proof. destruct lost; reflexivity. Qed.

(** X17.  An arrival is either passed over or answered.  When [recvfrom]
    fails, the request-loss draw hits, the datagram does not decode, or
    its version is not 1 or its type not Request, the iteration does
    nothing but the periodic cleanup: no reply, no callback, no [Bank]
    call.  Otherwise it sends exactly one reply, to the sender of the
    datagram, unless the reply-loss draw hits, and then it sends none. *)
Theorem dropped_or_answered to_string s i :
  (accepted i = None → iteration to_string s i = (cleanup s i.(now_top), [])) ∧
  (∀ clientAddr req, accepted i = Some (clientAddr, req) →
     ∃ data, replies (iteration to_string s i).2
             = if i.(lossRep_hit) then [] else [(clientAddr, data)]).
Proof.
  rewrite iteration_spec. cbv zeta. split.
  - intros ->. reflexivity.
  - intros clientAddr req ->.
    destruct (if wants_at_most_once req then _ else None) as [it|].
    + exists it.(replyBytes). apply replies_reply.
    + eexists. cbn [snd]. rewrite replies_app, handle_replies, replies_reply.
      reflexivity.
Qed.

Lemma dropped_or_answered_witness :
  iteration (λ _, []) alice_server silence = (cleanup alice_server 0, []) ∧
  ∃ data, replies (iteration (λ _, []) alice_server (deposit_arrival false)).2
          = [(localhost 5000, data)].
Proof.
  destruct (dropped_or_answered (λ _, []) alice_server silence) as [Hdrop _].
  destruct (dropped_or_answered (λ _, []) alice_server (deposit_arrival false))
    as [_ Hans].
  split; [exact (Hdrop eq_refl)|].
  apply (Hans (localhost 5000) deposit_request). vm_compute. reflexivity.
Defined.

(** X18.  A request whose flags bit 0 is clear is handled whatever the
    reply cache holds: the cache is neither read nor written, so the
    events of the iteration and the bank and monitors after it are the
    same for any two states that differ in the cache only, and every
    arrival of the request runs the operation again. *)
Theorem flag_clear_ignores_cache to_string s s' i clientAddr req :
  accepted i = Some (clientAddr, req) →
  Z.land req.(h).(flags) FLAG_AT_MOST_ONCE = 0 →
  s'.(bank) = s.(bank) → s'.(monitors) = s.(monitors) →
  let r := handle to_string s.(bank) (cleanup s i.(now_top)).(monitors)
             clientAddr req i.(now_op) in
  (iteration to_string s i).1.(bank) = r.(h_bank) ∧
  (iteration to_string s i).1.(dedup) = (cleanup s i.(now_top)).(dedup) ∧
  invocations (iteration to_string s i).2 = invocations r.(h_events) ∧
  (iteration to_string s' i).2 = (iteration to_string s i).2 ∧
  (iteration to_string s' i).1.(bank) = (iteration to_string s i).1.(bank) ∧
  (iteration to_string s' i).1.(monitors) = (iteration to_string s i).1.(monitors).
Proof.
  intros Hacc Hflag Hbank Hmons r. subst r.
  rewrite !iteration_spec. cbv zeta. rewrite Hacc.
  unfold wants_at_most_once. rewrite Hflag. cbn [Z.eqb negb].
  assert (Hm : monitors (cleanup s' (now_top i)) = monitors (cleanup s (now_top i)))
    by (unfold cleanup; cbn [monitors]; rewrite Hmons; reflexivity).
  assert (Hb : bank (cleanup s' (now_top i)) = bank (cleanup s (now_top i)))
    by (unfold cleanup; cbn [bank]; exact Hbank).
  rewrite Hm, Hb. cbn [fst snd bank monitors dedup].
  split_and!; try reflexivity.
  rewrite invocations_app, invocations_reply, app_nil_r. reflexivity.
Qed.

(** X18 on the DEPOSIT request 7, with and without a cached reply under
    its key. *)
Lemma flag_clear_ignores_cache_witness :
  (iteration (λ _, []) alice_server_cached (deposit_arrival false)).2
  = (iteration (λ _, []) alice_server (deposit_arrival false)).2 ∧
  invocations (iteration (λ _, []) alice_server_cached (deposit_arrival false)).2
  = [DEPOSIT].
Proof.
  assert (Hacc : accepted (deposit_arrival false) = Some (localhost 5000, deposit_request))
    by (vm_compute; reflexivity).
  destruct (flag_clear_ignores_cache (λ _, []) alice_server alice_server_cached
              (deposit_arrival false) (localhost 5000) deposit_request
              Hacc eq_refl eq_refl eq_refl) as (_ & _ & _ & Hev & _).
  split; [exact Hev|]. rewrite Hev. vm_compute. reflexivity.
Defined.

(** X19.  The reply-loss draw decides nothing but whether the reply is
    sent: two iterations that differ in that draw alone end in the same
    state and make the same [Bank] calls and the same callbacks; the one
    whose draw hits sends no reply. *)
Theorem reply_loss_hides_only_the_reply to_string s i i' :
  i.(now_top) = i'.(now_top) → i.(recvfrom) = i'.(recvfrom) →
  i.(lossReq_hit) = i'.(lossReq_hit) → i.(now_op) = i'.(now_op) →
  i.(now_ins) = i'.(now_ins) →
  i.(lossRep_hit) = true → i'.(lossRep_hit) = false →
  (iteration to_string s i).1 = (iteration to_string s i').1 ∧
  invocations (iteration to_string s i).2 = invocations (iteration to_string s i').2 ∧
  callbacks (iteration to_string s i).2 = callbacks (iteration to_string s i').2 ∧
  replies (iteration to_string s i).2 = [].
Proof.
  intros Htop Hrecv Hreq Hop Hins Hlost Hsent.
  assert (Hacc : accepted i = accepted i')
    by (unfold accepted; rewrite Hrecv, Hreq; reflexivity).
  rewrite !iteration_spec. cbv zeta.
  rewrite Hacc, Htop, Hop, Hins, Hlost, Hsent.
  destruct (accepted i') as [[clientAddr req]|]; [|done].
  destruct (if wants_at_most_once req then _ else None) as [it|]; [done|].
  cbn [fst snd].
  rewrite !invocations_app, !callbacks_app, !replies_app, handle_replies, !app_nil_r.
  done.
Qed.

Lemma reply_loss_hides_only_the_reply_witness :
  (iteration (λ _, []) alice_server (deposit_arrival true)).1
  = (iteration (λ _, []) alice_server (deposit_arrival false)).1 ∧
  replies (iteration (λ _, []) alice_server (deposit_arrival true)).2 = [].
Proof.
  destruct (reply_loss_hides_only_the_reply (λ _, []) alice_server
              (deposit_arrival true) (deposit_arrival false)
              eq_refl eq_refl eq_refl eq_refl eq_refl eq_refl eq_refl)
    as (Hst & _ & _ & Hrep).
  split; [exact Hst | exact Hrep].
Defined.

(** *** The bank across the loop *)

Lemma bank_step_refl bk : bank_inv bk → bank_step bk bk.
Proof.
  intros Hinv. split_and!; [exact Hinv | apply LedgerFacts.keeps_accounts_refl | lia..].
Qed.

Lemma bank_step_trans bk1 bk2 bk3 n m :
  bank_inv bk2 → keeps_accounts bk1 bk2 →
  bk1.(Bank.nextAccNo_) ≤ bk2.(Bank.nextAccNo_) ≤ bk1.(Bank.nextAccNo_) + n →
  bank_inv bk3 → keeps_accounts bk2 bk3 →
  bk2.(Bank.nextAccNo_) ≤ bk3.(Bank.nextAccNo_) ≤ bk2.(Bank.nextAccNo_) + m →
  keeps_accounts bk1 bk3 ∧
  bk1.(Bank.nextAccNo_) ≤ bk3.(Bank.nextAccNo_) ≤ bk1.(Bank.nextAccNo_) + (n + m).
Proof.
  intros _ K12 N12 _ K23 N23. split; [|lia].
  eapply LedgerFacts.keeps_accounts_trans; eassumption.
Qed.

Lemma openAccount_next bk name pw c initial :
  bank_inv bk → bk.(Bank.nextAccNo_) < 2^31 - 1 →
  bk.(Bank.nextAccNo_) ≤ (Bank.openAccount bk name pw c initial).1.(Bank.nextAccNo_)
    ≤ bk.(Bank.nextAccNo_) + 1.
Proof.
  intros (Hn & _) Hnext. unfold Bank.openAccount.
  destruct ((size pw =? 0) || (size pw >? 16)); cbn; [lia|].
  rewrite LedgerFacts.i32_small by lia. lia.
Qed.

Lemma closeAccount_next bk name accNo pw :
  (Bank.closeAccount bk name accNo pw).1.(Bank.nextAccNo_) = bk.(Bank.nextAccNo_).
Proof. unfold Bank.closeAccount. repeat case_match; reflexivity. Qed.

Lemma deposit_next bk name accNo pw c amount :
  (Bank.deposit bk name accNo pw c amount).1.(Bank.nextAccNo_) = bk.(Bank.nextAccNo_).
Proof. unfold Bank.deposit. repeat case_match; reflexivity. Qed.

Lemma withdraw_next bk name accNo pw c amount :
  (Bank.withdraw bk name accNo pw c amount).1.(Bank.nextAccNo_) = bk.(Bank.nextAccNo_).
Proof. unfold Bank.withdraw. repeat case_match; reflexivity. Qed.

Lemma transfer_next bk name fromAccNo pw toAccNo c amount :
  (Bank.transfer bk name fromAccNo pw toAccNo c amount).1.(Bank.nextAccNo_)
  = bk.(Bank.nextAccNo_).
Proof. unfold Bank.transfer. repeat case_match; reflexivity. Qed.

(** Name the bank a [Bank] call returned by the call itself. *)
Ltac name_bank :=
  match goal with
  | H : ?call = (?bk', _) |- _ =>
      is_var bk';
      let E := fresh in
      assert (E : bk' = call.1) by (rewrite H; reflexivity);
      clear H; subst bk'
  end.

Lemma handle_bank_step to_string bk mons clientAddr req now_op :
  bank_inv bk → bk.(Bank.nextAccNo_) < 2^31 - 1 →
  bank_step bk (handle to_string bk mons clientAddr req now_op).(h_bank).
Proof.
  intros Hinv Hnext. unfold handle, bad_request.
  repeat case_match; subst; cbn [h_bank];
    try (apply bank_step_refl; exact Hinv);
    name_bank; unfold bank_step.
  all: first
    [ split_and!;
      [ apply LedgerFacts.openAccount_inv; assumption
      | apply LedgerFacts.openAccount_keeps; assumption
      | apply openAccount_next; assumption
      | apply openAccount_next; assumption ]
    | rewrite closeAccount_next; split_and!;
      [ apply LedgerFacts.closeAccount_inv; assumption
      | apply LedgerFacts.closeAccount_keeps | lia | lia ]
    | rewrite deposit_next; split_and!;
      [ apply LedgerFacts.deposit_inv; assumption
      | apply LedgerFacts.deposit_keeps | lia | lia ]
    | rewrite withdraw_next; split_and!;
      [ apply LedgerFacts.withdraw_inv; assumption
      | apply LedgerFacts.withdraw_keeps | lia | lia ]
    | rewrite transfer_next; split_and!;
      [ apply LedgerFacts.transfer_inv; assumption
      | apply LedgerFacts.transfer_keeps | lia | lia ]
    | rewrite BankFacts.queryBalance_bank; apply bank_step_refl; exact Hinv ].
Qed.

Lemma iteration_bank_step to_string s i :
  bank_inv s.(bank) → s.(bank).(Bank.nextAccNo_) < 2^31 - 1 →
  bank_step s.(bank) (iteration to_string s i).1.(bank).
Proof.
  intros Hinv Hnext. rewrite iteration_spec. cbv zeta.
  destruct (accepted i) as [[clientAddr req]|]; [|apply bank_step_refl; exact Hinv].
  destruct (if wants_at_most_once req then _ else None) as [it|];
    [apply bank_step_refl; exact Hinv|].
  cbn [fst bank]. apply handle_bank_step; assumption.
Qed.

Lemma run_cons to_string s i inputs :
  run to_string s (i :: inputs) =
    ((run to_string (iteration to_string s i).1 inputs).1,
     (iteration to_string s i).2 ++ (run to_string (iteration to_string s i).1 inputs).2).
Proof.
  cbn [run]. destruct (iteration to_string s i) as [s1 ev1]. cbn [fst snd].
  destruct (run to_string s1 inputs) as [s2 ev2]. reflexivity.
Qed.

(** X20.  The loop keeps the bank sound.  From a state whose bank
    satisfies the allocator's invariant, and for fewer arrivals than
    account numbers are left below 2^31, the bank after the loop still
    satisfies the invariant, has every account it had, each with its
    number, name, password and currency and each closed one untouched,
    and has issued at most one number per arrival. *)
Theorem run_keeps_bank_inv to_string inputs : ∀ s,
  bank_inv s.(bank) →
  s.(bank).(Bank.nextAccNo_) + Z.of_nat (length inputs) < 2^31 →
  let bk' := (run to_string s inputs).1.(bank) in
  bank_inv bk' ∧ keeps_accounts s.(bank) bk' ∧
  s.(bank).(Bank.nextAccNo_) ≤ bk'.(Bank.nextAccNo_)
    ≤ s.(bank).(Bank.nextAccNo_) + Z.of_nat (length inputs).
Proof.
  induction inputs as [|i inputs IH]; intros s Hinv Hn; cbv zeta.
  - cbn. split_and!; [exact Hinv | apply LedgerFacts.keeps_accounts_refl | lia..].
  - rewrite run_cons. cbn [fst]. cbn [length] in Hn |- *.
    destruct (iteration_bank_step to_string s i Hinv ltac:(lia)) as (Hinv1 & Hk1 & Hn1).
    destruct (IH (iteration to_string s i).1 Hinv1 ltac:(lia)) as (Hinv2 & Hk2 & Hn2).
    split_and!; [exact Hinv2 | | lia | lia].
    eapply LedgerFacts.keeps_accounts_trans; eassumption.
Qed.

(** X20 on the three arrivals of [late_resends] at a fresh server. *)
Lemma run_keeps_bank_inv_witness :
  let bk' := (run (λ _, []) initial late_resends).1.(bank) in
  bank_inv bk' ∧ 10001 ≤ bk'.(Bank.nextAccNo_) ≤ 10004.
Proof.
  intros bk'.
  destruct (run_keeps_bank_inv (λ _, []) late_resends initial
              LedgerFacts.bank_inv_init ltac:(vm_compute; reflexivity))
    as (Hinv & _ & Hn).
  split; [exact Hinv | exact Hn].
Defined.

(** *** Callbacks *)

Lemma callbacks_sendUpdateCallback mons op accNo cur bal info :
  (callbacks (sendUpdateCallback mons op accNo cur bal info)).*1 = addr <$> mons.
Proof.
  unfold sendUpdateCallback. induction mons as [|m mons IH]; [reflexivity|].
  cbn. f_equal. exact IH.
Qed.

Lemma cleanup_monitors s t m :
  m ∈ (cleanup s t).(monitors) ↔ m ∈ s.(monitors) ∧ t < m.(m_expireAt).
Proof. unfold cleanup. cbn [monitors]. rewrite list_elem_of_filter. intuition lia. Qed.

Lemma handle_callbacks to_string bk mons clientAddr req now_op :
  let r := handle to_string bk mons clientAddr req now_op in
  (callbacks r.(h_events)).*1 =
    if r.(h_status) =? Status_code OK
    then mjoin (replicate (update_rounds req.(h).(opCode)) (addr <$> mons))
    else [].
Proof.
  unfold update_rounds. handle_cases;
    repeat match goal with
           | H : ?err ≠ OK |- _ => destruct err; [contradiction|..]; clear H
           | H : (_ =? Status_code OK) = _ |- _ =>
               cbn in H; try discriminate H; clear H
           end;
    cbn [callbacks omap list_omap replicate mjoin list_join app];
    rewrite ?fmap_app, ?callbacks_app, ?fmap_app, ?callbacks_sendUpdateCallback,
      ?app_nil_r;
    reflexivity.
Qed.

(** X21.  A request answered with OK notifies every monitor in the list,
    in registration order: once for OPEN, CLOSE, DEPOSIT and WITHDRAW,
    twice for TRANSFER (source account first, then destination), never
    for QUERY_BALANCE and MONITOR_REGISTER; a request answered with
    another status notifies nobody.  Within the loop the list is the one
    the cleanup left: every callback goes to a monitor that was
    registered before the iteration and whose expiry is later than the
    time the iteration began. *)
Theorem callback_fanout to_string s i bk mons clientAddr req now :
  (let r := handle to_string bk mons clientAddr req now in
   (callbacks r.(h_events)).*1 =
     if r.(h_status) =? Status_code OK
     then mjoin (replicate (update_rounds req.(h).(opCode)) (addr <$> mons))
     else []) ∧
  (∀ to data, (to, data) ∈ callbacks (iteration to_string s i).2 →
     ∃ m, m ∈ s.(monitors) ∧ m.(addr) = to ∧ i.(now_top) < m.(m_expireAt)).
Proof.
  split; [apply handle_callbacks|].
  intros to data. rewrite iteration_spec. cbv zeta.
  destruct (accepted i) as [[clientAddr' req']|]; [|intros []%elem_of_nil].
  destruct (if wants_at_most_once req' then _ else None) as [it|].
  - cbn [snd]. rewrite callbacks_reply. intros []%elem_of_nil.
  - cbn [snd]. rewrite callbacks_app, callbacks_reply, app_nil_r. intros Hin.
    assert (Hto : to ∈ (callbacks
              (h_events (handle to_string (bank (cleanup s (now_top i)))
                           (monitors (cleanup s (now_top i))) clientAddr' req'
                           (now_op i)))).*1).
    { apply list_elem_of_fmap. exists (to, data). split; [reflexivity | exact Hin]. }
    pose proof (handle_callbacks to_string (bank (cleanup s (now_top i)))
                  (monitors (cleanup s (now_top i))) clientAddr' req' (now_op i)) as Hcb.
    cbv zeta in Hcb. rewrite Hcb in Hto. clear Hcb Hin.
    destruct (_ =? Status_code OK); [|apply elem_of_nil in Hto; contradiction].
    apply list_elem_of_join in Hto as (l & Hto & Hl).
    apply elem_of_replicate in Hl as [-> _].
    apply list_elem_of_fmap in Hto as (m & -> & Hm).
    apply cleanup_monitors in Hm as [Hm Ht]. eauto.
Qed.

(** X21 on a DEPOSIT into alice's account with [watcher] registered. *)
Lemma callback_fanout_witness :
  (callbacks (handle (λ _, []) alice_bank [watcher] (localhost 5000)
                deposit_request 0).(h_events)).*1 = [localhost 6000] ∧
  match callbacks (iteration (λ _, []) alice_server (deposit_arrival false)).2 with
  | (to, _) :: _ =>
      ∃ m, m ∈ alice_server.(monitors) ∧ m.(addr) = to ∧ 0 < m.(m_expireAt)
  | [] => False
  end.
Proof.
  destruct (callback_fanout (λ _, []) alice_server (deposit_arrival false)
              alice_bank [watcher] (localhost 5000) deposit_request 0) as [Hfan Httl].
  split.
  - etrans; [exact Hfan|]. vm_compute. reflexivity.
  - destruct (callbacks (iteration (λ _, []) alice_server (deposit_arrival false)).2)
      as [|[to data] l] eqn:E.
    + vm_compute in E. discriminate E.
    + apply (Httl to data). left.
Defined.

(** *** The reply *)

Lemma decode_flags_range raw m : decode raw = Some m → 0 ≤ m.(h).(flags) < 2^16.
Proof.
  rewrite CodecFacts.decode_spec. repeat case_match; try discriminate.
  intros [= <-]. cbn. unfold rd16, u16. apply Z.mod_pos_bound. lia.
Qed.

Lemma decode_requestId_range raw m : decode raw = Some m → 0 ≤ m.(h).(requestId) < 2^64.
Proof.
  rewrite CodecFacts.decode_spec. repeat case_match; try discriminate.
  intros [= <-]. cbn. apply WireFacts.rd64_range.
Qed.

Lemma encode_size m : size (encode m) = 24 + size m.(body).
Proof.
  destruct m as [[mg ver ty op fl st rid bl] bd].
  rewrite <- (app_nil_r (encode _)), CodecFacts.encode_app, CodecFacts.header_size.
  rewrite app_nil_r. reflexivity.
Qed.

Lemma pretty_N_go_length k : ∀ x s,
  (x < 10 ^ N.of_nat k)%N →
  (String.length (pretty_N_go x s) ≤ String.length s + k)%nat.
Proof.
  induction k as [|k IH]; intros x s Hx.
  - assert (x = 0%N) as -> by (cbn in Hx; lia). rewrite pretty_N_go_0. lia.
  - destruct (decide (x = 0%N)) as [->|Hne]; [rewrite pretty_N_go_0; lia|].
    rewrite pretty_N_go_step by lia.
    etrans; [apply IH|cbn; lia].
    rewrite Nat2N.inj_succ, N.pow_succ_r' in Hx.
    apply N.Div0.div_lt_upper_bound. lia.
Qed.

Lemma pretty_u16_length (v : Z) : 0 ≤ v < 2^16 → (String.length (pretty v) ≤ 5)%nat.
Proof.
  intros Hv. destruct v as [|p|p]; [cbn; lia | | lia].
  unfold pretty, pretty_Z, pretty, pretty_positive, pretty, pretty_N.
  case_decide; [cbn; lia|].
  apply (pretty_N_go_length 5 (N.pos p) ""). cbn. lia.
Qed.

Lemma size_str s : size (str s) = Z.of_nat (String.length s).
Proof.
  unfold size. f_equal. induction s as [|c s IH]; [reflexivity|]. cbn. f_equal. exact IH.
Qed.

Lemma size_putString_le b s : size (putString b s) ≤ size b + 2 + size s.
Proof.
  unfold putString, putU16. pose proof (WireFacts.size_nonneg s).
  destruct (size s >? 65535); rewrite ?WireFacts.size_app; [lia|].
  change (size (putBE16 _)) with 2. lia.
Qed.

Lemma getU16_range b off v off' : getU16 b off = Some (v, off') → 0 ≤ v < 2^16.
Proof.
  unfold getU16, getBE16. repeat case_match; try discriminate.
  intros [= <- _]. unfold u16. apply Z.mod_pos_bound. lia.
Qed.

Lemma handle_body_small to_string bk mons clientAddr req now_op :
  size (handle to_string bk mons clientAddr req now_op).(h_body) ≤ 31.
Proof.
  unfold handle, bad_request.
  repeat case_match; subst; cbn [h_body];
    try (vm_compute; discriminate);
    try (unfold putDouble, putU64, putI32, putU32, putU16;
         rewrite !WireFacts.size_app;
         change (size (putBE64 _)) with 8; change (size (putBE32 _)) with 4;
         change (size (putBE16 _)) with 2; change (size []) with 0; lia).
  match goal with H : getU16 _ _ = Some (?secs, _) |- _ =>
    apply getU16_range, pretty_u16_length in H;
    etrans; [apply size_putString_le|];
    rewrite !WireFacts.size_app, !size_str; cbn [String.length]; change (size []) with 0; lia
  end.
Qed.

Lemma reply_to_well_formed req st bd :
  0 ≤ req.(h).(opCode) < 2^16 → 0 ≤ req.(h).(flags) < 2^16 →
  0 ≤ req.(h).(requestId) < 2^64 → 0 ≤ st < 2^16 → size bd < 2^32 →
  well_formed (reply_to req st bd).
Proof.
  intros Hop Hfl Hrid Hst Hbd. pose proof (WireFacts.size_nonneg bd).
  unfold well_formed, header_in_range, reply_to, MAGIC, VERSION, u32.
  cbn [h body magic version msgType opCode flags status requestId bodyLen MsgType_code].
  rewrite Z.mod_small by lia. lia.
Qed.

Lemma accepted_Some i clientAddr req :
  accepted i = Some (clientAddr, req) →
  ∃ data, i.(recvfrom) = Some (clientAddr, data) ∧ i.(lossReq_hit) = false ∧
          decode (take 2048 data) = Some req ∧
          req.(h).(version) = VERSION ∧ req.(h).(msgType) = MsgType_code Request.
Proof.
  unfold accepted.
  destruct (recvfrom i) as [[a data]|]; [|discriminate].
  destruct (lossReq_hit i); [discriminate|].
  destruct (decode (take 2048 data)) as [m|] eqn:Hdec; [|discriminate].
  destruct (version (h m) =? VERSION) eqn:Hv; [|discriminate].
  destruct (msgType (h m) =? MsgType_code Request) eqn:Hty; [|discriminate].
  apply Z.eqb_eq in Hv, Hty.
  cbn. intros [= <- <-]. exists data. split_and!; auto.
Qed.

Lemma fresh_reply to_string s i clientAddr req :
  accepted i = Some (clientAddr, req) →
  (wants_at_most_once req = true →
   (cleanup s i.(now_top)).(dedup) !! dedupKey clientAddr req.(h).(requestId) = None) →
  i.(lossRep_hit) = false →
  let r := handle to_string s.(bank) (cleanup s i.(now_top)).(monitors)
             clientAddr req i.(now_op) in
  let data := encode (reply_to req r.(h_status) r.(h_body)) in
  replies (iteration to_string s i).2 = [(clientAddr, data)] ∧
  size data ≤ 55 ∧
  decode (take 2048 data) = Some (reply_to req r.(h_status) r.(h_body)).
Proof.
  intros Hacc Hmiss Hrep r data.
  destruct (accepted_Some _ _ _ Hacc) as (raw & _ & _ & Hdec & _ & _).
  pose proof (handle_body_small to_string s.(bank) (cleanup s i.(now_top)).(monitors)
                clientAddr req i.(now_op)) as Hsmall. fold r in Hsmall.
  assert (Hsize : size data ≤ 55) by (unfold data; rewrite encode_size; cbn [body reply_to]; lia).
  split_and!.
  - rewrite iteration_spec. cbv zeta. rewrite Hacc, Hrep.
    destruct (wants_at_most_once req) eqn:Hw; [rewrite (Hmiss eq_refl)|];
      cbn [snd]; rewrite replies_app, handle_replies; reflexivity.
  - exact Hsize.
  - rewrite take_ge by (unfold size in Hsize; lia).
    unfold data. rewrite <- (app_nil_r (encode _)).
    apply CodecFacts.decode_encode_app; [|reflexivity].
    apply reply_to_well_formed;
      [ exact (CodecFacts.decode_opCode_range _ _ Hdec)
      | exact (decode_flags_range _ _ Hdec)
      | exact (decode_requestId_range _ _ Hdec)
      | apply handle_status_range
      | fold r; lia ].
Qed.

(** X22.  The reply to a request that is handled (flags bit 0 clear, or
    no cached reply under its key) is a datagram of at most 55 bytes that
    decodes, also through a 2048-byte receive buffer, to a version-1
    Reply carrying the request's opcode, flags and request id, with the
    status and the body the operation produced. *)
Theorem fresh_reply_echoes_request to_string s i clientAddr req :
  accepted i = Some (clientAddr, req) →
  (wants_at_most_once req = true →
   (cleanup s i.(now_top)).(dedup) !! dedupKey clientAddr req.(h).(requestId) = None) →
  i.(lossRep_hit) = false →
  let r := handle to_string s.(bank) (cleanup s i.(now_top)).(monitors)
             clientAddr req i.(now_op) in
  ∃ data rep,
    replies (iteration to_string s i).2 = [(clientAddr, data)] ∧
    size data ≤ 55 ∧
    decode (take 2048 data) = Some rep ∧
    rep.(h).(version) = VERSION ∧ rep.(h).(msgType) = MsgType_code Reply ∧
    rep.(h).(opCode) = req.(h).(opCode) ∧ rep.(h).(flags) = req.(h).(flags) ∧
    rep.(h).(requestId) = req.(h).(requestId) ∧
    rep.(h).(status) = r.(h_status) ∧ rep.(body) = r.(h_body).
Proof.
  intros Hacc Hmiss Hrep r.
  destruct (fresh_reply to_string s i clientAddr req Hacc Hmiss Hrep) as (H1 & H2 & H3).
  eexists _, _. split_and!; [exact H1 | exact H2 | exact H3 | reflexivity..].
Qed.

(** X22 on the first arrival of [open_datagram] at a fresh server. *)
Lemma fresh_reply_echoes_request_witness :
  ∃ data rep,
    replies (iteration (λ _, []) initial (open_arrival 0 0)).2 = [(localhost 5000, data)] ∧
    decode (take 2048 data) = Some rep ∧
    rep.(h).(msgType) = MsgType_code Reply ∧ rep.(h).(requestId) = 42 ∧
    rep.(h).(opCode) = OpCode_code OPEN.
Proof.
  assert (Hacc : accepted (open_arrival 0 0)
                 = Some (localhost 5000, decoded open_datagram))
    by (vm_compute; reflexivity).
  destruct (fresh_reply_echoes_request (λ _, []) initial (open_arrival 0 0)
              (localhost 5000) (decoded open_datagram) Hacc
              ltac:(intros _; vm_compute; reflexivity) eq_refl)
    as (data & rep & H1 & _ & H3 & _ & Hty & Hop & _ & Hrid & _).
  exists data, rep. split_and!; [exact H1 | exact H3 | exact Hty | | ].
  - rewrite Hrid. vm_compute. reflexivity.
  - rewrite Hop. vm_compute. reflexivity.
Defined.

(** *** The cache key *)

Lemma append_assoc (a b c : string) : (a +:+ b) +:+ c = a +:+ (b +:+ c).
Proof.
  induction a as [|x a IH]; [reflexivity|].
  change (String x ((a +:+ b) +:+ c) = String x (a +:+ (b +:+ c))).
  rewrite IH. reflexivity.
Qed.

Lemma all_digits_go x : ∀ s, all_digits s → all_digits (pretty_N_go x s).
Proof.
  induction (N.lt_wf_0 x) as [x _ IH]; intros s Hs.
  destruct (decide (x = 0%N)) as [->|Hne]; [rewrite pretty_N_go_0; exact Hs|].
  rewrite pretty_N_go_step by lia. apply IH.
  - apply N.div_lt; lia.
  - split; [eexists; reflexivity | exact Hs].
Qed.

Lemma all_digits_pretty (z : Z) : 0 ≤ z → all_digits (pretty z).
Proof.
  intros Hz. destruct z as [|p|p]; [| |lia].
  - split; [exists 0%N; reflexivity | exact I].
  - unfold pretty, pretty_Z, pretty, pretty_positive, pretty, pretty_N.
    case_decide; [split; [exists 0%N; reflexivity | exact I]|].
    apply all_digits_go. exact I.
Qed.

Lemma split_at_separator c : (∀ n, c ≠ pretty_N_char n) →
  ∀ x x' y y', all_digits x → all_digits x' →
    x +:+ String c y = x' +:+ String c y' → x = x' ∧ y = y'.
Proof.
  intros Hc. induction x as [|a x IH]; intros [|a' x'] y y' Hx Hx'; cbn.
  - intros [= ->]. done.
  - intros [= -> _]. destruct Hx' as [[n ->] _]. destruct (Hc n eq_refl).
  - intros [= -> _]. destruct Hx as [[n ->] _]. destruct (Hc n eq_refl).
  - intros [= -> H]. destruct Hx as [_ Hx], Hx' as [_ Hx'].
    destruct (IH x' y y' Hx Hx' H) as [-> ->]. done.
Qed.

Lemma separator_not_digit c :
  c = "."%char ∨ c = ":"%char ∨ c = "#"%char → ∀ n, c ≠ pretty_N_char n.
Proof.
  intros Hc n. unfold pretty_N_char.
  destruct Hc as [-> | [-> | ->]]; repeat case_match; discriminate.
Qed.

Lemma dedupKey_fields (a : sockaddr_in) (rid : Z) :
  dedupKey a rid =
    pretty a.(s_b1) +:+ String "." (pretty a.(s_b2) +:+ String "." (pretty a.(s_b3)
      +:+ String "." (pretty a.(s_b4) +:+ String ":" (pretty a.(port)
      +:+ String "#" (pretty rid))))).
Proof. unfold dedupKey, addrToKey. rewrite !append_assoc. reflexivity. Qed.

Lemma dedupKey_inj a1 r1 a2 r2 :
  valid_peer a1 → valid_peer a2 → 0 ≤ r1 → 0 ≤ r2 →
  dedupKey a1 r1 = dedupKey a2 r2 → a1 = a2 ∧ r1 = r2.
Proof.
  intros (A1 & A2 & A3 & A4 & A5) (B1 & B2 & B3 & B4 & B5) Hr1 Hr2.
  rewrite !dedupKey_fields. intros H.
  apply split_at_separator in H as [E1 H];
    [|apply separator_not_digit; auto|apply all_digits_pretty; assumption..].
  apply split_at_separator in H as [E2 H];
    [|apply separator_not_digit; auto|apply all_digits_pretty; assumption..].
  apply split_at_separator in H as [E3 H];
    [|apply separator_not_digit; auto|apply all_digits_pretty; assumption..].
  apply split_at_separator in H as [E4 H];
    [|apply separator_not_digit; auto|apply all_digits_pretty; assumption..].
  apply split_at_separator in H as [E5 H];
    [|apply separator_not_digit; auto|apply all_digits_pretty; assumption..].
  apply (inj pretty) in E1, E2, E3, E4, E5, H.
  destruct a1, a2. cbn in *. subst. done.
Qed.

(** X30.  The cache key tells clients and request ids apart: two keys
    are equal only for the same address, port and request id.  So a
    request never gets a reply that was cached for another client or for
    another request id: when every entry of the cache is filed under
    another (address, request id) pair, the request is handled and
    answered with its own reply. *)
Theorem cached_reply_is_private to_string s i clientAddr req :
  accepted i = Some (clientAddr, req) → valid_peer clientAddr →
  (∀ k e, s.(dedup) !! k = Some e →
     ∃ peer rid, valid_peer peer ∧ 0 ≤ rid ∧ k = dedupKey peer rid ∧
                 (peer, rid) ≠ (clientAddr, req.(h).(requestId))) →
  let r := handle to_string s.(bank) (cleanup s i.(now_top)).(monitors)
             clientAddr req i.(now_op) in
  (iteration to_string s i).2 =
    r.(h_events) ++
    (if i.(lossRep_hit) then []
     else [ReplySent clientAddr (encode (reply_to req r.(h_status) r.(h_body)))]).
Proof.
  intros Hacc Hvalid Hkeys r. subst r.
  destruct (accepted_Some _ _ _ Hacc) as (raw & _ & _ & Hdec & _ & _).
  assert (Hmiss : (cleanup s (now_top i)).(dedup)
                    !! dedupKey clientAddr req.(h).(requestId) = None).
  { destruct (dedup (cleanup s (now_top i)) !! _) as [e|] eqn:E; [|reflexivity].
    unfold cleanup in E. cbn [dedup] in E.
    apply map_lookup_filter_Some in E as [E _].
    destruct (Hkeys _ _ E) as (peer & rid & Hp & Hrid & Hk & Hne).
    apply dedupKey_inj in Hk as [E1 E2];
      [ destruct Hne; rewrite E1, E2; reflexivity | assumption | assumption
      | apply (decode_requestId_range _ _ Hdec) | assumption ]. }
  rewrite iteration_spec. cbv zeta. rewrite Hacc, Hmiss.
  destruct (wants_at_most_once req); reflexivity.
Qed.

(** X30 on [open_datagram], request 42 of 127.0.0.1:5000, at a server
    that holds a cached reply for request 7 of the same client. *)
Lemma cached_reply_is_private_witness :
  replies (iteration (λ _, []) alice_server_cached (open_arrival 0 0)).2
  ≠ [(localhost 5000, [1; 2; 3])] ∧
  invocations (iteration (λ _, []) alice_server_cached (open_arrival 0 0)).2 = [OPEN].
Proof.
  assert (Hacc : accepted (open_arrival 0 0)
                 = Some (localhost 5000, decoded open_datagram))
    by (vm_compute; reflexivity).
  assert (Hv : valid_peer (localhost 5000)) by (unfold valid_peer; cbn; lia).
  pose proof (cached_reply_is_private (λ _, []) alice_server_cached (open_arrival 0 0)
                (localhost 5000) (decoded open_datagram) Hacc Hv) as Hfresh.
  rewrite Hfresh.
  - split; [vm_compute; discriminate | vm_compute; reflexivity].
  - intros k e Hk. unfold alice_server_cached in Hk. cbn [dedup] in Hk.
    apply lookup_singleton_Some in Hk as [<- _].
    exists (localhost 5000), 7. split_and!; [exact Hv | lia | reflexivity |].
    vm_compute. discriminate.
Defined.

End DispatchFacts.

(** * Client and server together *)

Module EndToEnd.
Import proto CodecFacts WireFacts.

(** *** The call loop *)

Section Attempts.

Variables (reqId : Z) (env : Z → Client.Attempt) (reqBytes : list Z).

Lemma answers_Some a rep :
  answers reqId a = Some rep →
  rep.(h).(msgType) = MsgType_code Reply ∧ rep.(h).(requestId) = reqId.
Proof.
  unfold answers.
  destruct (Client.sendto_ok a); [|discriminate].
  destruct (Client.recvfrom a) as [| |data]; try discriminate.
  destruct (decode (take 2048 data)) as [reply|]; [|discriminate].
  destruct (msgType (h reply) =? MsgType_code Reply) eqn:Hty; [|discriminate].
  destruct (requestId (h reply) =? reqId) eqn:Hid; [|discriminate].
  apply Z.eqb_eq in Hty, Hid. cbn. intros [= <-]. split; assumption.
Qed.

Lemma attempts_answered n k rep :
  answers reqId (env k) = Some rep →
  Client.attempts reqId env reqBytes (S n) k = (Some rep, [Client.Sent k reqBytes]).
Proof.
  unfold answers. cbn [Client.attempts].
  destruct (Client.sendto_ok (env k)); [|discriminate]. cbn [negb].
  destruct (Client.recvfrom (env k)) as [| |data]; try discriminate.
  destruct (decode (take 2048 data)) as [reply|]; [|discriminate].
  destruct (msgType (h reply) =? MsgType_code Reply); [|discriminate].
  destruct (requestId (h reply) =? reqId); [|discriminate].
  cbn. intros [= <-]. reflexivity.
Qed.

Lemma attempts_unanswered n k :
  answers reqId (env k) = None →
  Client.attempts reqId env reqBytes (S n) k =
    ((Client.attempts reqId env reqBytes n (k + 1)).1,
     (if (env k).(Client.sendto_ok) then [Client.Sent k reqBytes] else [])
       ++ (Client.attempts reqId env reqBytes n (k + 1)).2).
Proof.
  unfold answers. cbn [Client.attempts].
  destruct (Client.attempts reqId env reqBytes n (k + 1)) as [res acts].
  destruct (Client.sendto_ok (env k)); [|reflexivity]. cbn [negb fst snd app].
  destruct (Client.recvfrom (env k)) as [| |data]; try reflexivity.
  destruct (decode (take 2048 data)) as [reply|]; [|reflexivity].
  destruct (msgType (h reply) =? MsgType_code Reply); [|reflexivity].
  destruct (requestId (h reply) =? reqId); [discriminate|reflexivity].
Qed.

Lemma sends_step k n :
  0 ≤ n →
  sends env reqBytes k (n + 1) =
    (if (env k).(Client.sendto_ok) then [Client.Sent k reqBytes] else [])
      ++ sends env reqBytes (k + 1) n.
Proof.
  intros Hn. unfold sends.
  replace (n + 1) with (Z.succ n) by lia. rewrite seqZ_cons by lia.
  replace (Z.pred (Z.succ n)) with n by lia. replace (Z.succ k) with (k + 1) by lia.
  rewrite filter_cons. destruct (Client.sendto_ok (env k)) eqn:E.
  - rewrite decide_True by reflexivity. reflexivity.
  - rewrite decide_False by discriminate. reflexivity.
Qed.

Lemma attempts_none n : ∀ k,
  (∀ j, k ≤ j < k + Z.of_nat n → answers reqId (env j) = None) →
  Client.attempts reqId env reqBytes n k = (None, sends env reqBytes k (Z.of_nat n)).
Proof.
  induction n as [|n IH]; intros k Hnone; [reflexivity|].
  rewrite attempts_unanswered by (apply Hnone; lia).
  rewrite IH by (intros j Hj; apply Hnone; lia).
  cbn [fst snd]. replace (Z.of_nat (S n)) with (Z.of_nat n + 1) by lia.
  rewrite (sends_step k (Z.of_nat n)) by lia. reflexivity.
Qed.

Lemma attempts_first n : ∀ k j rep,
  k ≤ j < k + Z.of_nat n → answers reqId (env j) = Some rep →
  (∀ j', k ≤ j' < j → answers reqId (env j') = None) →
  Client.attempts reqId env reqBytes n k = (Some rep, sends env reqBytes k (j - k + 1)).
Proof.
  induction n as [|n IH]; intros k j rep Hj Hrep Hnone; [lia|].
  destruct (decide (j = k)) as [->|Hne].
  - rewrite (attempts_answered _ _ _ Hrep).
    replace (k - k + 1) with (0 + 1) by lia. rewrite sends_step by lia.
    unfold answers in Hrep. destruct (Client.sendto_ok (env k)); [|discriminate].
    reflexivity.
  - rewrite attempts_unanswered by (apply Hnone; lia).
    rewrite (IH (k + 1) j rep) by (first [lia | exact Hrep | intros; apply Hnone; lia]).
    cbn [fst snd]. replace (j - k + 1) with (j - (k + 1) + 1 + 1) by lia.
    rewrite (sends_step k (j - (k + 1) + 1)) by lia. reflexivity.
Qed.

Lemma attempts_Some n : ∀ k rep acts,
  Client.attempts reqId env reqBytes n k = (Some rep, acts) →
  ∃ j, k ≤ j < k + Z.of_nat n ∧ answers reqId (env j) = Some rep.
Proof.
  induction n as [|n IH]; intros k rep acts H; [discriminate|].
  destruct (answers reqId (env k)) as [rep'|] eqn:Hk.
  - rewrite (attempts_answered _ _ _ Hk) in H. inversion H; subst.
    exists k. split; [lia | exact Hk].
  - rewrite (attempts_unanswered _ _ Hk) in H.
    destruct (Client.attempts reqId env reqBytes n (k + 1)) as [res acts'] eqn:E.
    cbn [fst snd] in H. inversion H; subst.
    destruct (IH _ _ _ E) as (j & Hj & Hrep). exists j. split; [lia | exact Hrep].
Qed.

End Attempts.

(** X23.  [call] returns the reply of the first attempt, among the
    [retryCount] allowed, whose [sendto] succeeds and whose [recvfrom]
    yields a datagram that decodes to a Reply with the call's request id;
    it fails when no attempt does.  Up to that attempt, or to the last
    one, each attempt whose [sendto] succeeds sends the same encoded
    request once.  A reply returned is always a Reply with the call's
    request id. *)
Theorem call_returns_first_answer cfg reqId env opCode body :
  let reqBytes := encode (call_request cfg reqId opCode body) in
  (∀ j rep,
     1 ≤ j ≤ cfg.(Client.retryCount_) → answers reqId (env j) = Some rep →
     (∀ j', 1 ≤ j' < j → answers reqId (env j') = None) →
     Client.call cfg reqId env opCode body = (Some rep, sends env reqBytes 1 j)) ∧
  ((∀ j, 1 ≤ j ≤ cfg.(Client.retryCount_) → answers reqId (env j) = None) →
   Client.call cfg reqId env opCode body
   = (None, sends env reqBytes 1 cfg.(Client.retryCount_))) ∧
  (∀ rep acts,
     Client.call cfg reqId env opCode body = (Some rep, acts) →
     rep.(h).(msgType) = MsgType_code Reply ∧ rep.(h).(requestId) = reqId).
Proof.
  intros reqBytes. unfold Client.call. fold (call_request cfg reqId opCode body).
  fold reqBytes. split_and!.
  - intros j rep Hj Hrep Hnone.
    rewrite (attempts_first reqId env reqBytes _ 1 j rep) by (first [lia | assumption]).
    repeat f_equal. lia.
  - intros Hnone.
    destruct (Z_le_dec (Client.retryCount_ cfg) 0) as [Hle|Hgt].
    + replace (Z.to_nat (Client.retryCount_ cfg)) with O by lia.
      unfold sends. rewrite seqZ_nil by lia. reflexivity.
    + rewrite attempts_none by (intros j Hj; apply Hnone; lia).
      rewrite Z2Nat.id by lia. reflexivity.
  - intros rep acts H. apply attempts_Some in H as (j & _ & Hrep).
    exact (answers_Some _ _ _ Hrep).
Qed.

(** X23 on [callback_then_reply]: attempt 1 gets a callback, attempt 2
    the reply. *)
Lemma call_returns_first_answer_witness :
  Client.call five_retries 99 callback_then_reply (OpCode_code QUERY_BALANCE) []
  = (Some reply_99,
     sends callback_then_reply
       (encode (call_request five_retries 99 (OpCode_code QUERY_BALANCE) [])) 1 2).
Proof.
  destruct (call_returns_first_answer five_retries 99 callback_then_reply
              (OpCode_code QUERY_BALANCE) []) as (Hfirst & _).
  apply Hfirst.
  - vm_compute. split; discriminate.
  - vm_compute. reflexivity.
  - intros j' Hj. assert (j' = 1) as -> by lia. vm_compute. reflexivity.
Defined.

(** *** Reading what was written, field after field *)

Lemma getU16_at pre rest v off :
  off = size pre → 0 ≤ v < 2^16 → off + 2 < 2^64 →
  getU16 (pre ++ putBE16 v ++ rest) off = Some (v, off + 2).
Proof. intros -> Hv Hs. apply getBE16_put; assumption. Qed.

Lemma getI32_at pre rest v off :
  off = size pre → - 2^31 ≤ v < 2^31 → off + 4 < 2^64 →
  getI32 (pre ++ putBE32 (u32 v) ++ rest) off = Some (v, off + 4).
Proof. intros -> Hv Hs. apply getI32_put; assumption. Qed.

Lemma getDouble_at pre rest v off :
  off = size pre → 0 ≤ v < 2^64 → off + 8 < 2^64 →
  getDouble (pre ++ putBE64 v ++ rest) off = Some (v, off + 8).
Proof. intros -> Hv Hs. apply getDouble_put; assumption. Qed.

Lemma getString_at pre rest s off :
  off = size pre → size s ≤ 65535 → off + 2 + size s < 2^64 →
  getString (pre ++ (putBE16 (u16 (size s)) ++ s) ++ rest) off
  = Some (s, off + 2 + size s).
Proof. intros -> Hv Hs. apply getString_put; assumption. Qed.


Lemma putString_app b s :
  size s ≤ 65535 → putString b s = b ++ (putBE16 (u16 (size s)) ++ s).
Proof.
  intros Hs. unfold putString, putU16. rewrite gtb_false by lia.
  rewrite <- app_assoc. reflexivity.
Qed.

Lemma size_putBE16 v : size (putBE16 v) = 2.
Proof. reflexivity. Qed.

Lemma size_putBE32 v : size (putBE32 v) = 4.
Proof. reflexivity. Qed.

Lemma size_putBE64 v : size (putBE64 v) = 8.
Proof. reflexivity. Qed.

Lemma size_nil : size [] = 0.
Proof. reflexivity. Qed.

Ltac sizes :=
  rewrite ?size_app, ?size_putBE16, ?size_putBE32, ?size_putBE64,
    ?password_slot_size, ?size_nil;
  lia.





Lemma callback_parse op accNo cur bal info :
  0 ≤ op < 2^16 → - 2^31 ≤ accNo < 2^31 → 0 ≤ cur < 2^16 → 0 ≤ bal < 2^64 →
  size info ≤ 65535 →
  let cb := putString (putDouble (putU16 (putI32 (putU16 [] op) accNo) cur) bal) info in
  ('(updateType, cbOff) ← getU16 cb 0;
   '(accNo, cbOff) ← getI32 cb cbOff;
   '(cur, cbOff) ← getU16 cb cbOff;
   '(newBal, cbOff) ← getDouble cb cbOff;
   '(info, cbOff) ← getString cb cbOff;
   Some (updateType, accNo, cur, newBal, info))
  = Some (op, accNo, cur, bal, info).
Proof.
  intros Ho Ha Hc Hb Hn cb. subst cb. pose proof (size_nonneg info) as Hn0.
  replace (putString (putDouble (putU16 (putI32 (putU16 [] op) accNo) cur) bal) info)
    with ([] ++ putBE16 op ++ putBE32 (u32 accNo) ++ putBE16 cur ++ putBE64 bal
             ++ (putBE16 (u16 (size info)) ++ info) ++ []).
  2: { rewrite putString_app by exact Hn.
       unfold putDouble, putU64, putU16, putI32, putU32.
       rewrite <- !app_assoc, app_nil_r. reflexivity. }
  rewrite (getU16_at [] _ op 0) by sizes. cbn [mbind option_bind].
  rewrite (app_assoc []).
  rewrite (getI32_at _ _ accNo) by sizes. cbn [mbind option_bind].
  rewrite (app_assoc ([] ++ _)).
  rewrite (getU16_at _ _ cur) by sizes. cbn [mbind option_bind].
  rewrite (app_assoc (([] ++ _) ++ _)).
  rewrite (getDouble_at _ _ bal) by sizes. cbn [mbind option_bind].
  rewrite (app_assoc ((([] ++ _) ++ _) ++ _)).
  rewrite (getString_at _ _ info) by sizes. cbn [mbind option_bind].
  reflexivity.
Qed.

(** *** From the client's handlers to the bank *)


(** Read the body off a handler that went through to [call]. *)
Ltac handler H :=
  repeat match type of H with
         | (if ?c then None else _) = Some _ => destruct c; [discriminate H|]
         end;
  cbv zeta in H; injection H as <-.








(** X26.  MONITOR_REGISTER as [handleMonitor] sends it appends one entry
    for the sender to the monitor list, and does nothing else: no [Bank]
    call, no callback.  The entry expires [seconds mod 65536] seconds
    after the registration (the client casts its [int] to 16 bits, and
    itself waits [seconds] seconds); the cleanup of an iteration keeps it
    exactly while the iteration begins before that time. *)
Theorem monitor_registration to_string bk mons clientAddr now flags rid secs body :
  Client.handleMonitor secs = Some body →
  let r := Server.handle to_string bk mons clientAddr
             (request MONITOR_REGISTER flags rid body) now in
  let e := {| Server.addr := clientAddr;
              Server.m_expireAt := now + Server.seconds (secs mod 2^16) |} in
  r.(Server.h_monitors) = mons ++ [e] ∧
  r.(Server.h_bank) = bk ∧ r.(Server.h_status) = Status_code OK ∧
  r.(Server.h_events) = [] ∧
  (∀ s t, e ∈ s.(Server.monitors) →
     e ∈ (Server.cleanup s t).(Server.monitors) ↔ t < now + Server.seconds (secs mod 2^16)).
Proof.
  intros H r e. subst r e. unfold Client.handleMonitor in H. handler H.
  unfold Server.handle.
  cbn [request h body opCode OpCode_code Z.eqb Pos.eqb].
  replace (putU16 [] (u16 secs)) with ([] ++ putBE16 (u16 secs) ++ [])
    by (unfold putU16; rewrite app_nil_r; reflexivity).
  assert (Hr : 0 ≤ u16 secs < 2^16) by (unfold u16; apply Z.mod_pos_bound; lia).
  rewrite (getU16_at [] _ (u16 secs) 0) by sizes.
  cbn [Server.h_monitors Server.h_bank Server.h_status Server.h_events].
  split_and!; try reflexivity.
  intros s t He. rewrite DispatchFacts.cleanup_monitors. cbn [Server.m_expireAt].
  unfold u16. tauto.
Qed.

(** X26 for 65546 seconds: the server registers the monitor for 10. *)
Lemma monitor_registration_witness :
  (Server.handle (λ _, []) alice_bank [] (localhost 6000)
     (request MONITOR_REGISTER 0 5 (putU16 [] (u16 65546))) 0).(Server.h_monitors)
  = [{| Server.addr := localhost 6000; Server.m_expireAt := Server.seconds 10 |}].
Proof.
  destruct (monitor_registration (λ _, []) alice_bank [] (localhost 6000) 0 0 5 65546 _
              ltac:(vm_compute; reflexivity)) as (Hmons & _).
  exact Hmons.
Defined.

(** *** Callbacks at the monitoring client *)

Lemma callback_datagram_received op accNo cur bal info :
  0 ≤ op < 2^16 → - 2^31 ≤ accNo < 2^31 → 0 ≤ cur < 2^16 → 0 ≤ bal < 2^64 →
  size info ≤ 2006 →
  let cb_body := putString (putDouble (putU16 (putI32 (putU16 [] op) accNo) cur) bal)
                   info in
  let cb := {| h := {| magic := MAGIC; version := VERSION;
                       msgType := MsgType_code Callback;
                       opCode := OpCode_code CALLBACK_UPDATE;
                       flags := 0; status := 0; requestId := 0;
                       bodyLen := u32 (size cb_body) |};
               body := cb_body |} in
  decode (take 2048 (encode cb)) = Some cb ∧
  Client.receiveCallback (encode cb) = Some (op, accNo, cur, bal, info).
Proof.
  intros Ho Ha Hc Hb Hn cb_body cb. pose proof (size_nonneg info) as Hn0.
  assert (Hsz : size cb_body = 18 + size info).
  { unfold cb_body. rewrite putString_app by lia.
    unfold putDouble, putU64, putU16, putI32, putU32. sizes. }
  assert (Hdec : decode (take 2048 (encode cb)) = Some cb).
  { rewrite take_ge
      by (pose proof (DispatchFacts.encode_size cb) as E; cbn [body cb] in E;
          unfold size in *; lia).
    rewrite <- (app_nil_r (encode cb)).
    apply decode_encode_app; [|reflexivity].
    unfold well_formed, header_in_range, cb, MAGIC, VERSION, u32.
    cbn [h body magic version msgType opCode flags status requestId bodyLen
         MsgType_code OpCode_code].
    rewrite Z.mod_small by lia. lia. }
  split; [exact Hdec|].
  unfold Client.receiveCallback. rewrite Hdec.
  cbn [h body cb msgType opCode MsgType_code OpCode_code Z.eqb Pos.eqb negb].
  unfold cb_body. apply callback_parse; (assumption || lia).
Qed.

(** X27.  [sendUpdateCallback] sends one datagram to each monitor, in
    list order.  With an info string of at most 2006 bytes, the callback
    loop of [handleMonitor] reads out of each datagram the update type,
    account number, currency, balance and info string the server put in,
    and no [call] takes such a datagram for a reply. *)
Theorem callbacks_reach_monitors mons op accNo cur bal info :
  0 ≤ op < 2^16 → - 2^31 ≤ accNo < 2^31 → 0 ≤ cur < 2^16 → 0 ≤ bal < 2^64 →
  size info ≤ 2006 →
  Forall2 (λ m e, ∃ data,
             e = Server.CallbackSent m.(Server.addr) data ∧
             Client.receiveCallback data = Some (op, accNo, cur, bal, info) ∧
             ∀ reqId, answers reqId {| Client.sendto_ok := true;
                                       Client.recvfrom := Client.Datagram data |} = None)
          mons (Server.sendUpdateCallback mons op accNo cur bal info).
Proof.
  intros Ho Ha Hc Hb Hn.
  destruct (callback_datagram_received op accNo cur bal info Ho Ha Hc Hb Hn)
    as (Hdec & Hrecv).
  unfold Server.sendUpdateCallback. apply Forall2_fmap_r, Forall_Forall2_diag.
  apply Forall_forall. intros m _. eexists. split; [reflexivity|].
  cbv zeta. cbn [magic version msgType opCode flags status requestId].
  split; [exact Hrecv|].
  intros reqId. unfold answers. cbn [Client.sendto_ok Client.recvfrom].
  rewrite Hdec. reflexivity.
Qed.

(** X27 on the callback for a deposit that leaves 150, sent to
    [watcher]. *)
Lemma callbacks_reach_monitors_witness :
  Forall2 (λ m e, ∃ data,
             e = Server.CallbackSent m.(Server.addr) data ∧
             Client.receiveCallback data
               = Some (3, 10001, 0, Double.of_Z 150, str "DEPOSIT by alice") ∧
             ∀ reqId, answers reqId {| Client.sendto_ok := true;
                                       Client.recvfrom := Client.Datagram data |} = None)
          [watcher]
          (Server.sendUpdateCallback [watcher] 3 10001 0 (Double.of_Z 150)
             (str "DEPOSIT by alice")).
Proof.
  apply callbacks_reach_monitors; try lia.
  - vm_compute. split; [discriminate|reflexivity].
  - vm_compute. discriminate.
Defined.

(** *** A call and the iteration that serves it *)

Lemma call_request_in_range cfg reqId opCode body :
  0 ≤ reqId < 2^64 → 0 ≤ opCode < 2^16 →
  header_in_range (call_request cfg reqId opCode body).(h).
Proof.
  intros Hrid Hop. unfold header_in_range, call_request, MAGIC, VERSION, u32.
  cbn [h magic version msgType proto.opCode flags status requestId bodyLen MsgType_code].
  pose proof (Z.mod_pos_bound (size body) (2^32) ltac:(lia)).
  destruct (Client.atMostOnce_ cfg); unfold FLAG_AT_MOST_ONCE; lia.
Qed.

Lemma call_request_accepted cfg reqId opCode body i clientAddr :
  0 ≤ reqId < 2^64 → 0 ≤ opCode < 2^16 → size body ≤ 2024 →
  i.(Server.recvfrom) = Some (clientAddr, encode (call_request cfg reqId opCode body)) →
  i.(Server.lossReq_hit) = false →
  accepted i = Some (clientAddr, call_request cfg reqId opCode body).
Proof.
  intros Hrid Hop Hsz Hrecv Hloss. pose proof (size_nonneg body).
  unfold accepted. rewrite Hrecv, Hloss.
  rewrite take_ge
    by (pose proof (DispatchFacts.encode_size (call_request cfg reqId opCode body)) as E;
        cbn [proto.body call_request] in E; unfold size in *; lia).
  rewrite <- (app_nil_r (encode _)), decode_encode_app; [reflexivity| |reflexivity].
  split; [apply call_request_in_range; assumption|].
  cbn [call_request h proto.body bodyLen]. unfold u32. apply Z.mod_small. lia.
Qed.

Lemma call_request_flag cfg reqId opCode body :
  wants_at_most_once (call_request cfg reqId opCode body) = cfg.(Client.atMostOnce_).
Proof. unfold wants_at_most_once. cbn. destruct (Client.atMostOnce_ cfg); reflexivity. Qed.

(** X28.  A request of at most 2024 body bytes that [call] sends and
    the server receives, with no loss draw hitting and no cached reply
    under its key, is accepted and handled, and one reply goes back to
    the sender; when that reply is what the first attempt receives,
    [call] returns after this one send with a Reply that carries the
    status and the body the server's operation produced. *)
Theorem request_answered cfg reqId opCode body env to_string s i clientAddr :
  0 ≤ reqId < 2^64 → 0 ≤ opCode < 2^16 → size body ≤ 2024 →
  1 ≤ cfg.(Client.retryCount_) →
  let req := call_request cfg reqId opCode body in
  i.(Server.recvfrom) = Some (clientAddr, encode req) →
  i.(Server.lossReq_hit) = false → i.(Server.lossRep_hit) = false →
  (cfg.(Client.atMostOnce_) = true →
   (Server.cleanup s i.(Server.now_top)).(Server.dedup) !! dedupKey clientAddr reqId
     = None) →
  let r := Server.handle to_string s.(Server.bank)
             (Server.cleanup s i.(Server.now_top)).(Server.monitors)
             clientAddr req i.(Server.now_op) in
  ∃ data,
    Server.replies (Server.iteration to_string s i).2 = [(clientAddr, data)] ∧
    ((env 1).(Client.sendto_ok) = true → (env 1).(Client.recvfrom) = Client.Datagram data →
     Client.call cfg reqId env opCode body
     = (Some (reply_to req r.(Server.h_status) r.(Server.h_body)),
        [Client.Sent 1 (encode req)])).
Proof.
  intros Hrid Hop Hsz Hretry req Hrecv Hloss Hrep Hmiss r.
  pose proof (call_request_accepted cfg reqId opCode body i clientAddr
                Hrid Hop Hsz Hrecv Hloss) as Hacc. fold req in Hacc.
  destruct (DispatchFacts.fresh_reply to_string s i clientAddr req Hacc) as (H1 & _ & H3).
  { unfold req. rewrite call_request_flag. exact Hmiss. }
  { exact Hrep. }
  fold r in H1, H3. eexists. split; [exact H1|].
  intros Hsend Hdata. unfold Client.call. fold (call_request cfg reqId opCode body).
  fold req.
  destruct (Z.to_nat (Client.retryCount_ cfg)) as [|n] eqn:En; [lia|].
  apply attempts_answered. unfold answers. rewrite Hsend, Hdata, H3.
  cbn [reply_to h msgType requestId req call_request]. rewrite !Z.eqb_refl. reflexivity.
Qed.

(** X28 on a QUERY_BALANCE call with an empty body at a fresh server. *)
Lemma request_answered_witness :
  ∃ data,
    Server.replies (Server.iteration (λ _, []) Server.initial
                      (call_arrival (OpCode_code QUERY_BALANCE) [])).2
      = [(localhost 5000, data)] ∧
    (Client.call five_retries 99 (always_delivers data) (OpCode_code QUERY_BALANCE) []).2
      = [Client.Sent 1 (encode (call_request five_retries 99
                                  (OpCode_code QUERY_BALANCE) []))].
Proof.
  destruct (request_answered five_retries 99 (OpCode_code QUERY_BALANCE) []
              (always_delivers
                 (encode (reply_to (call_request five_retries 99
                                      (OpCode_code QUERY_BALANCE) [])
                            (Status_code ERR_BAD_REQUEST) [])))
              (λ _, []) Server.initial
              (call_arrival (OpCode_code QUERY_BALANCE) []) (localhost 5000)
              ltac:(lia) ltac:(vm_compute; split; [discriminate|reflexivity])
              ltac:(vm_compute; discriminate) ltac:(vm_compute; discriminate)
              eq_refl eq_refl eq_refl ltac:(intros _; vm_compute; reflexivity))
    as (data & Hrep & Hcall).
  assert (Hdata : data = encode (reply_to (call_request five_retries 99
                                             (OpCode_code QUERY_BALANCE) [])
                                   (Status_code ERR_BAD_REQUEST) [])).
  { vm_compute in Hrep. injection Hrep as <-. vm_compute. reflexivity. }
  exists data. split; [exact Hrep|].
  rewrite Hdata. rewrite (Hcall eq_refl); [reflexivity|].
  rewrite <- Hdata. reflexivity.
Defined.

Lemma encode_header_body m : encode m = encode (with_body m []) ++ m.(body).
Proof.
  destruct m as [[mg ver ty op fl st rid bl] bd]. unfold with_body. cbn [h body].
  rewrite encode_app, <- (app_nil_r (encode _)), encode_app, app_nil_r. reflexivity.
Qed.

(** X29.  A request whose body is longer than 2024 bytes does not fit the
    server's 2048-byte receive buffer: what arrives does not decode, and
    the iteration passes it over without a reply. *)
Theorem oversized_request_is_dropped cfg reqId opCode body to_string s i clientAddr :
  0 ≤ reqId < 2^64 → 0 ≤ opCode < 2^16 → 2024 < size body < 2^32 →
  i.(Server.recvfrom) = Some (clientAddr, encode (call_request cfg reqId opCode body)) →
  accepted i = None ∧
  Server.iteration to_string s i = (Server.cleanup s i.(Server.now_top), []).
Proof.
  intros Hrid Hop Hsz Hrecv.
  assert (Hacc : accepted i = None).
  { unfold accepted. rewrite Hrecv. destruct (Server.lossReq_hit i); [reflexivity|].
    set (m := call_request cfg reqId opCode body).
    assert (Htake : take 2048 (encode m) = encode (with_body m (take 2024 body))).
    { rewrite (encode_header_body m), (encode_header_body (with_body m (take 2024 body))).
      rewrite take_app.
      pose proof (DispatchFacts.encode_size (with_body m [])) as E.
      cbn [proto.body with_body] in E. unfold size in E. cbn [length] in E.
      rewrite take_ge by lia.
      replace (2048 - length (encode (with_body m [])))%nat with 2024%nat by lia.
      reflexivity. }
    rewrite Htake, (decode_encode_short (with_body m (take 2024 body)));
      [reflexivity| | |].
    - exact (call_request_in_range cfg reqId opCode body Hrid Hop).
    - reflexivity.
    - cbn [with_body proto.body h m call_request bodyLen]. unfold u32.
      rewrite Z.mod_small by lia. unfold size in *. rewrite length_take. lia. }
  split; [exact Hacc|].
  rewrite DispatchFacts.iteration_spec. cbv zeta. rewrite Hacc. reflexivity.
Qed.

(** X29 on an OPEN whose body is 2025 zero bytes. *)
Lemma oversized_request_is_dropped_witness :
  Server.iteration (λ _, []) Server.initial
    (call_arrival (OpCode_code OPEN) (replicate 2025 0))
  = (Server.cleanup Server.initial 0, []).
Proof.
  destruct (oversized_request_is_dropped five_retries 99 (OpCode_code OPEN)
              (replicate 2025 0) (λ _, []) Server.initial
              (call_arrival (OpCode_code OPEN) (replicate 2025 0)) (localhost 5000)
              ltac:(lia) ltac:(vm_compute; split; [discriminate|reflexivity])
              ltac:(vm_compute; split; reflexivity) eq_refl) as [_ Hit].
  exact Hit.
Defined.

End EndToEnd.
